(** * KMS server sync: extraction, probing, selection and publishing

    A shallow embedding of [main.js] (the current script) and of the parts of
    the other revisions of the script that the specification refers to,
    followed by the properties of the discovery-and-selection pipeline.

    JavaScript strings are sequences of UTF-16 code units; regular
    expressions are run by a backtracking matcher that follows the
    ECMAScript semantics (greedy quantifiers, leftmost alternative first,
    captures undone on backtracking). *)

From Stdlib Require Import String Ascii.
From Stdlib Require Import List NArith ZArith Bool Arith Lia.
Import ListNotations.

(* ================================================================== *)
(** ** JavaScript strings *)
(* ================================================================== *)

Module JsString.

(** A string is the list of its UTF-16 code units. *)
Definition jsstr := list N.

(** An ASCII literal of the script. *)
Definition lit (s : string) : jsstr := map N_of_ascii (list_ascii_of_string s).

Definition ch (a : ascii) : N := N_of_ascii a.

(** [a === b] on strings. *)
Fixpoint str_eqb (a b : jsstr) : bool :=
  match a, b with
  | [], [] => true
  | x :: a', y :: b' => N.eqb x y && str_eqb a' b'
  | _, _ => false
  end.

Fixpoint startsWith (p s : jsstr) : bool :=
  match p, s with
  | [], _ => true
  | x :: p', y :: s' => N.eqb x y && startsWith p' s'
  | _ :: _, [] => false
  end.

(** [s.includes(sub)]. *)
Fixpoint includes (s sub : jsstr) : bool :=
  startsWith sub s ||
  match s with
  | [] => false
  | _ :: s' => includes s' sub
  end.

(** [s.split(sep)] for a separator of one code unit. *)
Fixpoint split (sep : N) (s : jsstr) : list jsstr :=
  match s with
  | [] => [[]]
  | c :: s' =>
      if N.eqb c sep then [] :: split sep s'
      else match split sep s' with
           | p :: ps => (c :: p) :: ps
           | [] => [[c]]
           end
  end.

(** A value interpolated in a template literal; [undefined] prints as the
    word undefined. *)
Definition tmpl (o : option jsstr) : jsstr :=
  match o with
  | Some s => s
  | None => lit "undefined"
  end.

(** Truthiness of a value that is a string or [undefined]. *)
Definition truthy (o : option jsstr) : bool :=
  match o with
  | Some (_ :: _) => true
  | _ => false
  end.

(** Character classes of the regular expressions. *)
Definition in_range (lo hi : ascii) (c : N) : bool :=
  N.leb (ch lo) c && N.leb c (ch hi).

Definition is_digit (c : N) : bool := in_range "0" "9" c.

Definition is_alnum (c : N) : bool :=
  in_range "a" "z" c || in_range "A" "Z" c || in_range "0" "9" c.

(** [\w] *)
Definition is_word (c : N) : bool := is_alnum c || N.eqb c (ch "_").

(** [[a-zA-Z0-9.-]] *)
Definition is_hostch (c : N) : bool :=
  is_alnum c || N.eqb c (ch ".") || N.eqb c (ch "-").

(** [\s]: white space and line terminators. *)
Definition is_space (c : N) : bool :=
  existsb (N.eqb c)
    [9; 10; 11; 12; 13; 32; 160; 5760; 8232; 8233; 8239; 8287; 12288; 65279]%N
  || (N.leb 8192 c && N.leb c 8202).

(** [[^\w\d\r\n]] *)
Definition is_gap (c : N) : bool :=
  negb (is_word c || is_digit c || N.eqb c 13 || N.eqb c 10).

(** Case folding of the [i] flag (without [u]). Only its action on ASCII is
    modelled: the patterns of the script contain ASCII characters and three
    uncased CJK characters, and the folding of a code unit above 127 is
    never an ASCII code unit. *)
Definition canon (c : N) : N :=
  if in_range "a" "z" c then (c - 32)%N else c.

(** The value of a run of decimal digits, read up to the first code unit
    that is not one. *)
Fixpoint digits_value (acc : Z) (s : jsstr) : Z :=
  match s with
  | c :: s' =>
      if is_digit c then digits_value (10 * acc + Z.of_N (c - ch "0")) s'
      else acc
  | [] => acc
  end.

Fixpoint skip_space (s : jsstr) : jsstr :=
  match s with
  | c :: s' => if is_space c then skip_space s' else s
  | [] => []
  end.

(** The Numbers that [parseInt] returns: NaN, an infinity, or a double
    whose value is an integer, given by its sign and its magnitude (the
    sign tells the two zeros apart). *)
Inductive number :=
| NaN
| Infinity (negative : bool)
| Finite (negative : bool) (magnitude : Z).

(** The double nearest to the integer [n], not negative, ties to the even
    significand of 53 bits; [None] when the nearest value is beyond the
    finite doubles. *)
Definition round_double (n : Z) : option Z :=
  if (n <? 2 ^ 53)%Z then Some n
  else
    let e := (Z.log2 n - 52)%Z in
    let q := Z.shiftr n e in
    let r := (n - Z.shiftl q e)%Z in
    let half := Z.shiftl 1 (e - 1) in
    let q' := if (half <? r)%Z || ((r =? half)%Z && Z.odd q)
              then (q + 1)%Z else q in
    let v := Z.shiftl q' e in
    if (1024 <=? Z.log2 v)%Z then None else Some v.

Definition to_number (negative : bool) (n : Z) : number :=
  match round_double n with
  | Some v => Finite negative v
  | None => Infinity negative
  end.

(** [parseInt(s, 10)]: white space is skipped, a sign is read, then the
    digits up to the first code unit that is not one; the result is the
    Number nearest to the integer written, as Node computes it. *)
Definition parseInt10 (s : jsstr) : number :=
  let s1 := skip_space s in
  let '(neg, s2) :=
    match s1 with
    | c :: s' =>
        if N.eqb c (ch "-") then (true, s')
        else if N.eqb c (ch "+") then (false, s')
        else (false, s1)
    | [] => (false, s1)
    end in
  match s2 with
  | c :: _ =>
      if is_digit c then to_number neg (digits_value 0 s2) else NaN
  | [] => NaN
  end.

(** [x >= n] and [x <= n] for a Number [x] and an integer [n]; a
    comparison with NaN is false. *)
Definition number_geb (x : number) (n : Z) : bool :=
  match x with
  | NaN => false
  | Infinity negative => negb negative
  | Finite negative v => (n <=? (if negative then - v else v))%Z
  end.

Definition number_leb (x : number) (n : Z) : bool :=
  match x with
  | NaN => false
  | Infinity negative => negative
  | Finite negative v => ((if negative then - v else v) <=? n)%Z
  end.

End JsString.
Import JsString.

(* ================================================================== *)
(** ** Regular expressions *)
(* ================================================================== *)

Module JsRegExp.

Inductive regex : Type :=
| Eps
| Cls (p : N -> bool)
| Seq (a b : regex)
| Alt (a b : regex)
| Star (a : regex)
| Grp (n : nat) (a : regex)
| WordB
| Bos
| Eos.

(** A position in the subject: the code units before it (nearest first) and
    those after it. The index of the position is [length (before z)]. *)
Record cursor := { before : jsstr; after : jsstr }.

Definition start_of (text : jsstr) : cursor :=
  {| before := []; after := text |}.

(** Capture groups: [None] is an undefined group. *)
Definition caps := nat -> option jsstr.
Definition no_caps : caps := fun _ => None.
Definition set_cap (n : nat) (v : jsstr) (c : caps) : caps :=
  fun k => if Nat.eqb k n then Some v else c k.

(** The code units consumed from [z] to a later position [z']. *)
Definition between (z z' : cursor) : jsstr :=
  firstn (length (after z) - length (after z')) (after z).

(** [\b] *)
Definition is_boundary (z : cursor) : bool :=
  xorb (match before z with x :: _ => is_word x | [] => false end)
       (match after z with x :: _ => is_word x | [] => false end).

(** The loop of a greedy [*]: one more iteration first, the continuation
    when that fails. An iteration that consumes nothing is rejected, as in
    ECMAScript; [fuel] bounds the number of iterations and is never used up
    when it starts above the number of code units left. *)
Fixpoint star_loop {R : Type}
    (body : cursor -> caps -> (cursor -> caps -> option R) -> option R)
    (k : cursor -> caps -> option R)
    (fuel : nat) (z : cursor) (c : caps) {struct fuel} : option R :=
  match fuel with
  | O => k z c
  | S fuel' =>
      match body z c (fun z' c' =>
              if length (after z') <? length (after z)
              then star_loop body k fuel' z' c' else None) with
      | Some res => Some res
      | None => k z c
      end
  end.

(** The backtracking matcher, in continuation-passing style: [m r z c k]
    matches [r] at [z] and hands every way of matching it to [k], in the
    order of preference, until [k] succeeds. *)
Fixpoint m {R : Type} (r : regex) (z : cursor) (c : caps)
    (k : cursor -> caps -> option R) {struct r} : option R :=
  match r with
  | Eps => k z c
  | Cls p =>
      match after z with
      | x :: rest =>
          if p x then k {| before := x :: before z; after := rest |} c
          else None
      | [] => None
      end
  | Seq a b => m a z c (fun z' c' => m b z' c' k)
  | Alt a b =>
      match m a z c k with
      | Some res => Some res
      | None => m b z c k
      end
  | Star a => star_loop (m a) k (length (after z)) z c
  | Grp n a => m a z c (fun z' c' => k z' (set_cap n (between z z') c'))
  | WordB => if is_boundary z then k z c else None
  | Bos => match before z with [] => k z c | _ :: _ => None end
  | Eos => match after z with [] => k z c | _ :: _ => None end
  end.

(** Derived forms. *)
Definition Opt (r : regex) : regex := Alt r Eps.
Definition Plus (r : regex) : regex := Seq r (Star r).

Fixpoint times (n : nat) (r : regex) : regex :=
  match n with
  | O => Eps
  | S n' => Seq r (times n' r)
  end.

Fixpoint upto (n : nat) (r : regex) : regex :=
  match n with
  | O => Eps
  | S n' => Opt (Seq r (upto n' r))
  end.

(** [r{lo,hi}] *)
Definition Rep (lo hi : nat) (r : regex) : regex :=
  Seq (times lo r) (upto (hi - lo) r).

Definition chr (a : ascii) : regex := Cls (N.eqb (ch a)).
Definition chri (c : N) : regex := Cls (fun x => N.eqb (canon x) (canon c)).

(** A literal, and a literal under the [i] flag. *)
Definition str (s : jsstr) : regex := fold_right (fun c r => Seq (Cls (N.eqb c)) r) Eps s.
Definition stri (s : jsstr) : regex := fold_right (fun c r => Seq (chri c) r) Eps s.

(** The result of a successful match: where it ends and its groups. *)
Record MatchResult := { m_end : cursor; m_groups : caps }.

Definition match_at (r : regex) (z : cursor) : option MatchResult :=
  m r z no_caps (fun z' c' => Some {| m_end := z'; m_groups := c' |}).

(** The search of [exec] and [test]: the first position at or after the
    cursor where the pattern matches. *)
Fixpoint search (r : regex) (bef aft : jsstr) {struct aft} : option MatchResult :=
  match match_at r {| before := bef; after := aft |} with
  | Some res => Some res
  | None =>
      match aft with
      | [] => None
      | x :: rest => search r (x :: bef) rest
      end
  end.

(** [re.exec(text)] for a global pattern whose [lastIndex] is the cursor
    [z]; on success [lastIndex] becomes [m_end]. *)
Definition regex_exec (r : regex) (z : cursor) : option MatchResult :=
  search r (before z) (after z).

(** [re.test(s)] for a pattern without the [g] flag. *)
Definition test (r : regex) (s : jsstr) : bool :=
  match search r [] s with
  | Some _ => true
  | None => false
  end.

End JsRegExp.
Import JsRegExp.

Declare Scope regex_scope.
Delimit Scope regex_scope with re.
Notation "a >> b" := (Seq a b) (at level 61, right associativity) : regex_scope.

(* ================================================================== *)
(** ** main.js *)
(* ================================================================== *)

Module KmsSync.

Local Open Scope regex_scope.

(** A [RegExp] object: the text of its pattern and the compiled pattern.
    The [g] flag is in the way the pattern is run ([exec_loop] below), the
    [i] flag in the character tests of the compiled pattern. *)
Record RegExp := { source : jsstr; program : regex }.

(** [[a-zA-Z0-9][a-zA-Z0-9.-]*\.[a-zA-Z0-9]+] *)
Definition domain_re : regex :=
  Cls is_alnum >> Star (Cls is_hostch) >> chr "." >> Plus (Cls is_alnum).

(** [\d{1,3}\.\d{1,3}\.\d{1,3}\.\d{1,3}] *)
Definition ipv4_re : regex :=
  Rep 1 3 (Cls is_digit) >> chr "." >> Rep 1 3 (Cls is_digit) >> chr "." >>
  Rep 1 3 (Cls is_digit) >> chr "." >> Rep 1 3 (Cls is_digit).

(** [(?::(\d+))?] *)
Definition port_group2 : regex := Opt (chr ":" >> Grp 2 (Plus (Cls is_digit))).

(** [(?::\d+)?] *)
Definition port_inline : regex := Opt (chr ":" >> Plus (Cls is_digit)).

(** [/(?:kms|KMS)\s*:\s*([a-zA-Z0-9.-]+(?::\d+)?)/g] *)
Definition label_pattern : RegExp :=
  {| source := lit "(?:kms|KMS)\s*:\s*([a-zA-Z0-9.-]+(?::\d+)?)";
     program :=
       Alt (str (lit "kms")) (str (lit "KMS")) >> Star (Cls is_space) >>
       chr ":" >> Star (Cls is_space) >>
       Grp 1 (Plus (Cls is_hostch) >> port_inline) |}.

(** [/\b([a-zA-Z0-9][a-zA-Z0-9.-]*\.[a-zA-Z0-9]+)(?::(\d+))?\b/g] *)
Definition domain_pattern : RegExp :=
  {| source := lit "\b([a-zA-Z0-9][a-zA-Z0-9.-]*\.[a-zA-Z0-9]+)(?::(\d+))?\b";
     program := WordB >> Grp 1 domain_re >> port_group2 >> WordB |}.

(** [/\b(\d{1,3}\.\d{1,3}\.\d{1,3}\.\d{1,3})(?::(\d+))?\b/g] *)
Definition ip_pattern : RegExp :=
  {| source := lit "\b(\d{1,3}\.\d{1,3}\.\d{1,3}\.\d{1,3})(?::(\d+))?\b";
     program := WordB >> Grp 1 ipv4_re >> port_group2 >> WordB |}.

(** The three code units of the Chinese word for server. *)
Definition fuwuqi : jsstr := [26381; 21153; 22120]%N.

(** [/(?:...|server)[^\w\d\r\n]*([a-zA-Z0-9][a-zA-Z0-9.-]*\.[a-zA-Z0-9]+(?::\d+)?)/gi] *)
Definition server_pattern : RegExp :=
  {| source :=
       lit "(?:" ++ fuwuqi ++
       lit "|server)[^\w\d\r\n]*([a-zA-Z0-9][a-zA-Z0-9.-]*\.[a-zA-Z0-9]+(?::\d+)?)";
     program :=
       Alt (stri fuwuqi) (stri (lit "server")) >> Star (Cls is_gap) >>
       Grp 1 (domain_re >> port_inline) |}.

Definition regexPatterns : list RegExp :=
  [label_pattern; domain_pattern; ip_pattern; server_pattern].

(** [isLikelyKmsServer] *)
Definition notKmsPatterns : list regex :=
  [ stri (lit "github.com");
    stri (lit "example.com");
    stri (lit "localhost");
    str (lit "127.0.0.1");
    stri (lit "test.");
    stri (lit ".js") >> Eos;
    stri (lit ".css") >> Eos;
    stri (lit ".html") >> Eos;
    stri (lit ".png") >> Eos;
    stri (lit ".jpg") >> Eos;
    stri (lit ".gif") >> Eos ].

Definition kmsPatterns : list regex :=
  [ stri (lit "kms"); stri (lit "vlmcs"); stri (lit "activate"); ipv4_re ].

Definition isLikelyKmsServer (server : jsstr) : bool :=
  if existsb (fun pattern => test pattern server) notKmsPatterns then false
  else if existsb (fun pattern => test pattern server) kmsPatterns then true
  else test domain_re server.

(** A [Set] of strings keeps the order of insertion. *)
Definition set_add (s : jsstr) (set : list jsstr) : list jsstr :=
  if existsb (str_eqb s) set then set else set ++ [s].

(** The body of the [while] loop of [extractKmsServers]: the server string
    built from a match. Group 1 takes part in every match of the four
    patterns (lemma [group1_defined]). *)
Definition server_of_match (pat : RegExp) (mt : MatchResult) : jsstr :=
  let m1 := tmpl (m_groups mt 1) in
  let m2 := m_groups mt 2 in
  if includes (source pat) (lit "\d{1,3}\.\d{1,3}") then
    m1 ++ (if truthy m2 then lit ":" ++ tmpl m2 else lit ":1688")
  else if truthy m2 then m1 ++ lit ":" ++ tmpl m2
  else if includes m1 (lit ":") then m1
  else m1 ++ lit ":1688".

(** [while ((match = regex.exec(text)) !== null) { ... }]. The cursor is the
    [lastIndex] of the pattern. A match that leaves [lastIndex] where it
    was would be found again for ever: the model answers [None] then, and
    when the fuel is used up. *)
Fixpoint exec_loop (fuel : nat) (pat : RegExp) (z : cursor)
    (servers : list jsstr) : option (list jsstr) :=
  match fuel with
  | O => None
  | S fuel' =>
      match regex_exec (program pat) z with
      | None => Some servers
      | Some mt =>
          let server := server_of_match pat mt in
          let servers' :=
            if isLikelyKmsServer server then set_add server servers
            else servers in
          if length (after (m_end mt)) <? length (after z)
          then exec_loop fuel' pat (m_end mt) servers'
          else None
      end
  end.

Definition specificServers : list jsstr :=
  [ lit "kms.hmg.pw:1688"; lit "kms.xingez.me:1688"; lit "140.246.142.164:1688" ].

Definition add_specific (text : jsstr) (servers : list jsstr) (server : jsstr)
    : list jsstr :=
  if includes text (hd [] (split (ch ":") server))
  then set_add server servers
  else servers.

(** One turn of [for (const regexPattern of regexPatterns)]: a fresh
    pattern object, [lastIndex] at 0. *)
Definition pattern_step (text : jsstr) (acc : option (list jsstr)) (pat : RegExp)
    : option (list jsstr) :=
  match acc with
  | Some servers => exec_loop (S (length text)) pat (start_of text) servers
  | None => None
  end.

Definition run_patterns (text : jsstr) : option (list jsstr) :=
  fold_left (pattern_step text) regexPatterns (Some []).

(** [extractKmsServers(text)]; [None] when the function does not return
    (theorem [extractKmsServers_total]: it always does). *)
Definition extractKmsServers (text : jsstr) : option (list jsstr) :=
  match run_patterns text with
  | Some servers => Some (fold_left (add_specific text) specificServers servers)
  | None => None
  end.

Definition useFallbackKmsServers : list jsstr :=
  [ lit "kms.hmg.pw:1688";
    lit "kms.xingez.me:1688";
    lit "140.246.142.164:1688";
    lit "kms.03k.org:1688";
    lit "kms.chinancce.com:1688";
    lit "kms.ddns.net:1688";
    lit "kms.ddz.red:1688";
    lit "kms.lotro.cc:1688";
    lit "kms.luody.info:1688";
    lit "kms.moeclub.org:1688";
    lit "kms8.MSGuides.com:1688";
    lit "xykz.f3322.org:1688";
    lit "kms.cangshui.net:1688" ].

(** *** The world the script talks to *)

(** The GitHub issue request. *)
Inductive JsonResult :=
| JsonThrows
| JsonIssue (body : option jsstr).

Inductive FetchResult :=
| FetchThrows
| FetchResponse (ok : bool) (json : JsonResult).

(** A run of [nc] through [execPromise]: the promise resolves with the two
    output streams, or is rejected (exit status not zero, time limit,
    spawn failure). *)
Inductive ExecResult :=
| ExecOk (stdout stderr : jsstr)
| ExecErr (message : jsstr).

(** The Cloudflare requests. *)
Inductive LookupResult :=
| LookupThrows
| LookupResponse (ok : bool) (first_id : option jsstr).

Inductive WriteResult :=
| WriteOk (id : jsstr)
| WriteFails.

(** A record write: the HTTP method, the id of the record in the URL (for
    an update) and the fields of the JSON body. *)
Record Request := {
  method : jsstr;
  target : option jsstr;
  rtype : jsstr;
  name : jsstr;
  content : jsstr;
  ttl : N;
  proxied : bool
}.

(** The answers of the outside world during one run. The [i]-th call of
    [execPromise] in the run is answered by [exec i]. *)
Record World := {
  issue : FetchResult;
  exec : nat -> jsstr -> ExecResult;
  cf_lookup : LookupResult;
  cf_write : Request -> WriteResult
}.

Definition dnsRecordName : jsstr := lit "kms.everyhub.top".

(** [getKmsServersFromIssue]; [None] when extraction does not return. *)
Definition getKmsServersFromIssue (w : World) : option (list jsstr) :=
  match issue w with
  | FetchThrows => Some useFallbackKmsServers
  | FetchResponse false _ => Some useFallbackKmsServers
  | FetchResponse true JsonThrows => Some useFallbackKmsServers
  | FetchResponse true (JsonIssue body) =>
      let issueBody := if truthy body then tmpl body else [] in
      match extractKmsServers issueBody with
      | Some [] => Some useFallbackKmsServers
      | Some servers => Some servers
      | None => None
      end
  end.

(** The command line of the probe. *)
Definition nc_command (server : jsstr) : jsstr :=
  let parts := split (ch ":") server in
  lit "nc -zv -w 3 " ++ tmpl (nth_error parts 0) ++ lit " " ++
  tmpl (nth_error parts 1).

(** The body of the loop of [validateKmsServers] for the [i]-th server:
    [true] when the server is pushed on [validServers]. A rejected promise
    is caught inside the loop. *)
Definition probe (exec : nat -> jsstr -> ExecResult) (i : nat) (server : jsstr)
    : bool :=
  match exec i (nc_command server) with
  | ExecOk _ stderr =>
      if truthy (Some stderr) && includes stderr (lit "Connection refused")
      then false
      else true
  | ExecErr _ => false
  end.

Fixpoint validate_loop (exec : nat -> jsstr -> ExecResult) (i : nat)
    (servers validServers : list jsstr) : list jsstr :=
  match servers with
  | [] => validServers
  | server :: rest =>
      validate_loop exec (S i) rest
        (if probe exec i server then validServers ++ [server] else validServers)
  end.

Definition validateKmsServers (exec : nat -> jsstr -> ExecResult)
    (servers : list jsstr) : list jsstr :=
  validate_loop exec 0 servers [].

(** [validServers[0]]; [None] is [undefined]. *)
Definition selectKmsServer (validServers : list jsstr) : option jsstr :=
  nth_error validServers 0.

Definition record_request (meth : jsstr) (id : option jsstr)
    (selectedServer : jsstr) : Request :=
  {| method := meth;
     target := id;
     rtype := lit "CNAME";
     name := dnsRecordName;
     content := hd [] (split (ch ":") selectedServer);
     ttl := 120;
     proxied := false |}.

(** [createCloudflareRecord] and [updateCloudflareRecordById]: the request
    sent, and whether the function returned. *)
Definition createCloudflareRecord (w : World) (selectedServer : jsstr)
    : Request * bool :=
  let req := record_request (lit "POST") None selectedServer in
  (req, match cf_write w req with WriteOk _ => true | WriteFails => false end).

Definition updateCloudflareRecordById (w : World) (recordId selectedServer : jsstr)
    : Request * bool :=
  let req := record_request (lit "PUT") (Some recordId) selectedServer in
  (req, match cf_write w req with WriteOk _ => true | WriteFails => false end).

(** [getCloudflareRecordId]: [None] when it throws. *)
Definition getCloudflareRecordId (w : World) : option (option jsstr) :=
  match cf_lookup w with
  | LookupThrows => None
  | LookupResponse false _ => None
  | LookupResponse true id => Some id
  end.

(** [updateCloudflareRecord]: the requests sent, and whether it returned. *)
Definition updateCloudflareRecord (w : World) (selectedServer : jsstr)
    : list Request * bool :=
  match getCloudflareRecordId w with
  | None => ([], false)
  | Some recordId =>
      let '(req, ok) :=
        if truthy recordId
        then updateCloudflareRecordById w (tmpl recordId) selectedServer
        else createCloudflareRecord w selectedServer in
      ([req], ok)
  end.

(** A finished run: the exit code of the process and the record writes
    sent to Cloudflare. *)
Record Run := { exit_code : N; requests : list Request }.

(** [main]; [None] when the run does not finish. The process ends with
    code 1 through [process.exit(1)] in the [catch], and with code 0 when
    [main] returns. *)
Definition main (w : World) : option Run :=
  match getKmsServersFromIssue w with
  | None => None
  | Some kmsServers =>
      let validKmsServers := validateKmsServers (exec w) kmsServers in
      if 0 <? length validKmsServers then
        match selectKmsServer validKmsServers with
        | Some selectedServer =>
            let '(reqs, ok) := updateCloudflareRecord w selectedServer in
            Some {| exit_code := if ok then 0 else 1; requests := reqs |}
        | None => Some {| exit_code := 1; requests := [] |}
        end
      else Some {| exit_code := 0; requests := [] |}
  end.

End KmsSync.

(* ================================================================== *)
(** ** The revisions of the script kept beside main.js *)
(* ================================================================== *)

(** The revision whose first line names main.js: its [main] falls back to
    the same literal list, throws when no server is valid and publishes an
    A record for an IPv4 host. The server list that
    [fetchKmsServersFromGithub] hands to [main] is an input of the model.
    From the revisions that probe with a socket, [testKmsServer] and the
    loop around it. *)
Module KmsSyncRev.

Import KmsSync.
Local Open Scope regex_scope.

(** [/^(\d{1,3})\.(\d{1,3})\.(\d{1,3})\.(\d{1,3})$/] *)
Definition ipv4Regex : regex :=
  Bos >> Grp 1 (Rep 1 3 (Cls is_digit)) >> chr "." >>
  Grp 2 (Rep 1 3 (Cls is_digit)) >> chr "." >>
  Grp 3 (Rep 1 3 (Cls is_digit)) >> chr "." >>
  Grp 4 (Rep 1 3 (Cls is_digit)) >> Eos.

Definition isValidIpAddress (s : jsstr) : bool :=
  if negb (test ipv4Regex s) then false
  else
    forallb
      (fun part =>
         let num := parseInt10 part in
         number_geb num 0 && number_leb num 255)
      (split (ch ".") s).

Definition fallbackList : list jsstr :=
  [ lit "kms.hmg.pw:1688";
    lit "kms.xingez.me:1688";
    lit "140.246.142.164:1688";
    lit "kms.03k.org:1688";
    lit "kms.chinancce.com:1688";
    lit "kms.ddns.net:1688";
    lit "kms.ddz.red:1688";
    lit "kms.lotro.cc:1688";
    lit "kms.luody.info:1688";
    lit "kms.moeclub.org:1688";
    lit "kms8.MSGuides.com:1688";
    lit "xykz.f3322.org:1688";
    lit "kms.cangshui.net:1688" ].

(** The candidate list of [main]: the fetched list, or the fallback list
    when it is empty. *)
Definition candidates (fetched : list jsstr) : list jsstr :=
  match fetched with
  | [] => fallbackList
  | _ :: _ => fetched
  end.

(** [validateKmsServers] of this revision: a server is valid when the
    promise of [nc] resolves. *)
Definition probe (exec : nat -> jsstr -> ExecResult) (i : nat) (server : jsstr)
    : bool :=
  match exec i (nc_command server) with
  | ExecOk _ _ => true
  | ExecErr _ => false
  end.

Fixpoint validate_loop (exec : nat -> jsstr -> ExecResult) (i : nat)
    (servers validServers : list jsstr) : list jsstr :=
  match servers with
  | [] => validServers
  | server :: rest =>
      validate_loop exec (S i) rest
        (if probe exec i server then validServers ++ [server] else validServers)
  end.

Definition validateKmsServers (exec : nat -> jsstr -> ExecResult)
    (servers : list jsstr) : list jsstr :=
  validate_loop exec 0 servers [].

(** The Cloudflare side of [updateCloudflareRecord]. *)
Inductive CheckResult :=
| CheckThrows
| CheckData (success : bool) (first_id : option jsstr).

Record Cloudflare := {
  cf_check : CheckResult;
  cf_put : Request -> bool;
  cf_verify_throws : bool
}.

(** [updateCloudflareRecord(serverHost, recordType)]: the write sent, and
    whether the function returned. *)
Definition updateCloudflareRecord (cf : Cloudflare) (serverHost recordType : jsstr)
    : list Request * bool :=
  match cf_check cf with
  | CheckThrows => ([], false)
  | CheckData false _ => ([], false)
  | CheckData true existing =>
      let recordData :=
        {| method := match existing with Some _ => lit "PUT" | None => lit "POST" end;
           target := existing;
           rtype := recordType;
           name := dnsRecordName;
           content := serverHost;
           ttl := 120;
           proxied := false |} in
      ([recordData],
       if cf_put cf recordData then negb (cf_verify_throws cf) else false)
  end.

Definition main (fetched : list jsstr) (exec : nat -> jsstr -> ExecResult)
    (cf : Cloudflare) : Run :=
  let kmsServers := candidates fetched in
  let validServers := validateKmsServers exec kmsServers in
  match validServers with
  | [] => {| exit_code := 1; requests := [] |}
  | selectedServer :: _ =>
      let serverHost := hd [] (split (ch ":") selectedServer) in
      let isIpAddress := isValidIpAddress serverHost in
      let recordType := if isIpAddress then lit "A" else lit "CNAME" in
      let '(reqs, ok) := updateCloudflareRecord cf serverHost recordType in
      {| exit_code := if ok then 0 else 1; requests := reqs |}
  end.

(** The socket probe [testKmsServer]: the promise
    resolves with the first thing that happens to the socket. [connect]
    may also throw at once (a port that is not one), which rejects the
    promise. *)
Inductive SocketEvent :=
| SockConnect
| SockError (message : jsstr)
| SockTimeout.

Inductive ConnectResult :=
| ConnectThrows
| ConnectEvent (e : SocketEvent).

(** [None]: the promise is rejected. *)
Definition testKmsServer (r : ConnectResult) : option bool :=
  match r with
  | ConnectThrows => None
  | ConnectEvent SockConnect => Some true
  | ConnectEvent (SockError _) => Some false
  | ConnectEvent SockTimeout => Some false
  end.

(** The loop of the [main] of those revisions: a rejected promise is not
    caught there and ends the loop ([None]). *)
Fixpoint probe_sockets (net : nat -> jsstr -> ConnectResult) (i : nat)
    (kmsServers validKmsServers : list jsstr) : option (list jsstr) :=
  match kmsServers with
  | [] => Some validKmsServers
  | server :: rest =>
      match testKmsServer (net i server) with
      | None => None
      | Some isValid =>
          probe_sockets net (S i) rest
            (if isValid then validKmsServers ++ [server] else validKmsServers)
      end
  end.

End KmsSyncRev.

(* ================================================================== *)
(** ** The words of the specification *)
(* ================================================================== *)

Module Spec.

(** The fallback list as the specification documents it. *)
Definition documented_fallback : list jsstr :=
  [ lit "kms.hmg.pw:1688";
    lit "kms.xingez.me:1688";
    lit "140.246.142.164:1688";
    lit "kms.03k.org:1688";
    lit "kms.chinancce.com:1688";
    lit "kms.ddns.net:1688";
    lit "kms.ddz.red:1688";
    lit "kms.lotro.cc:1688";
    lit "kms.luody.info:1688";
    lit "kms.moeclub.org:1688";
    lit "kms8.msguides.com:1688";
    lit "xykz.f3322.org:1688";
    lit "kms.cangshui.net:1688" ].

(** A probe result: the endpoint and its reachable flag. *)
Definition ProbeResult : Type := jsstr * bool.

(** The selector of the specification: the first entry, in the order of
    the input, whose reachable flag is set. *)
Fixpoint select (results : list ProbeResult) : option jsstr :=
  match results with
  | [] => None
  | (endpoint, reachable) :: rest =>
      if reachable then Some endpoint else select rest
  end.

(** The Endpoint invariant of the data model, on an endpoint given as host
    and port: the port is a decimal number from 1 to 65535, the host is a
    sequence of DNS labels (each not empty, of letters, digits and
    hyphens) separated by dots. A dotted quad is such a sequence. *)
Definition is_label (l : jsstr) : bool :=
  match l with
  | [] => false
  | _ :: _ => forallb (fun c => is_alnum c || N.eqb c (ch "-")) l
  end.

Definition valid_host (host : jsstr) : bool :=
  forallb is_label (split (ch ".") host).

Definition valid_port (port : jsstr) : bool :=
  match port with
  | [] => false
  | _ :: _ =>
      forallb is_digit port &&
      (1 <=? digits_value 0 port)%Z && (digits_value 0 port <=? 65535)%Z
  end.

Definition endpoint_invariant (server : jsstr) : bool :=
  match split (ch ":") server with
  | [host; port] => valid_host host && valid_port port
  | _ => false
  end.

(** A token of the explicit-label form: the label, optional white space, a
    colon, optional white space, then the host, or the host, a colon and
    the port. *)
Record Token := {
  t_label : jsstr;
  t_ws1 : jsstr;
  t_ws2 : jsstr;
  t_host : jsstr;
  t_port : option jsstr
}.

Definition port_suffix (port : option jsstr) : jsstr :=
  match port with
  | Some p => lit ":" ++ p
  | None => []
  end.

Definition token_text (t : Token) : jsstr :=
  t_label t ++ t_ws1 t ++ lit ":" ++ t_ws2 t ++ t_host t ++
  port_suffix (t_port t).

(** The endpoint the token names; port 1688 when it gives none. *)
Definition token_server (t : Token) : jsstr :=
  t_host t ++ lit ":" ++
  match t_port t with
  | Some p => p
  | None => lit "1688"
  end.

Definition nonempty (s : jsstr) : bool :=
  match s with
  | [] => false
  | _ :: _ => true
  end.

(** The parts of the token apart from its label. *)
Definition well_formed_body (t : Token) : bool :=
  forallb is_space (t_ws1 t) && forallb is_space (t_ws2 t) &&
  nonempty (t_host t) && forallb is_hostch (t_host t) &&
  match t_port t with
  | Some p => nonempty p && forallb is_digit p
  | None => true
  end.

(** Well-formed with a label that is the word kms in any letter case. *)
Definition well_formed (t : Token) : bool :=
  str_eqb (map canon (t_label t)) (lit "KMS") && well_formed_body t.

(** Well-formed with one of the two spellings the pattern of the script
    lists. *)
Definition well_formed_exact (t : Token) : bool :=
  (str_eqb (t_label t) (lit "kms") || str_eqb (t_label t) (lit "KMS")) &&
  well_formed_body t.

(** The token ends where [post] begins: the text that follows does not
    go on with the host or the port. *)
Definition ends_before (t : Token) (post : jsstr) : bool :=
  match t_port t with
  | Some _ =>
      match post with
      | c :: _ => negb (is_digit c)
      | [] => true
      end
  | None =>
      match post with
      | c :: rest =>
          negb (is_hostch c) &&
          negb (N.eqb c (ch ":") &&
                match rest with d :: _ => is_digit d | [] => false end)
      | [] => true
      end
  end.

(** The offset at which the search of [exec] finds its match: the first
    position at or after the cursor where the pattern matches. *)
Fixpoint search_start (r : regex) (bef aft : jsstr) {struct aft} : option nat :=
  match match_at r {| before := bef; after := aft |} with
  | Some _ => Some (length bef)
  | None =>
      match aft with
      | [] => None
      | x :: rest => search_start r (x :: bef) rest
      end
  end.

(** The matches that a scan with a global pattern finds from the cursor
    on, each as the offset where it begins and the offset where it ends:
    the search resumes where the match before it ended. *)
Fixpoint scan_spans (fuel : nat) (r : regex) (z : cursor) : list (nat * nat) :=
  match fuel with
  | O => []
  | S fuel' =>
      match search_start r (before z) (after z), regex_exec r z with
      | Some s, Some mt =>
          (s, length (before (m_end mt))) ::
          (if length (after (m_end mt)) <? length (after z)
           then scan_spans fuel' r (m_end mt)
           else [])
      | _, _ => []
      end
  end.

Definition matches_of (r : regex) (text : jsstr) : list (nat * nat) :=
  scan_spans (S (length text)) r (start_of text).

(** The offset [i] is inside a match of the scan that begins before it. *)
Definition inside_earlier_match (r : regex) (text : jsstr) (i : nat) : bool :=
  existsb (fun span => (fst span <? i) && (i <? snd span)) (matches_of r text).

End Spec.

(* ================================================================== *)
(** ** What a match is *)
(* ================================================================== *)

(** The relation the matcher computes: [Match r z c z' c'] when [r] can
    match the code units from [z] to [z'], taking the groups from [c] to
    [c']. The matcher only ever hands such pairs to its continuation
    (lemma [m_sound]). *)
Module MatchRel.

Inductive Match : regex -> cursor -> caps -> cursor -> caps -> Prop :=
| M_Eps z c : Match Eps z c z c
| M_Cls p x bef rest c :
    p x = true ->
    Match (Cls p) {| before := bef; after := x :: rest |} c
                  {| before := x :: bef; after := rest |} c
| M_Seq a b z c z1 c1 z2 c2 :
    Match a z c z1 c1 -> Match b z1 c1 z2 c2 -> Match (Seq a b) z c z2 c2
| M_AltL a b z c z' c' : Match a z c z' c' -> Match (Alt a b) z c z' c'
| M_AltR a b z c z' c' : Match b z c z' c' -> Match (Alt a b) z c z' c'
| M_StarNil a z c : Match (Star a) z c z c
| M_StarCons a z c z1 c1 z2 c2 :
    Match a z c z1 c1 -> Match (Star a) z1 c1 z2 c2 ->
    Match (Star a) z c z2 c2
| M_Grp n a z c z' c' :
    Match a z c z' c' ->
    Match (Grp n a) z c z' (set_cap n (between z z') c')
| M_WordB z c : is_boundary z = true -> Match WordB z c z c
| M_Bos z c : before z = [] -> Match Bos z c z c
| M_Eos z c : after z = [] -> Match Eos z c z c.

(** The least number of code units a match of [r] consumes. *)
Fixpoint minlen (r : regex) : nat :=
  match r with
  | Cls _ => 1
  | Seq a b => minlen a + minlen b
  | Alt a b => Nat.min (minlen a) (minlen b)
  | Grp _ a => minlen a
  | Eps | Star _ | WordB | Bos | Eos => 0
  end.

(** Every character test of [r] implies [P]. *)
Fixpoint chars_within (P : N -> Prop) (r : regex) : Prop :=
  match r with
  | Cls p => forall x, p x = true -> P x
  | Seq a b | Alt a b => chars_within P a /\ chars_within P b
  | Star a | Grp _ a => chars_within P a
  | Eps | WordB | Bos | Eos => True
  end.

(** [r] sets no group. *)
Fixpoint no_group (r : regex) : Prop :=
  match r with
  | Grp _ _ => False
  | Seq a b | Alt a b => no_group a /\ no_group b
  | Star a => no_group a
  | Eps | Cls _ | WordB | Bos | Eos => True
  end.

(** [z'] is [z] moved forward over [w]. *)
Definition moved (z : cursor) (w : jsstr) (z' : cursor) : Prop :=
  after z = w ++ after z' /\ before z' = rev w ++ before z.

(** The run of a character class ends at [rest]. *)
Definition stops (p : N -> bool) (rest : jsstr) : Prop :=
  match rest with
  | [] => True
  | y :: _ => p y = false
  end.

(** No colon and digit at the head of [aft]. *)
Definition no_port_follows (aft : jsstr) : Prop :=
  match aft with
  | c :: rest =>
      N.eqb c (ch ":") &&
      match rest with d :: _ => is_digit d | [] => false end = false
  | [] => True
  end.

Definition hostP (c : N) : Prop := is_hostch c = true.
Definition digitP (c : N) : Prop := is_digit c = true.

(** What every extracted server string looks like: a non-empty run of
    host characters, a colon, a non-empty run of digits. *)
Definition endpoint_shape (server : jsstr) : Prop :=
  exists host port,
    server = host ++ lit ":" ++ port /\
    host <> [] /\ Forall hostP host /\
    port <> [] /\ Forall digitP port.

(** The same, decided through [split], the way the script takes a server
    string apart. *)
Definition has_shape (server : jsstr) : bool :=
  match split (ch ":") server with
  | [host; port] =>
      Spec.nonempty host && forallb is_hostch host &&
      Spec.nonempty port && forallb is_digit port
  | _ => false
  end.

End MatchRel.

(* ================================================================== *)
(** ** Probe results and transports *)
(* ================================================================== *)

(** The script keeps no list of probe results: the loop of
    [validateKmsServers] decides for each server in turn whether to push
    it. [probe_results] is the sequence of these decisions, which is what
    the specification calls the probe results of the batch. *)
Module ProbeView.

Import KmsSync.

Fixpoint probe_results_from (exec : nat -> jsstr -> ExecResult) (i : nat)
    (servers : list jsstr) : list Spec.ProbeResult :=
  match servers with
  | [] => []
  | server :: rest =>
      (server, probe exec i server) :: probe_results_from exec (S i) rest
  end.

Definition probe_results (exec : nat -> jsstr -> ExecResult)
    (servers : list jsstr) : list Spec.ProbeResult :=
  probe_results_from exec 0 servers.

(** A transport that answers the [i]-th probe as the [i]-th flag says,
    whatever the command. *)
Definition exec_of_flags (flags : list bool) : nat -> jsstr -> ExecResult :=
  fun i _ =>
    if nth i flags false then ExecOk [] [] else ExecErr (lit "Command failed").

(** A mocked transport with a fixed accept set: [nc] succeeds for the
    servers of the set (the promise resolves, and the error stream does not
    speak of a refused connection) and fails for the others (the promise is
    rejected). *)
Definition mocked (accept : jsstr -> bool) (exec : nat -> jsstr -> ExecResult)
    (servers : list jsstr) : Prop :=
  forall i server, In server servers ->
    match exec i (nc_command server) with
    | ExecOk _ stderr =>
        accept server = true /\
        includes stderr (lit "Connection refused") = false
    | ExecErr _ => accept server = false
    end.

(** The probe of one candidate fails: the promise of [nc] is rejected
    (refused or reset connection, name that does not resolve, time limit),
    or [nc] reports the refusal on its error stream. *)
Definition probe_fails (r : ExecResult) : Prop :=
  match r with
  | ExecErr _ => True
  | ExecOk _ stderr => includes stderr (lit "Connection refused") = true
  end.

(** The same for the socket probe: an error event or the time limit. *)
Definition socket_fails (r : KmsSyncRev.ConnectResult) : Prop :=
  match r with
  | KmsSyncRev.ConnectEvent (KmsSyncRev.SockError _) => True
  | KmsSyncRev.ConnectEvent KmsSyncRev.SockTimeout => True
  | KmsSyncRev.ConnectEvent KmsSyncRev.SockConnect => False
  | KmsSyncRev.ConnectThrows => False
  end.

(** What the outside answers to a probe, apart from the loops: the run of
    [nc] meets a server that takes the connection (the promise resolves
    and the error stream reports no refusal); the socket connects. *)
Definition nc_answers (r : ExecResult) : bool :=
  match r with
  | ExecOk _ stderr => negb (includes stderr (lit "Connection refused"))
  | ExecErr _ => false
  end.

Definition socket_answers (r : KmsSyncRev.ConnectResult) : bool :=
  match r with
  | KmsSyncRev.ConnectEvent KmsSyncRev.SockConnect => true
  | _ => false
  end.

(** The servers of a batch whose probe is answered, in the order of the
    batch, when the probe of its first server is the [i]-th of the run. *)
Fixpoint answered (answers : nat -> jsstr -> bool) (i : nat)
    (servers : list jsstr) : list jsstr :=
  match servers with
  | [] => []
  | server :: rest =>
      if answers i server then server :: answered answers (S i) rest
      else answered answers (S i) rest
  end.

Definition nc_answered (exec : nat -> jsstr -> ExecResult)
    : nat -> list jsstr -> list jsstr :=
  answered (fun i server => nc_answers (exec i (nc_command server))).

Definition socket_answered (net : nat -> jsstr -> KmsSyncRev.ConnectResult)
    : nat -> list jsstr -> list jsstr :=
  answered (fun i server => socket_answers (net i server)).

(** The run falls back: the issue could not be fetched or read, or
    extraction found nothing in its body. *)
Definition falls_back (w : World) : Prop :=
  match issue w with
  | FetchThrows => True
  | FetchResponse false _ => True
  | FetchResponse true JsonThrows => True
  | FetchResponse true (JsonIssue body) =>
      extractKmsServers (if truthy body then tmpl body else []) = Some []
  end.

End ProbeView.

(* ================================================================== *)
(** ** Scenarios *)
(* ================================================================== *)

Module Scenarios.

Import KmsSync.

(** The issue cannot be fetched and no server answers. *)
Definition dead_world : World :=
  {| issue := FetchThrows;
     exec := fun _ _ => ExecErr (lit "Command failed");
     cf_lookup := LookupResponse true None;
     cf_write := fun _ => WriteOk (lit "id") |}.

(** The issue cannot be fetched and, of the fallback list, only the server
    given by its IPv4 address answers. *)
Definition only_ip_exec : nat -> jsstr -> ExecResult :=
  fun _ cmd =>
    if str_eqb cmd (lit "nc -zv -w 3 140.246.142.164 1688")
    then ExecOk [] (lit "Connection to 140.246.142.164 1688 port [tcp/*] succeeded!")
    else ExecErr (lit "Command failed").

Definition only_ip_world : World :=
  {| issue := FetchThrows;
     exec := only_ip_exec;
     cf_lookup := LookupResponse true None;
     cf_write := fun _ => WriteOk (lit "id") |}.

(** The socket side of the same scenario. *)
Definition only_ip_net : nat -> jsstr -> KmsSyncRev.ConnectResult :=
  fun _ server =>
    if str_eqb server (lit "140.246.142.164:1688")
    then KmsSyncRev.ConnectEvent KmsSyncRev.SockConnect
    else KmsSyncRev.ConnectEvent (KmsSyncRev.SockError (lit "ECONNREFUSED")).

Definition only_ip_cloudflare : KmsSyncRev.Cloudflare :=
  {| KmsSyncRev.cf_check := KmsSyncRev.CheckData true None;
     KmsSyncRev.cf_put := fun _ => true;
     KmsSyncRev.cf_verify_throws := false |}.

(** The scenario of the specification: the issue names one server, and
    only that server answers. *)
Definition one_server_world : World :=
  {| issue :=
       FetchResponse true
         (JsonIssue (Some (lit "kms: example-kms.test:1689 some other text")));
     exec := fun _ cmd =>
       if str_eqb cmd (lit "nc -zv -w 3 example-kms.test 1689")
       then ExecOk [] (lit "Connection to example-kms.test 1689 port [tcp/*] succeeded!")
       else ExecErr (lit "Command failed");
     cf_lookup := LookupResponse true None;
     cf_write := fun _ => WriteOk (lit "id") |}.

End Scenarios.

(* ================================================================== *)
(** ** The revisions that probe with a socket *)
(* ================================================================== *)

(** [getKmsServersFromIssue], [updateCloudflareDnsRecord] and [main] of the
    revisions that use [net.Socket] and the Cloudflare client library (the
    fuller of them; its [testKmsServer] and probe loop are in
    [KmsSyncRev]). *)
Module KmsSyncSocket.

Import KmsSync.
Local Open Scope regex_scope.

(** [/(?:kms|KMS)\s*:\s*([a-zA-Z0-9.-]+:\d+)/g] *)
Definition labelled : regex :=
  Alt (str (lit "kms")) (str (lit "KMS")) >> Star (Cls is_space) >>
  chr ":" >> Star (Cls is_space) >>
  Grp 1 (Plus (Cls is_hostch) >> chr ":" >> Plus (Cls is_digit)).

(** The page of the issue: [fetch] or [response.text()] throws, or the
    text arrives. *)
Inductive PageResult :=
| PageThrows
| PageText (text : jsstr).

(** [while ((match = regex.exec(text)) !== null) servers.push(match[1])];
    [None] as in [KmsSync.exec_loop]. *)
Fixpoint push_loop (fuel : nat) (z : cursor) (servers : list jsstr)
    : option (list jsstr) :=
  match fuel with
  | O => None
  | S fuel' =>
      match regex_exec labelled z with
      | None => Some servers
      | Some mt =>
          if length (after (m_end mt)) <? length (after z)
          then push_loop fuel' (m_end mt) (servers ++ [tmpl (m_groups mt 1)])
          else None
      end
  end.

Definition getKmsServersFromIssue (page : PageResult) : option (list jsstr) :=
  match page with
  | PageThrows => Some []
  | PageText text => push_loop (S (length text)) (start_of text) []
  end.

(** What [testKmsServer] hands to [socket.connect]: the port number and
    the host name ([None] is [undefined]). *)
Definition connect_args (serverAddress : jsstr) : number * option jsstr :=
  let parts := split (ch ":") serverAddress in
  (parseInt10 (tmpl (nth_error parts 1)), nth_error parts 0).

(** The Cloudflare client. *)
Record Zone := { zone_id : jsstr; zone_name : jsstr }.
Record DnsRecord := { rec_id : jsstr; rec_name : jsstr; rec_type : jsstr }.

(** [cf.dnsRecords.edit] and [cf.dnsRecords.add] with their arguments. *)
Inductive CfCall :=
| CfEdit (zone id type name content : jsstr) (ttl : N)
| CfAdd (zone type name content : jsstr) (ttl : N).

(** The answers of the client: [user.read] succeeds or throws, the two
    [browse] calls return their lists or throw ([None]). *)
Record CfLib := {
  user_read : bool;
  zones_browse : option (list Zone);
  records_browse : option (list DnsRecord)
}.

(** [s.replace(pat, rep)] for a string pattern: the first occurrence. *)
Fixpoint replace_first (s pat rep : jsstr) : jsstr :=
  if startsWith pat s then rep ++ skipn (length pat) s
  else match s with
       | [] => []
       | c :: s' => c :: replace_first s' pat rep
       end.

(** [dnsRecords.result.find(record => record.name === name &&
    record.type === 'A')] *)
Definition find_record (records : list DnsRecord) (name : jsstr)
    : option DnsRecord :=
  find (fun record =>
          str_eqb (rec_name record) name && str_eqb (rec_type record) (lit "A"))
       records.

(** The loop over [possibleNames], left at the first name found. *)
Fixpoint first_found (records : list DnsRecord) (names : list jsstr)
    : option DnsRecord :=
  match names with
  | [] => None
  | name :: rest =>
      match find_record records name with
      | Some record => Some record
      | None => first_found records rest
      end
  end.

Definition possibleNames (recordName domainName : jsstr) : list jsstr :=
  [ recordName;
    recordName ++ lit "." ++ domainName;
    replace_first recordName (lit "." ++ domainName) [] ].

(** [updateCloudflareDnsRecord]: the calls made to the client. Whatever
    is thrown after the client is built is caught inside the function. *)
Definition updateCloudflareDnsRecord (cf : CfLib)
    (zoneId recordName recordValue : jsstr) : list CfCall :=
  if negb (user_read cf) then []
  else
    match zones_browse cf with
    | None => []
    | Some zones =>
        match find (fun z => str_eqb (zone_id z) zoneId) zones with
        | None => []
        | Some zone =>
            match records_browse cf with
            | None => []
            | Some records =>
                let existingRecord :=
                  match find_record records recordName with
                  | Some record => Some record
                  | None =>
                      first_found records
                        (possibleNames recordName (zone_name zone))
                  end in
                match existingRecord with
                | Some record =>
                    [CfEdit zoneId (rec_id record) (lit "A") (rec_name record)
                       recordValue 3600]
                | None =>
                    [CfAdd zoneId (lit "A") recordName recordValue 3600]
                end
            end
        end
    end.

(** The environment of the process; [None] is a variable that is not
    set. *)
Record Env := {
  apiToken : option jsstr;
  zoneId : option jsstr;
  recordName : option jsstr
}.

Record SocketWorld := {
  page : PageResult;
  net : nat -> jsstr -> KmsSyncRev.ConnectResult;
  cf : CfLib
}.

Record SocketRun := { exit_code : N; calls : list CfCall }.

(** [main] with the [catch] at the call site; [None] when the run does
    not finish. *)
Definition main (env : Env) (w : SocketWorld) : option SocketRun :=
  if negb (truthy (apiToken env)) then Some {| exit_code := 1; calls := [] |}
  else if negb (truthy (zoneId env)) then Some {| exit_code := 1; calls := [] |}
  else if negb (truthy (recordName env)) then Some {| exit_code := 1; calls := [] |}
  else
    match getKmsServersFromIssue (page w) with
    | None => None
    | Some kmsServers =>
        match KmsSyncRev.probe_sockets (net w) 0 kmsServers [] with
        | None => Some {| exit_code := 1; calls := [] |}
        | Some validKmsServers =>
            match validKmsServers with
            | first :: _ =>
                let selectedServer := hd [] (split (ch ":") first) in
                Some {| exit_code := 0;
                        calls :=
                          updateCloudflareDnsRecord (cf w) (tmpl (zoneId env))
                            (tmpl (recordName env)) selectedServer |}
            | [] => Some {| exit_code := 0; calls := [] |}
            end
        end
    end.

End KmsSyncSocket.

(* ================================================================== *)
(** ** Fetching the candidates in the revision that chooses the record type *)
(* ================================================================== *)

(** [fetchKmsServersFromGithub] of the revision modelled in [KmsSyncRev],
    and its [main] run on what it returns. *)
Module KmsSyncRevFetch.

Import KmsSync.
Local Open Scope regex_scope.

(** [\S] *)
Definition is_nonspace (c : N) : bool := negb (is_space c).

(** [/(\S+:\d+)/g] *)
Definition hostport_re : regex :=
  Grp 1 (Plus (Cls is_nonspace) >> chr ":" >> Plus (Cls is_digit)).

(** [/kms\S*\.\S+/g] *)
Definition kmsname_re : regex :=
  str (lit "kms") >> Star (Cls is_nonspace) >> chr "." >> Plus (Cls is_nonspace).

Definition patterns : list regex := [hostport_re; kmsname_re].

(** [text.match(pattern)] for a global pattern: the texts of all matches,
    each search starting where the last match ended. The text of a match
    is read as group 0 around the pattern. [None] as in
    [KmsSync.exec_loop]; an empty list stands for [null]. *)
Fixpoint match_loop (fuel : nat) (r : regex) (z : cursor) (found : list jsstr)
    : option (list jsstr) :=
  match fuel with
  | O => None
  | S fuel' =>
      match regex_exec (Grp 0 r) z with
      | None => Some found
      | Some mt =>
          if length (after (m_end mt)) <? length (after z)
          then match_loop fuel' r (m_end mt) (found ++ [tmpl (m_groups mt 0)])
          else None
      end
  end.

Definition match_all (r : regex) (text : jsstr) : option (list jsstr) :=
  match_loop (S (length text)) r (start_of text) [].

(** The loop over the patterns: [kmsServers.push(...matches)]. *)
Definition push_matches (body : jsstr) (acc : option (list jsstr)) (pattern : regex)
    : option (list jsstr) :=
  match acc, match_all pattern body with
  | Some kmsServers, Some matches => Some (kmsServers ++ matches)
  | _, _ => None
  end.

(** [fetchKmsServersFromGithub]: whatever is thrown (by [fetch], by a
    response that is not ok, by [json()], by a body that is [null]) is
    caught and gives the empty list. *)
Definition fetchKmsServersFromGithub (issue : FetchResult) : option (list jsstr) :=
  match issue with
  | FetchThrows => Some []
  | FetchResponse false _ => Some []
  | FetchResponse true JsonThrows => Some []
  | FetchResponse true (JsonIssue None) => Some []
  | FetchResponse true (JsonIssue (Some body)) =>
      fold_left (push_matches body) patterns (Some [])
  end.

(** [main] from the fetch on. *)
Definition run (issue : FetchResult) (exec : nat -> jsstr -> ExecResult)
    (cf : KmsSyncRev.Cloudflare) : option Run :=
  match fetchKmsServersFromGithub issue with
  | Some fetched => Some (KmsSyncRev.main fetched exec cf)
  | None => None
  end.

End KmsSyncRevFetch.

(* ================================================================== *)
(** ** Notions used by the further properties *)
(* ================================================================== *)

Module Notions.

(** [sub] occurs in [s] up to the case of ASCII letters. *)
Definition includes_ci (s sub : jsstr) : bool :=
  includes (map canon s) (map canon sub).

(** One to three digits with a value up to 255. *)
Definition octet (p : jsstr) : bool :=
  (1 <=? length p) && (length p <=? 3) && forallb is_digit p &&
  (digits_value 0 p <=? 255)%Z.

(** The characters of a probe command that the shell reads as they are. *)
Definition plain_char (c : N) : bool := is_hostch c || N.eqb c (ch " ").

(** The check [main] of the revision makes on each part of a dotted
    quad: [parseInt] gives a number from 0 to 255. *)
Definition octet_check (part : jsstr) : bool :=
  let num := parseInt10 part in
  number_geb num 0 && number_leb num 255.

Definition quad (p1 p2 p3 p4 : jsstr) : jsstr :=
  p1 ++ lit "." ++ p2 ++ lit "." ++ p3 ++ lit "." ++ p4.

(** One to three digits. *)
Definition part_shape (p : jsstr) : Prop :=
  Forall (fun x => is_digit x = true) p /\ 1 <= length p <= 3.

(** [s] is a piece of [text]. *)
Definition occurs (s text : jsstr) : Prop := exists a b, text = a ++ s ++ b.

(** A server string that is in the text as it stands, or is a host of the
    text with the default port. *)
Definition taken_from (text server : jsstr) : Prop :=
  occurs server text \/
  exists host, server = host ++ lit ":1688" /\ host <> [] /\ occurs host text.

Definition nonspaceP (c : N) : Prop := KmsSyncRevFetch.is_nonspace c = true.

(** What [fetchKmsServersFromGithub] returns: something, a colon and
    digits, or the letters kms, something, a dot and something, all
    without white space. *)
Definition entry_shape (s : jsstr) : Prop :=
  (exists w d, s = w ++ lit ":" ++ d /\ w <> [] /\ Forall nonspaceP w /\
               d <> [] /\ Forall MatchRel.digitP d) \/
  (exists a b, s = lit "kms" ++ a ++ lit "." ++ b /\ Forall nonspaceP a /\
               b <> [] /\ Forall nonspaceP b).

End Notions.

(** A zone with a CNAME record and an A record of the same name. *)
Module ClientScenario.

Import KmsSyncSocket.

Definition two_records : CfLib :=
  {| user_read := true;
     zones_browse :=
       Some [ {| zone_id := lit "z1"; zone_name := lit "everyhub.top" |} ];
     records_browse :=
       Some [ {| rec_id := lit "r9"; rec_name := lit "kms.everyhub.top";
                 rec_type := lit "CNAME" |};
              {| rec_id := lit "r7"; rec_name := lit "kms.everyhub.top";
                 rec_type := lit "A" |} ] |}.

(** The record writes of the scenario [only_ip_world]: by main.js, and by
    the revision that chooses the record type. *)
Definition only_ip_request : KmsSync.Request :=
  {| KmsSync.method := lit "POST"; KmsSync.target := None;
     KmsSync.rtype := lit "CNAME"; KmsSync.name := lit "kms.everyhub.top";
     KmsSync.content := lit "140.246.142.164"; KmsSync.ttl := 120;
     KmsSync.proxied := false |}.

Definition only_ip_request_a : KmsSync.Request :=
  {| KmsSync.method := lit "POST"; KmsSync.target := None;
     KmsSync.rtype := lit "A"; KmsSync.name := lit "kms.everyhub.top";
     KmsSync.content := lit "140.246.142.164"; KmsSync.ttl := 120;
     KmsSync.proxied := false |}.

End ClientScenario.

(* ================================================================== *)
(** ** Properties *)
(* ================================================================== *)

Import KmsSync MatchRel ProbeView Scenarios Spec.
Local Open Scope regex_scope.

(* ------------------------------------------------------------------ *)
(** *** Strings, sets and character classes *)
(* ------------------------------------------------------------------ *)

Lemma str_eqb_eq a : forall b, str_eqb a b = true <-> a = b.
Proof.
  induction a as [|x a IH]; destruct b as [|y b]; simpl; split; intros H;
    try reflexivity; try discriminate.
  - apply andb_true_iff in H. destruct H as [H1 H2].
    apply N.eqb_eq in H1. apply IH in H2. congruence.
  - inversion H; subst. rewrite N.eqb_refl. simpl. apply IH. reflexivity.
Qed.

Lemma set_add_In s set x : In x (set_add s set) <-> x = s \/ In x set.
Proof.
  unfold set_add. destruct (existsb (str_eqb s) set) eqn:E.
  - split; [auto|]. intros [->|H]; [|exact H].
    apply existsb_exists in E. destruct E as (y & Hy & Heq).
    apply str_eqb_eq in Heq. subst y. exact Hy.
  - rewrite in_app_iff. simpl. split.
    + intros [H|[H|[]]]; auto.
    + intros [H|H]; auto.
Qed.

Lemma forallb_Forall (p : N -> bool) l :
  forallb p l = true -> Forall (fun x => p x = true) l.
Proof. intros H. apply Forall_forall. apply forallb_forall. exact H. Qed.

Lemma existsb_false_In {A} (f : A -> bool) l x :
  existsb f l = false -> In x l -> f x = false.
Proof.
  intros H Hx. apply not_true_is_false. intros Hf.
  assert (existsb f l = true) by (apply existsb_exists; eauto). congruence.
Qed.

Lemma nonempty_length (w : jsstr) : 1 <= length w -> w <> [].
Proof. destruct w; simpl; [lia | discriminate]. Qed.

Lemma digit_hostch c : is_digit c = true -> is_hostch c = true.
Proof.
  unfold is_hostch, is_alnum, is_digit. intros ->.
  rewrite !orb_true_r. reflexivity.
Qed.

Lemma alnum_hostch c : is_alnum c = true -> is_hostch c = true.
Proof. unfold is_hostch. intros ->. reflexivity. Qed.

Lemma dot_hostch c : N.eqb (ch ".") c = true -> is_hostch c = true.
Proof.
  intros H. apply N.eqb_eq in H. subst c. reflexivity.
Qed.

Lemma hostch_not_space c : is_hostch c = true -> is_space c = false.
Proof.
  unfold is_hostch, is_alnum, in_range, is_space, ch. cbn [existsb N_of_ascii N_of_digits].
  intros H. apply not_true_is_false. intros S. revert H S.
  rewrite !orb_true_iff, !andb_true_iff, !N.leb_le, !N.eqb_eq. simpl. lia.
Qed.

Lemma includes_colon_false h :
  Forall hostP h -> includes h (lit ":") = false.
Proof.
  induction 1 as [|x h Hx Hh IH]; [reflexivity|].
  change (includes (x :: h) (lit ":")) with
    ((N.eqb (ch ":") x && true) || includes h (lit ":")).
  rewrite IH, andb_true_r, orb_false_r.
  destruct (N.eqb (ch ":") x) eqn:E; [|reflexivity].
  apply N.eqb_eq in E. subst x. discriminate Hx.
Qed.

Lemma includes_colon_true h d : includes (h ++ lit ":" ++ d) (lit ":") = true.
Proof.
  induction h as [|x h IH].
  - reflexivity.
  - change (includes ((x :: h) ++ lit ":" ++ d) (lit ":")) with
      ((N.eqb (ch ":") x && true) || includes (h ++ lit ":" ++ d) (lit ":")).
    rewrite IH. apply orb_true_r.
Qed.

Lemma includes_app_r p1 : forall p2 sub,
  includes (p1 ++ p2) sub = false -> includes p2 sub = false.
Proof.
  induction p1 as [|x p1 IH]; intros p2 sub H; [exact H|].
  cbn [app includes] in H. apply orb_false_iff in H. destruct H as [_ H].
  apply IH. exact H.
Qed.

Lemma includes_head s sub : includes s sub = false -> startsWith sub s = false.
Proof.
  destruct s; cbn [includes]; intros H; apply orb_false_iff in H; tauto.
Qed.

Lemma default_port_digits : Forall digitP (lit "1688").
Proof. repeat constructor. Qed.

Lemma last_app_nonempty {A} (a b : list A) d : b <> [] -> last (a ++ b) d = last b d.
Proof.
  intros Hb. induction a as [|x a IH]; [reflexivity|].
  cbn [app]. destruct (a ++ b) eqn:E.
  - destruct a; [cbn in E; congruence | discriminate E].
  - cbn [last]. exact IH.
Qed.

Lemma Forall_last {A} (P : A -> Prop) l d : Forall P l -> l <> [] -> P (last l d).
Proof.
  induction 1 as [|x l Hx Hl IH]; intros Hne; [congruence|].
  destruct l as [|y l]; [exact Hx|]. apply IH. discriminate.
Qed.

Lemma Forall2_last {A B} (Q : A -> B -> Prop) w ext d d' :
  Forall2 Q w ext -> ext <> [] -> w <> [] /\ Q (last w d) (last ext d').
Proof.
  induction 1 as [|x e w ext Hx Hw IH]; intros Hne; [congruence|].
  split; [discriminate|].
  destruct Hw as [|y e' w ext Hy Hw]; [exact Hx|].
  apply IH. discriminate.
Qed.

Lemma digit_canon x : is_digit x = true -> canon x = x.
Proof.
  unfold canon, is_digit, in_range, ch. cbn [N_of_ascii N_of_digits].
  rewrite andb_true_iff, !N.leb_le. simpl. intros [H1 H2].
  destruct (_ && _) eqn:E; [|reflexivity].
  apply andb_true_iff in E. rewrite !N.leb_le in E. lia.
Qed.

(* ------------------------------------------------------------------ *)
(** *** The matcher only finds matches *)
(* ------------------------------------------------------------------ *)

Section Soundness.
Context {R : Type}.

Lemma star_loop_sound (a : regex)
  (IHa : forall z c (k : cursor -> caps -> option R) res,
      m a z c k = Some res ->
      exists z' c', Match a z c z' c' /\ k z' c' = Some res) :
  forall fuel z c (k : cursor -> caps -> option R) res,
    star_loop (m a) k fuel z c = Some res ->
    exists z' c', Match (Star a) z c z' c' /\ k z' c' = Some res.
Proof.
  induction fuel as [|fuel IH]; intros z c k res H; simpl in H.
  - exists z, c. split; [constructor | exact H].
  - destruct (m a z c _) as [r0|] eqn:E.
    + inversion H; subst r0; clear H.
      apply IHa in E. destruct E as (z1 & c1 & Ha & Hk).
      destruct (length (after z1) <? length (after z)); [|discriminate].
      apply IH in Hk. destruct Hk as (z2 & c2 & Hs & Hk).
      exists z2, c2. split; [econstructor; eauto | exact Hk].
    + exists z, c. split; [constructor | exact H].
Qed.

Lemma m_sound (r : regex) :
  forall z c (k : cursor -> caps -> option R) res,
    m r z c k = Some res ->
    exists z' c', Match r z c z' c' /\ k z' c' = Some res.
Proof.
  induction r; intros z c k res H; simpl in H.
  - eauto using Match.
  - destruct z as [bef aft]; simpl in H. destruct aft as [|x rest]; [discriminate|].
    destruct (p x) eqn:Px; [|discriminate].
    eexists _, _. split; [constructor; exact Px | exact H].
  - apply IHr1 in H. destruct H as (z1 & c1 & H1 & H).
    apply IHr2 in H. destruct H as (z2 & c2 & H2 & H).
    eauto using Match.
  - destruct (m r1 z c k) eqn:E.
    + inversion H; subst. apply IHr1 in E. destruct E as (z1 & c1 & H1 & Hk).
      eauto using Match.
    + apply IHr2 in H. destruct H as (z1 & c1 & H1 & Hk). eauto using Match.
  - eapply star_loop_sound; eauto.
  - apply IHr in H. destruct H as (z1 & c1 & H1 & Hk). eauto using Match.
  - destruct (is_boundary z) eqn:E; [|discriminate]. eauto using Match.
  - destruct (before z) eqn:E; [|discriminate]. eauto using Match.
  - destruct (after z) eqn:E; [|discriminate]. eauto using Match.
Qed.
End Soundness.

Lemma moved_refl z : moved z [] z.
Proof. split; reflexivity. Qed.

Lemma moved_trans z w1 z1 w2 z2 :
  moved z w1 z1 -> moved z1 w2 z2 -> moved z (w1 ++ w2) z2.
Proof.
  intros [A1 B1] [A2 B2]. split.
  - rewrite A1, A2, app_assoc. reflexivity.
  - rewrite B2, B1, rev_app_distr, app_assoc. reflexivity.
Qed.

Lemma Match_moved r z c z' c' :
  Match r z c z' c' -> exists w, moved z w z' /\ minlen r <= length w.
Proof.
  induction 1; simpl; try (exists []; split; [apply moved_refl | simpl; lia]).
  - exists [x]. split; [split; reflexivity | simpl; lia].
  - destruct IHMatch1 as (w1 & M1 & L1), IHMatch2 as (w2 & M2 & L2).
    exists (w1 ++ w2). split; [eapply moved_trans; eauto | rewrite length_app; lia].
  - destruct IHMatch as (w & M & L). exists w. split; [exact M | lia].
  - destruct IHMatch as (w & M & L). exists w. split; [exact M | lia].
  - destruct IHMatch1 as (w1 & M1 & L1), IHMatch2 as (w2 & M2 & L2).
    exists (w1 ++ w2). split; [eapply moved_trans; eauto | lia].
  - exact IHMatch.
Qed.

Lemma moved_between z w z' : moved z w z' -> between z z' = w.
Proof.
  intros [A _]. unfold between. rewrite A, length_app.
  replace (length w + length (after z') - length (after z')) with (length w) by lia.
  rewrite firstn_app, firstn_all, Nat.sub_diag. simpl. apply app_nil_r.
Qed.

Lemma moved_inj z w1 w2 z' : moved z w1 z' -> moved z w2 z' -> w1 = w2.
Proof.
  intros H1 H2. rewrite <- (moved_between _ _ _ H1). apply moved_between; exact H2.
Qed.

Lemma Match_chars P r z c z' c' :
  chars_within P r -> Match r z c z' c' ->
  forall w, moved z w z' -> Forall P w.
Proof.
  intros Hc HM. revert Hc.
  induction HM; simpl; intros Hc w Hw;
    try (rewrite (moved_inj _ _ _ _ Hw (moved_refl _)); constructor).
  - assert (E : w = [x]) by (eapply moved_inj; [exact Hw | split; reflexivity]).
    subst w. constructor; [auto | constructor].
  - destruct (Match_moved _ _ _ _ _ HM1) as (w1 & M1 & _).
    destruct (Match_moved _ _ _ _ _ HM2) as (w2 & M2 & _).
    rewrite (moved_inj _ _ _ _ Hw (moved_trans _ _ _ _ _ M1 M2)).
    apply Forall_app. split; [apply IHHM1 | apply IHHM2]; tauto.
  - apply IHHM; tauto.
  - apply IHHM; tauto.
  - destruct (Match_moved _ _ _ _ _ HM1) as (w1 & M1 & _).
    destruct (Match_moved _ _ _ _ _ HM2) as (w2 & M2 & _).
    rewrite (moved_inj _ _ _ _ Hw (moved_trans _ _ _ _ _ M1 M2)).
    apply Forall_app. split; [apply IHHM1 | apply IHHM2]; tauto.
  - apply IHHM; tauto.
Qed.

Lemma Match_no_group r z c z' c' :
  no_group r -> Match r z c z' c' -> c' = c.
Proof.
  intros Hg HM. revert Hg. induction HM; simpl; intros Hg; try reflexivity; try tauto.
  - rewrite IHHM2, IHHM1; tauto.
  - rewrite IHHM2, IHHM1; tauto.
Qed.

Lemma search_sound r aft :
  forall bef res, search r bef aft = Some res ->
    exists pre rest, aft = pre ++ rest /\
      Match r {| before := rev pre ++ bef; after := rest |} no_caps
              (m_end res) (m_groups res).
Proof.
  induction aft as [|x aft IH]; intros bef res H; simpl in H.
  - destruct (match_at r _) as [r0|] eqn:E; [|discriminate].
    inversion H; subst r0; clear H. unfold match_at in E.
    apply m_sound in E. destruct E as (z' & c' & HM & Hk).
    inversion Hk; subst res; simpl. exists [], []. split; [reflexivity | exact HM].
  - destruct (match_at r _) as [r0|] eqn:E.
    + inversion H; subst r0; clear H. unfold match_at in E.
      apply m_sound in E. destruct E as (z' & c' & HM & Hk).
      inversion Hk; subst res; simpl. exists [], (x :: aft). split; [reflexivity | exact HM].
    + apply IH in H. destruct H as (pre & rest & -> & HM).
      exists (x :: pre), rest. split; [reflexivity|].
      simpl. rewrite <- app_assoc. exact HM.
Qed.

Lemma regex_exec_sound r z res :
  regex_exec r z = Some res ->
  exists pre rest w, after z = pre ++ rest /\
    Match r {| before := rev pre ++ before z; after := rest |} no_caps
            (m_end res) (m_groups res) /\
    moved {| before := rev pre ++ before z; after := rest |} w (m_end res) /\
    minlen r <= length w.
Proof.
  unfold regex_exec. intros H. apply search_sound in H.
  destruct H as (pre & rest & E & HM).
  destruct (Match_moved _ _ _ _ _ HM) as (w & Mw & L).
  exists pre, rest, w. auto.
Qed.

Lemma regex_exec_progress r z res :
  1 <= minlen r -> regex_exec r z = Some res ->
  length (after (m_end res)) < length (after z).
Proof.
  intros Hmin H. apply regex_exec_sound in H.
  destruct H as (pre & rest & w & E & _ & [A _] & L).
  simpl in A. rewrite E, A, !length_app. lia.
Qed.

(* ---------- shapes ---------- *)

Lemma Match_Seq_inv a b z c z2 c2 :
  Match (a >> b) z c z2 c2 ->
  exists z1 c1, Match a z c z1 c1 /\ Match b z1 c1 z2 c2.
Proof. intros H. inversion H; subst. eauto. Qed.

Lemma Match_Alt_inv a b z c z' c' :
  Match (Alt a b) z c z' c' -> Match a z c z' c' \/ Match b z c z' c'.
Proof. intros H. inversion H; subst; auto. Qed.

Lemma Match_Grp_inv n a z c z' c' :
  Match (Grp n a) z c z' c' ->
  exists c1, Match a z c z' c1 /\ c' = set_cap n (between z z') c1.
Proof. intros H. inversion H; subst. eauto. Qed.

Lemma Match_Cls_inv p z c z' c' :
  Match (Cls p) z c z' c' ->
  exists x, p x = true /\ moved z [x] z' /\ c' = c.
Proof.
  intros H. inversion H; subst. exists x. repeat split; auto.
Qed.

Lemma Match_Eps_inv z c z' c' : Match Eps z c z' c' -> z' = z /\ c' = c.
Proof. intros H. inversion H; subst. auto. Qed.

Lemma Match_WordB_inv z c z' c' : Match WordB z c z' c' -> z' = z /\ c' = c.
Proof. intros H. inversion H; subst. auto. Qed.

Lemma Match_Eos_inv z c z' c' :
  Match Eos z c z' c' -> z' = z /\ c' = c /\ after z = [].
Proof. intros H. inversion H; subst. auto. Qed.

Lemma Match_stri ext : forall z c z' c',
  Match (stri ext) z c z' c' ->
  exists w, moved z w z' /\ Forall2 (fun x e => canon x = canon e) w ext.
Proof.
  induction ext as [|e ext IH]; intros z c z' c' H.
  - apply Match_Eps_inv in H. destruct H as [-> _].
    exists []. split; [apply moved_refl | constructor].
  - change (stri (e :: ext)) with (chri e >> stri ext) in H.
    apply Match_Seq_inv in H. destruct H as (z1 & c1 & H1 & H2).
    apply Match_Cls_inv in H1. destruct H1 as (x & Hx & Mx & _).
    apply IH in H2. destruct H2 as (w & Mw & Fw).
    exists (x :: w). split.
    + apply (moved_trans _ [x] z1); assumption.
    + constructor; [apply N.eqb_eq; exact Hx | exact Fw].
Qed.

Lemma Match_plain (P : N -> Prop) r z c z' c' :
  no_group r -> chars_within P r -> Match r z c z' c' ->
  c' = c /\ exists w, moved z w z' /\ Forall P w /\ minlen r <= length w.
Proof.
  intros Hg Hc HM. split; [eapply Match_no_group; eauto|].
  destruct (Match_moved _ _ _ _ _ HM) as (w & Mw & L).
  exists w. repeat split; try apply Mw; [|exact L].
  eapply Match_chars; eauto.
Qed.

Lemma Match_peel a b z c z' c' :
  no_group a -> Match (a >> b) z c z' c' -> exists z1, Match b z1 c z' c'.
Proof.
  intros Hg H. apply Match_Seq_inv in H. destruct H as (z1 & c1 & Ha & Hb).
  apply Match_no_group in Ha; [|exact Hg]. subst c1. eauto.
Qed.

(* ------------------------------------------------------------------ *)
(** *** The groups of the four patterns *)
(* ------------------------------------------------------------------ *)

Lemma chars_domain_re : chars_within hostP domain_re.
Proof.
  unfold hostP. simpl. repeat split; intros x Hx;
    auto using alnum_hostch, dot_hostch.
Qed.

Lemma chars_ipv4_re : chars_within hostP ipv4_re.
Proof.
  unfold hostP. simpl. repeat split; intros x Hx;
    auto using digit_hostch, dot_hostch.
Qed.

Lemma chars_plus_digit : chars_within digitP (Plus (Cls is_digit)).
Proof. unfold digitP. simpl. auto. Qed.

Lemma chars_plus_hostch : chars_within hostP (Plus (Cls is_hostch)).
Proof. unfold hostP. simpl. auto. Qed.

(** Groups after [(host)(?::(\d+))?\b] *)
Lemma groups_port_group2 hostre z z' c' :
  no_group hostre -> chars_within hostP hostre -> 1 <= minlen hostre ->
  Match (WordB >> Grp 1 hostre >> port_group2 >> WordB) z no_caps z' c' ->
  exists h, c' 1 = Some h /\ h <> [] /\ Forall hostP h /\
    (c' 2 = None \/ exists d, c' 2 = Some d /\ d <> [] /\ Forall digitP d).
Proof.
  intros Hg Hc Hmin H.
  apply Match_Seq_inv in H. destruct H as (z1 & c1 & Hb & H).
  apply Match_WordB_inv in Hb. destruct Hb as [-> ->].
  apply Match_Seq_inv in H. destruct H as (z2 & c2 & H1 & H).
  apply Match_Grp_inv in H1. destruct H1 as (c1 & H1 & ->).
  destruct (Match_plain hostP _ _ _ _ _ Hg Hc H1) as (-> & h & Mh & Fh & Lh).
  rewrite (moved_between _ _ _ Mh) in H.
  apply Match_Seq_inv in H. destruct H as (z3 & c3 & H2 & Hb).
  apply Match_WordB_inv in Hb. destruct Hb as [-> ->].
  exists h. unfold port_group2, Opt in H2.
  apply Match_Alt_inv in H2. destruct H2 as [H2|H2].
  - apply Match_Seq_inv in H2. destruct H2 as (z4 & c4 & Hcolon & H2).
    apply Match_Cls_inv in Hcolon. destruct Hcolon as (x & _ & _ & ->).
    apply Match_Grp_inv in H2. destruct H2 as (c5 & H2 & ->).
    destruct (Match_plain digitP (Plus (Cls is_digit)) _ _ _ _ (conj I I) chars_plus_digit H2)
      as (-> & d & Md & Fd & Ld).
    rewrite (moved_between _ _ _ Md).
    repeat split; [apply nonempty_length; lia | exact Fh |].
    right. exists d. repeat split; [apply nonempty_length; exact Ld | exact Fd].
  - apply Match_Eps_inv in H2. destruct H2 as [-> ->].
    repeat split; [apply nonempty_length; lia | exact Fh |]. left. reflexivity.
Qed.

(** Groups after [(host(?::\d+)?)] *)
Lemma groups_port_inline hostre z z' c' :
  no_group hostre -> chars_within hostP hostre -> 1 <= minlen hostre ->
  Match (Grp 1 (hostre >> port_inline)) z no_caps z' c' ->
  c' 2 = None /\
  exists h, h <> [] /\ Forall hostP h /\
    (c' 1 = Some h \/
     exists d, c' 1 = Some (h ++ lit ":" ++ d) /\ d <> [] /\ Forall digitP d).
Proof.
  intros Hg Hc Hmin H.
  apply Match_Grp_inv in H. destruct H as (c1 & H & ->).
  assert (Hng : no_group (hostre >> port_inline)) by (simpl; tauto).
  pose proof (Match_no_group _ _ _ _ _ Hng H) as ->.
  split; [reflexivity|].
  destruct (Match_moved _ _ _ _ _ H) as (w & Mw & _).
  rewrite (moved_between _ _ _ Mw).
  apply Match_Seq_inv in H. destruct H as (z1 & c1 & H1 & H2).
  destruct (Match_plain hostP _ _ _ _ _ Hg Hc H1) as (-> & h & Mh & Fh & Lh).
  exists h. split; [apply nonempty_length; lia|]. split; [exact Fh|].
  unfold port_inline, Opt in H2.
  apply Match_Alt_inv in H2. destruct H2 as [H2|H2].
  - right. apply Match_Seq_inv in H2. destruct H2 as (z4 & c4 & Hcolon & H2).
    apply Match_Cls_inv in Hcolon. destruct Hcolon as (x & Hx & Mx & ->).
    apply N.eqb_eq in Hx. subst x.
    destruct (Match_plain digitP (Plus (Cls is_digit)) _ _ _ _ (conj I I) chars_plus_digit H2)
      as (_ & d & Md & Fd & Ld).
    exists d. split; [|split; [apply nonempty_length; exact Ld | exact Fd]].
    cbv [set_cap Nat.eqb]. f_equal. eapply moved_inj; [exact Mw|].
    eapply moved_trans; [exact Mh|]. eapply (moved_trans _ [ch ":"]); eauto.
  - left. apply Match_Eps_inv in H2. destruct H2 as [-> _].
    cbv [set_cap Nat.eqb]. f_equal. eapply moved_inj; eauto.
Qed.

Lemma shape_of_group2 pat mt h :
  m_groups mt 1 = Some h -> h <> [] -> Forall hostP h ->
  (m_groups mt 2 = None \/
   exists d, m_groups mt 2 = Some d /\ d <> [] /\ Forall digitP d) ->
  endpoint_shape (server_of_match pat mt).
Proof.
  intros E1 Hne Fh E2. unfold server_of_match; cbv zeta. rewrite E1.
  destruct E2 as [E2|(d & E2 & Hd & Fd)]; rewrite E2.
  - assert (S : endpoint_shape (h ++ lit ":1688")).
    { exists h, (lit "1688"). repeat split; auto using default_port_digits.
      discriminate. }
    cbn [truthy tmpl]. rewrite (includes_colon_false h Fh).
    destruct (includes (source pat) _); exact S.
  - assert (S : endpoint_shape (h ++ lit ":" ++ d)).
    { exists h, d. repeat split; auto. }
    replace (truthy (Some d)) with true by (destruct d; [congruence | reflexivity]).
    cbn [tmpl].
    destruct (includes (source pat) _); exact S.
Qed.

Lemma shape_of_inline pat mt h :
  includes (source pat) (lit "\d{1,3}\.\d{1,3}") = false ->
  m_groups mt 2 = None -> h <> [] -> Forall hostP h ->
  (m_groups mt 1 = Some h \/
   exists d, m_groups mt 1 = Some (h ++ lit ":" ++ d) /\ d <> [] /\ Forall digitP d) ->
  endpoint_shape (server_of_match pat mt).
Proof.
  intros Es E2 Hne Fh E1. unfold server_of_match; cbv zeta. rewrite Es, E2. cbn [truthy].
  destruct E1 as [E1|(d & E1 & Hd & Fd)]; rewrite E1; cbn [tmpl].
  - rewrite (includes_colon_false h Fh).
    exists h, (lit "1688"). repeat split; auto using default_port_digits.
    discriminate.
  - rewrite includes_colon_true. exists h, d. repeat split; auto.
Qed.

Lemma regexPatterns_shape pat z mt :
  In pat regexPatterns ->
  regex_exec (program pat) z = Some mt ->
  endpoint_shape (server_of_match pat mt).
Proof.
  intros Hin H. apply regex_exec_sound in H.
  destruct H as (pre & rest & w & _ & HM & _ & _).
  destruct Hin as [<-|[<-|[<-|[<-|[]]]]]; cbn [program label_pattern domain_pattern
    ip_pattern server_pattern] in HM.
  - (* label *)
    do 4 (apply Match_peel in HM; [destruct HM as (? & HM) | simpl; tauto]).
    apply (groups_port_inline (Plus (Cls is_hostch))) in HM;
      [| simpl; tauto | exact chars_plus_hostch | simpl; lia].
    destruct HM as (E2 & h & Hne & Fh & E1).
    eapply shape_of_inline; eauto.
  - (* domain *)
    apply groups_port_group2 in HM;
      [| simpl; tauto | exact chars_domain_re | simpl; lia].
    destruct HM as (h & E1 & Hne & Fh & E2). eapply shape_of_group2; eauto.
  - (* ip *)
    apply groups_port_group2 in HM;
      [| simpl; tauto | exact chars_ipv4_re | simpl; lia].
    destruct HM as (h & E1 & Hne & Fh & E2). eapply shape_of_group2; eauto.
  - (* server *)
    do 2 (apply Match_peel in HM; [destruct HM as (? & HM) | simpl; tauto]).
    apply (groups_port_inline domain_re) in HM;
      [| simpl; tauto | exact chars_domain_re | simpl; lia].
    destruct HM as (E2 & h & Hne & Fh & E1).
    eapply shape_of_inline; eauto.
Qed.

Lemma group1_defined pat z mt :
  In pat regexPatterns ->
  regex_exec (program pat) z = Some mt ->
  exists s, m_groups mt 1 = Some s.
Proof.
  intros Hin H. apply regex_exec_sound in H.
  destruct H as (pre & rest & w & _ & HM & _ & _).
  destruct Hin as [<-|[<-|[<-|[<-|[]]]]]; cbn [program label_pattern domain_pattern
    ip_pattern server_pattern] in HM.
  - do 4 (apply Match_peel in HM; [destruct HM as (? & HM) | simpl; tauto]).
    apply (groups_port_inline (Plus (Cls is_hostch))) in HM;
      [| simpl; tauto | exact chars_plus_hostch | simpl; lia].
    destruct HM as (_ & h & _ & _ & [E1|(d & E1 & _)]); eauto.
  - apply groups_port_group2 in HM;
      [| simpl; tauto | exact chars_domain_re | simpl; lia].
    destruct HM as (h & E1 & _). eauto.
  - apply groups_port_group2 in HM;
      [| simpl; tauto | exact chars_ipv4_re | simpl; lia].
    destruct HM as (h & E1 & _). eauto.
  - do 2 (apply Match_peel in HM; [destruct HM as (? & HM) | simpl; tauto]).
    apply (groups_port_inline domain_re) in HM;
      [| simpl; tauto | exact chars_domain_re | simpl; lia].
    destruct HM as (_ & h & _ & _ & [E1|(d & E1 & _)]); eauto.
Qed.

Lemma regexPatterns_minlen pat : In pat regexPatterns -> 1 <= minlen (program pat).
Proof.
  intros [<-|[<-|[<-|[<-|[]]]]]; vm_compute; lia.
Qed.

Lemma split_not_nil sep s : split sep s <> [].
Proof.
  destruct s as [|c s]; cbn [split]; [discriminate|].
  destruct (N.eqb c sep); [discriminate|].
  destruct (split sep s); discriminate.
Qed.

Lemma split_one sep s : forall p, split sep s = [p] -> s = p.
Proof.
  induction s as [|c s IH]; intros p H; cbn [split] in H.
  - congruence.
  - destruct (N.eqb c sep).
    + inversion H as [[Hp Hs]]. destruct (split_not_nil _ _ Hs).
    + destruct (split sep s) as [|q qs] eqn:E.
      * destruct (split_not_nil _ _ E).
      * inversion H; subst. rewrite (IH q eq_refl). reflexivity.
Qed.

Lemma split_two sep s : forall h p, split sep s = [h; p] -> s = h ++ sep :: p.
Proof.
  induction s as [|c s IH]; intros h p H; cbn [split] in H.
  - discriminate.
  - destruct (N.eqb c sep) eqn:C.
    + inversion H; subst. apply N.eqb_eq in C. subst c.
      rewrite (split_one sep s p) by assumption. reflexivity.
    + destruct (split sep s) as [|q qs] eqn:E.
      * destruct (split_not_nil _ _ E).
      * inversion H; subst. rewrite (IH q p eq_refl). reflexivity.
Qed.

Lemma has_shape_sound server : has_shape server = true -> endpoint_shape server.
Proof.
  unfold has_shape.
  destruct (split (ch ":") server) as [|host [|port [|]]] eqn:E; try discriminate.
  rewrite !andb_true_iff. intros (((Hh & Fh) & Hp) & Fp).
  exists host, port. split; [apply (split_two _ _ _ _ E)|].
  repeat split.
  - destruct host; [discriminate Hh | discriminate].
  - apply forallb_Forall. exact Fh.
  - destruct port; [discriminate Hp | discriminate].
  - apply forallb_Forall. exact Fp.
Qed.

Lemma specificServers_shape s : In s specificServers -> endpoint_shape s.
Proof.
  intros [<-|[<-|[<-|[]]]]; apply has_shape_sound; reflexivity.
Qed.

Lemma useFallbackKmsServers_shape s :
  In s useFallbackKmsServers -> endpoint_shape s.
Proof.
  intros H. apply has_shape_sound. unfold useFallbackKmsServers in H.
  cbn [In] in H. repeat (destruct H as [<-|H]; [reflexivity|]). destruct H.
Qed.

(* ------------------------------------------------------------------ *)
(** *** The loops of extractKmsServers *)
(* ------------------------------------------------------------------ *)

Lemma exec_loop_S fuel pat z servers :
  exec_loop (S fuel) pat z servers =
  match regex_exec (program pat) z with
  | None => Some servers
  | Some mt =>
      let server := server_of_match pat mt in
      let servers' :=
        if isLikelyKmsServer server then set_add server servers else servers in
      if length (after (m_end mt)) <? length (after z)
      then exec_loop fuel pat (m_end mt) servers'
      else None
  end.
Proof. reflexivity. Qed.

Lemma exec_loop_inv (P : jsstr -> Prop) pat :
  (forall z mt, regex_exec (program pat) z = Some mt ->
     isLikelyKmsServer (server_of_match pat mt) = true ->
     P (server_of_match pat mt)) ->
  forall fuel z servers out,
    exec_loop fuel pat z servers = Some out ->
    Forall P servers -> Forall P out.
Proof.
  intros HP. induction fuel as [|fuel IH]; intros z servers out H HF; simpl in H.
  - discriminate.
  - destruct (regex_exec (program pat) z) as [mt|] eqn:E.
    + destruct (length (after (m_end mt)) <? length (after z)); [|discriminate].
      apply IH in H; [exact H|].
      destruct (isLikelyKmsServer (server_of_match pat mt)) eqn:L; [|exact HF].
      apply Forall_forall. intros x Hx. apply set_add_In in Hx.
      destruct Hx as [->|Hx]; [eapply HP; eauto|].
      rewrite Forall_forall in HF. auto.
    + inversion H; subst. exact HF.
Qed.

Lemma exec_loop_incl pat :
  forall fuel z servers out,
    exec_loop fuel pat z servers = Some out -> incl servers out.
Proof.
  induction fuel as [|fuel IH]; intros z servers out H; simpl in H.
  - discriminate.
  - destruct (regex_exec (program pat) z) as [mt|] eqn:E.
    + destruct (length (after (m_end mt)) <? length (after z)); [|discriminate].
      apply IH in H. intros x Hx. apply H.
      destruct (isLikelyKmsServer _); [apply set_add_In; auto | exact Hx].
    + inversion H; subst. apply incl_refl.
Qed.

Lemma exec_loop_total pat :
  1 <= minlen (program pat) ->
  forall fuel z servers, length (after z) < fuel ->
    exists out, exec_loop fuel pat z servers = Some out.
Proof.
  intros Hmin. induction fuel as [|fuel IH]; intros z servers Hf; [lia|].
  simpl. destruct (regex_exec (program pat) z) as [mt|] eqn:E; [|eauto].
  pose proof (regex_exec_progress _ _ _ Hmin E) as Hp.
  apply Nat.ltb_lt in Hp as Hp'. rewrite Hp'. apply IH. lia.
Qed.

Lemma fold_patterns_none text pats :
  fold_left (pattern_step text) pats None = None.
Proof. induction pats; simpl; auto. Qed.

Lemma fold_patterns_cons text pat pats servers :
  fold_left (pattern_step text) (pat :: pats) (Some servers) =
  fold_left (pattern_step text) pats
    (exec_loop (S (length text)) pat (start_of text) servers).
Proof. reflexivity. Qed.

Lemma fold_patterns_total text pats :
  (forall pat, In pat pats -> 1 <= minlen (program pat)) ->
  forall servers, exists out,
    fold_left (pattern_step text) pats (Some servers) = Some out.
Proof.
  induction pats as [|pat pats IH]; intros Hmin servers; [simpl; eauto|].
  rewrite fold_patterns_cons.
  destruct (exec_loop_total pat (Hmin pat (or_introl eq_refl))
              (S (length text)) (start_of text) servers) as (out & E).
  { simpl. lia. }
  rewrite E. apply IH. intros p Hp. apply Hmin. right. exact Hp.
Qed.

Lemma fold_patterns_incl text pats :
  forall servers out,
    fold_left (pattern_step text) pats (Some servers) = Some out ->
    incl servers out.
Proof.
  induction pats as [|pat pats IH]; intros servers out H.
  - inversion H; subst. apply incl_refl.
  - rewrite fold_patterns_cons in H.
    destruct (exec_loop (S (length text)) pat (start_of text) servers) as [s1|] eqn:E.
    + apply exec_loop_incl in E. apply IH in H. eapply incl_tran; eauto.
    + rewrite fold_patterns_none in H. discriminate.
Qed.

Lemma fold_patterns_inv (P : jsstr -> Prop) text pats :
  (forall pat z mt, In pat pats ->
     regex_exec (program pat) z = Some mt ->
     isLikelyKmsServer (server_of_match pat mt) = true ->
     P (server_of_match pat mt)) ->
  forall servers out,
    fold_left (pattern_step text) pats (Some servers) = Some out ->
    Forall P servers -> Forall P out.
Proof.
  induction pats as [|pat pats IH]; intros HP servers out H HF.
  - inversion H; subst. exact HF.
  - rewrite fold_patterns_cons in H.
    destruct (exec_loop (S (length text)) pat (start_of text) servers) as [s1|] eqn:E.
    + eapply IH in H; [exact H | |].
      * intros p z mt Hp. apply HP. right. exact Hp.
      * eapply exec_loop_inv; [|exact E|exact HF].
        intros z mt. apply HP. left. reflexivity.
    + rewrite fold_patterns_none in H. discriminate.
Qed.

Lemma run_patterns_total text : exists out, run_patterns text = Some out.
Proof.
  apply (fold_patterns_total text regexPatterns).
  apply regexPatterns_minlen.
Qed.

Lemma add_specific_In text servers s x :
  In x (add_specific text servers s) ->
  In x servers \/ (x = s /\ includes text (hd [] (split (ch ":") s)) = true).
Proof.
  unfold add_specific. destruct (includes text _) eqn:E; [|auto].
  intros H. apply set_add_In in H. destruct H; auto.
Qed.

Lemma add_specific_keeps text servers s x :
  In x servers -> In x (add_specific text servers s).
Proof.
  unfold add_specific. destruct (includes text _); [|auto].
  intros H. apply set_add_In. auto.
Qed.

Lemma fold_specific_keeps text l :
  forall servers x, In x servers -> In x (fold_left (add_specific text) l servers).
Proof.
  induction l as [|s l IH]; simpl; intros servers x H; [exact H|].
  apply IH. apply add_specific_keeps. exact H.
Qed.

Lemma fold_specific_adds text l :
  forall servers s, In s l ->
    includes text (hd [] (split (ch ":") s)) = true ->
    In s (fold_left (add_specific text) l servers).
Proof.
  induction l as [|s0 l IH]; intros servers s H Hi; [contradiction|].
  cbn [fold_left]. destruct H as [->|H].
  - apply fold_specific_keeps. unfold add_specific. rewrite Hi.
    apply set_add_In. auto.
  - apply IH; assumption.
Qed.

Lemma fold_specific_from text l :
  forall servers x, In x (fold_left (add_specific text) l servers) ->
    In x servers \/ (In x l /\ includes text (hd [] (split (ch ":") x)) = true).
Proof.
  induction l as [|s l IH]; cbn [fold_left]; intros servers x H; [auto|].
  apply IH in H. destruct H as [H|[H Hi]]; [|right; split; [right|]; assumption].
  apply add_specific_In in H. destruct H as [H|[-> Hi]]; [auto|].
  right. split; [left; reflexivity | exact Hi].
Qed.

Theorem extractKmsServers_total text : exists out, extractKmsServers text = Some out.
Proof.
  unfold extractKmsServers. destruct (run_patterns_total text) as (out & ->). eauto.
Qed.

Lemma extractKmsServers_Some text out :
  extractKmsServers text = Some out ->
  exists servers,
    run_patterns text = Some servers /\
    out = fold_left (add_specific text) specificServers servers.
Proof.
  unfold extractKmsServers. destruct (run_patterns text) as [servers|]; [|discriminate].
  intros H. exists servers. split; [reflexivity | congruence].
Qed.

Lemma extracted_from text out s :
  extractKmsServers text = Some out -> In s out ->
  isLikelyKmsServer s = true \/
  (In s specificServers /\ includes text (hd [] (split (ch ":") s)) = true).
Proof.
  intros H Hs. apply extractKmsServers_Some in H. destruct H as (servers & E & ->).
  apply fold_specific_from in Hs. destruct Hs as [Hs|Hs]; [left | right; exact Hs].
  unfold run_patterns in E.
  eapply (fold_patterns_inv (fun s => isLikelyKmsServer s = true)) in E.
  - rewrite Forall_forall in E. apply E. exact Hs.
  - intros pat z mt _ _ L. exact L.
  - constructor.
Qed.

(* ------------------------------------------------------------------ *)
(** *** The label pattern on a well-formed token *)
(* ------------------------------------------------------------------ *)

Section Forward.
Context {R : Type}.
Implicit Types k : cursor -> caps -> option R.

Lemma m_Seq a b z c k :
  m (a >> b) z c k = m a z c (fun z' c' => m b z' c' k).
Proof. reflexivity. Qed.

Lemma m_Alt a b z c k :
  m (Alt a b) z c k =
  match m a z c k with
  | Some res => Some res
  | None => m b z c k
  end.
Proof. reflexivity. Qed.

Lemma m_Grp n a z c k :
  m (Grp n a) z c k = m a z c (fun z' c' => k z' (set_cap n (between z z') c')).
Proof. reflexivity. Qed.

Lemma m_Eps z c k : m Eps z c k = k z c.
Proof. reflexivity. Qed.

Lemma m_str s : forall bef rest c k,
  m (str s) {| before := bef; after := s ++ rest |} c k =
  k {| before := rev s ++ bef; after := rest |} c.
Proof.
  induction s as [|x s IH]; intros bef rest c k; [reflexivity|].
  cbn [str fold_right m app after before]. rewrite N.eqb_refl.
  change (fold_right (fun c r => Cls (N.eqb c) >> r) Eps s) with (str s).
  rewrite IH. cbn [rev]. rewrite <- app_assoc. reflexivity.
Qed.

Lemma m_str_fail s : forall bef aft c k,
  startsWith s aft = false ->
  m (str s) {| before := bef; after := aft |} c k = None.
Proof.
  induction s as [|x s IH]; intros bef aft c k H; [discriminate|].
  cbn [str fold_right m after before].
  change (fold_right (fun c r => Cls (N.eqb c) >> r) Eps s) with (str s).
  destruct aft as [|y aft]; [reflexivity|].
  cbn [startsWith] in H. destruct (N.eqb x y); [|reflexivity].
  apply IH. exact H.
Qed.

Lemma star_loop_S (body : cursor -> caps -> (cursor -> caps -> option R) -> option R)
    k fuel z c :
  star_loop body k (S fuel) z c =
  match body z c (fun z' c' =>
          if length (after z') <? length (after z)
          then star_loop body k fuel z' c' else None) with
  | Some res => Some res
  | None => k z c
  end.
Proof. reflexivity. Qed.

Lemma m_Cls_cons p x bef rest c k :
  m (Cls p) {| before := bef; after := x :: rest |} c k =
  if p x then k {| before := x :: bef; after := rest |} c else None.
Proof. reflexivity. Qed.

Lemma m_Cls_nil p bef c k :
  m (Cls p) {| before := bef; after := [] |} c k = None.
Proof. reflexivity. Qed.

Lemma star_cls_greedy p run : forall fuel bef rest c k res,
  Forall (fun x => p x = true) run -> stops p rest ->
  length run <= fuel ->
  k {| before := rev run ++ bef; after := rest |} c = Some res ->
  star_loop (m (Cls p)) k fuel {| before := bef; after := run ++ rest |} c = Some res.
Proof.
  induction run as [|x run IH]; intros fuel bef rest c k res Hrun Hstop Hf Hk.
  - destruct fuel as [|fuel]; [exact Hk|].
    rewrite star_loop_S. cbn [app]. destruct rest as [|y rest].
    + rewrite m_Cls_nil. exact Hk.
    + simpl in Hstop. rewrite m_Cls_cons, Hstop. exact Hk.
  - destruct fuel as [|fuel]; [simpl in Hf; lia|].
    inversion Hrun as [|? ? Hx Hrun']; subst.
    rewrite star_loop_S. cbn [app]. rewrite m_Cls_cons, Hx. cbn [after].
    replace (length (run ++ rest) <? length (x :: run ++ rest)) with true
      by (symmetry; apply Nat.ltb_lt; simpl; lia).
    rewrite (IH fuel (x :: bef) rest c k res); auto.
    + simpl in Hf. lia.
    + cbn [rev] in Hk. rewrite <- app_assoc in Hk. exact Hk.
Qed.

Lemma m_star_cls p run bef rest c k res :
  Forall (fun x => p x = true) run -> stops p rest ->
  k {| before := rev run ++ bef; after := rest |} c = Some res ->
  m (Star (Cls p)) {| before := bef; after := run ++ rest |} c k = Some res.
Proof.
  intros Hrun Hstop Hk. cbn [m after].
  apply star_cls_greedy; auto. rewrite length_app. lia.
Qed.

Lemma m_plus_cls p run bef rest c k res :
  run <> [] -> Forall (fun x => p x = true) run -> stops p rest ->
  k {| before := rev run ++ bef; after := rest |} c = Some res ->
  m (Plus (Cls p)) {| before := bef; after := run ++ rest |} c k = Some res.
Proof.
  intros Hne Hrun Hstop Hk. destruct run as [|x run]; [congruence|].
  inversion Hrun as [|? ? Hx Hrun']; subst.
  unfold Plus. cbn [m app after before]. rewrite Hx.
  apply star_cls_greedy; auto.
  - rewrite length_app. lia.
  - cbn [rev] in Hk. rewrite <- app_assoc in Hk. exact Hk.
Qed.

Lemma m_port_inline_some d bef rest c k res :
  d <> [] -> Forall (fun x => is_digit x = true) d -> stops is_digit rest ->
  k {| before := rev d ++ ch ":" :: bef; after := rest |} c = Some res ->
  m port_inline {| before := bef; after := ch ":" :: d ++ rest |} c k = Some res.
Proof.
  intros Hne Hd Hstop Hk. unfold port_inline, Opt, chr.
  rewrite m_Alt, m_Seq, m_Cls_cons, N.eqb_refl.
  rewrite (m_plus_cls is_digit d _ rest c k res); auto.
Qed.

Lemma m_port_inline_none aft bef c k :
  no_port_follows aft ->
  m port_inline {| before := bef; after := aft |} c k =
  k {| before := bef; after := aft |} c.
Proof.
  intros H. unfold port_inline, Opt, Plus, chr. rewrite m_Alt, m_Seq, m_Eps.
  destruct aft as [|x aft]; [reflexivity|].
  rewrite m_Cls_cons. cbn [no_port_follows] in H. rewrite (N.eqb_sym (ch ":") x).
  destruct (N.eqb x (ch ":")); [|reflexivity].
  rewrite m_Seq. destruct aft as [|y aft]; [reflexivity|].
  rewrite m_Cls_cons. cbn [andb] in H. rewrite H. reflexivity.
Qed.

End Forward.

Lemma search_unfold r bef aft :
  search r bef aft =
  match match_at r {| before := bef; after := aft |} with
  | Some res => Some res
  | None =>
      match aft with
      | [] => None
      | x :: rest => search r (x :: bef) rest
      end
  end.
Proof. destruct aft; reflexivity. Qed.

Lemma search_skip r pre : forall bef tail,
  (forall p1 p2, pre = p1 ++ p2 -> p2 <> [] ->
     match_at r {| before := rev p1 ++ bef; after := p2 ++ tail |} = None) ->
  search r bef (pre ++ tail) = search r (rev pre ++ bef) tail.
Proof.
  induction pre as [|x pre IH]; intros bef tail H; [reflexivity|].
  rewrite search_unfold.
  assert (H0 := H [] (x :: pre) eq_refl ltac:(discriminate)).
  cbn [rev app] in H0 |- *. rewrite H0. rewrite IH.
  - cbn [rev]. rewrite <- app_assoc. reflexivity.
  - intros p1 p2 E Hne. specialize (H (x :: p1) p2).
    cbn [rev] in H. rewrite <- app_assoc in H. apply H; [|exact Hne].
    rewrite E. reflexivity.
Qed.

Lemma between_eq z z' w : after z = w ++ after z' -> between z z' = w.
Proof.
  intros E. unfold between. rewrite E, length_app.
  replace (length w + length (after z') - length (after z')) with (length w) by lia.
  rewrite firstn_app, firstn_all, Nat.sub_diag. simpl. apply app_nil_r.
Qed.

Lemma label_tail_match ws1 ws2 host port post bef :
  forallb is_space ws1 = true -> forallb is_space ws2 = true ->
  host <> [] -> forallb is_hostch host = true ->
  match port with Some p => p <> [] /\ forallb is_digit p = true | None => True end ->
  ends_before {| t_label := []; t_ws1 := ws1; t_ws2 := ws2; t_host := host;
                 t_port := port |} post = true ->
  exists b',
    m (Star (Cls is_space) >> chr ":" >> Star (Cls is_space) >>
       Grp 1 (Plus (Cls is_hostch) >> port_inline))
      {| before := bef;
         after := ws1 ++ lit ":" ++ ws2 ++ host ++ port_suffix port ++ post |}
      no_caps (fun z' c' => Some {| m_end := z'; m_groups := c' |}) =
    Some {| m_end := {| before := b'; after := post |};
            m_groups := set_cap 1 (host ++ port_suffix port) no_caps |}.
Proof.
  intros Hw1 Hw2 Hne Hh Hp He.
  assert (Hsp : stops is_space (host ++ port_suffix port ++ post)).
  { destruct host as [|x host]; [congruence|]. cbn [app stops].
    apply hostch_not_space. cbn [forallb] in Hh.
    apply andb_true_iff in Hh. tauto. }
  destruct port as [p|]; cbn [port_suffix ends_before t_port] in *; eexists;
    (rewrite m_Seq; apply m_star_cls;
       [apply forallb_Forall; exact Hw1 | reflexivity |]);
    cbv beta; rewrite m_Seq; unfold chr at 1;
    cbn [lit list_ascii_of_string map app];
    rewrite m_Cls_cons, N.eqb_refl, m_Seq;
    (apply m_star_cls; [apply forallb_Forall; exact Hw2 | exact Hsp |]);
    cbv beta; rewrite m_Grp, m_Seq.
  - destruct Hp as [Hpne Hpd].
    apply m_plus_cls; [exact Hne | apply forallb_Forall; exact Hh | reflexivity |].
    apply m_port_inline_some; [exact Hpne | apply forallb_Forall; exact Hpd | |].
    { destruct post as [|y post]; [exact I|]. cbn [stops].
      apply negb_true_iff. exact He. }
    rewrite (between_eq _ _ (host ++ N_of_ascii ":" :: p));
      [reflexivity | cbn [after]; rewrite <- app_assoc; reflexivity].
  - apply m_plus_cls; [exact Hne | apply forallb_Forall; exact Hh | |].
    { destruct post as [|y post]; [exact I|]. cbn [stops].
      apply andb_true_iff in He. destruct He as [He _].
      apply negb_true_iff. exact He. }
    rewrite m_port_inline_none.
    + rewrite (between_eq _ _ host); [|reflexivity].
      rewrite app_nil_r. reflexivity.
    + destruct post as [|y post]; [exact I|]. cbn [no_port_follows].
      apply andb_true_iff in He. destruct He as [_ He].
      apply negb_true_iff. exact He.
Qed.

Lemma label_no_match bef aft :
  startsWith (lit "kms") aft = false -> startsWith (lit "KMS") aft = false ->
  match_at (program label_pattern) {| before := bef; after := aft |} = None.
Proof.
  intros H1 H2. unfold match_at. cbn [program label_pattern].
  rewrite m_Seq, m_Alt, (m_str_fail _ _ _ _ _ H1), (m_str_fail _ _ _ _ _ H2).
  reflexivity.
Qed.

Lemma label_match_at label ws1 ws2 host port post bef :
  label = lit "kms" \/ label = lit "KMS" ->
  forallb is_space ws1 = true -> forallb is_space ws2 = true ->
  host <> [] -> forallb is_hostch host = true ->
  match port with Some p => p <> [] /\ forallb is_digit p = true | None => True end ->
  ends_before {| t_label := []; t_ws1 := ws1; t_ws2 := ws2; t_host := host;
                 t_port := port |} post = true ->
  exists b',
    match_at (program label_pattern)
      {| before := bef;
         after := label ++ ws1 ++ lit ":" ++ ws2 ++ host ++ port_suffix port ++ post |} =
    Some {| m_end := {| before := b'; after := post |};
            m_groups := set_cap 1 (host ++ port_suffix port) no_caps |}.
Proof.
  intros Hl Hw1 Hw2 Hne Hh Hp He.
  unfold match_at. cbn [program label_pattern].
  destruct Hl as [-> | ->].
  - destruct (label_tail_match ws1 ws2 host port post (rev (lit "kms") ++ bef)
                Hw1 Hw2 Hne Hh Hp He) as (b' & E).
    exists b'. rewrite m_Seq, m_Alt, m_str. rewrite E. reflexivity.
  - destruct (label_tail_match ws1 ws2 host port post (rev (lit "KMS") ++ bef)
                Hw1 Hw2 Hne Hh Hp He) as (b' & E).
    exists b'. rewrite m_Seq, m_Alt.
    rewrite m_str_fail by reflexivity. rewrite m_str. rewrite E. reflexivity.
Qed.

(** A label that straddles the end of [pre] would need the letter m or s
    where the token has its k. *)
Lemma no_label_straddles L label pre rest :
  L = lit "kms" \/ L = lit "KMS" ->
  label = lit "kms" \/ label = lit "KMS" ->
  includes pre L = false ->
  forall p1 p2, pre = p1 ++ p2 -> p2 <> [] ->
    startsWith L (p2 ++ label ++ rest) = false.
Proof.
  intros HL Hl Hi p1 p2 E Hne. subst pre.
  apply includes_app_r in Hi. apply includes_head in Hi.
  destruct p2 as [|x [|y [|z p2]]]; [congruence | | |].
  - destruct HL as [-> | ->], Hl as [-> | ->]; cbn;
      rewrite ?andb_false_r; reflexivity.
  - destruct HL as [-> | ->], Hl as [-> | ->]; cbn;
      rewrite ?andb_false_r; reflexivity.
  - destruct HL as [-> | ->]; cbn in Hi |- *; exact Hi.
Qed.

Lemma marker_label :
  includes (source label_pattern) (lit "\d{1,3}\.\d{1,3}") = false.
Proof. vm_compute. reflexivity. Qed.

Lemma server_of_label_match host port z' :
  host <> [] -> forallb is_hostch host = true ->
  server_of_match label_pattern
    {| m_end := z'; m_groups := set_cap 1 (host ++ port_suffix port) no_caps |} =
  host ++ lit ":" ++ match port with Some p => p | None => lit "1688" end.
Proof.
  intros Hne Hh. unfold server_of_match; cbv zeta. rewrite marker_label.
  cbn [m_groups set_cap Nat.eqb no_caps truthy tmpl].
  destruct port as [p|]; cbn [port_suffix].
  - rewrite includes_colon_true. reflexivity.
  - rewrite app_nil_r.
    rewrite (includes_colon_false host) by (apply forallb_Forall; exact Hh).
    reflexivity.
Qed.

Lemma token_text_app t post :
  token_text t ++ post =
  t_label t ++ t_ws1 t ++ lit ":" ++ t_ws2 t ++ t_host t ++
  port_suffix (t_port t) ++ post.
Proof.
  unfold token_text. rewrite <- !app_assoc. reflexivity.
Qed.

Lemma well_formed_exact_parts t :
  well_formed_exact t = true ->
  (t_label t = lit "kms" \/ t_label t = lit "KMS") /\
  forallb is_space (t_ws1 t) = true /\ forallb is_space (t_ws2 t) = true /\
  t_host t <> [] /\ forallb is_hostch (t_host t) = true /\
  match t_port t with
  | Some p => p <> [] /\ forallb is_digit p = true
  | None => True
  end.
Proof.
  unfold well_formed_exact, well_formed_body.
  rewrite !andb_true_iff, orb_true_iff, !str_eqb_eq.
  intros (Hl & (((Hw1 & Hw2) & Hne) & Hh) & Hp).
  repeat split; auto.
  - destruct (t_host t); [discriminate Hne | discriminate].
  - destruct (t_port t) as [p|]; [|exact I].
    apply andb_true_iff in Hp. destruct Hp as [Hp1 Hp2].
    split; [destruct p; [discriminate Hp1 | discriminate] | exact Hp2].
Qed.

(* ------------------------------------------------------------------ *)
(** *** Extraction *)
(* ------------------------------------------------------------------ *)

Lemma search_found r aft : forall bef mt,
  search r bef aft = Some mt ->
  exists a b, aft = a ++ b /\
    search_start r bef aft = Some (length bef + length a) /\
    match_at r {| before := rev a ++ bef; after := b |} = Some mt /\
    (forall p1 p2, a = p1 ++ p2 -> p2 <> [] ->
       match_at r {| before := rev p1 ++ bef; after := p2 ++ b |} = None).
Proof.
  induction aft as [|x rest IH]; intros bef mt H.
  - cbn [search search_start] in *.
    destruct (match_at r {| before := bef; after := [] |}) as [res|] eqn:E;
      [|discriminate H].
    exists [], []. cbn [length app rev]. rewrite Nat.add_0_r.
    split; [reflexivity|]. split; [reflexivity|]. split; [congruence|].
    intros p1 p2 E12 Hne. destruct p1, p2; try discriminate E12. congruence.
  - rewrite search_unfold in H. cbn [search_start].
    destruct (match_at r {| before := bef; after := x :: rest |}) as [res|] eqn:E.
    + exists [], (x :: rest). cbn [length app rev]. rewrite Nat.add_0_r.
      split; [reflexivity|]. split; [reflexivity|]. split; [congruence|].
      intros p1 p2 E12 Hne. destruct p1, p2; try discriminate E12. congruence.
    + destruct (IH (x :: bef) mt H) as (a & b & -> & Hs & Hm & Hearlier).
      exists (x :: a), b. split; [reflexivity|]. split.
      { rewrite Hs. cbn [length]. f_equal. lia. }
      split.
      { cbn [rev]. rewrite <- app_assoc. exact Hm. }
      intros p1 p2 E12 Hne. destruct p1 as [|y p1].
      * cbn [app] in E12. subst p2. cbn [rev app]. exact E.
      * cbn [app] in E12. injection E12 as <- E12.
        cbn [rev]. rewrite <- app_assoc. apply Hearlier; assumption.
Qed.

Lemma search_none r aft : forall bef,
  search r bef aft = None ->
  forall a b, aft = a ++ b ->
    match_at r {| before := rev a ++ bef; after := b |} = None.
Proof.
  induction aft as [|x rest IH]; intros bef H a b E; rewrite search_unfold in H;
    destruct (match_at r {| before := bef; after := _ |}) as [res|] eqn:Em;
    try discriminate H.
  - destruct a, b; try discriminate E. exact Em.
  - destruct a as [|y a].
    + cbn [app] in E. subst b. exact Em.
    + cbn [app] in E. injection E as <- E.
      cbn [rev]. rewrite <- app_assoc. apply (IH _ H). exact E.
Qed.

Lemma match_at_moved r z mt :
  match_at r z = Some mt ->
  exists w, moved z w (m_end mt) /\ minlen r <= length w.
Proof.
  unfold match_at. intros H. apply m_sound in H.
  destruct H as (z' & c' & HM & Hk). injection Hk as <-.
  cbn [m_end]. apply Match_moved in HM. exact HM.
Qed.

Lemma token_label_match t post bef :
  well_formed_exact t = true -> ends_before t post = true ->
  exists b',
    match_at (program label_pattern)
      {| before := bef; after := token_text t ++ post |} =
    Some {| m_end := {| before := b'; after := post |};
            m_groups := set_cap 1 (t_host t ++ port_suffix (t_port t)) no_caps |}.
Proof.
  intros Hwf He.
  destruct (well_formed_exact_parts t Hwf) as (Hl & Hw1 & Hw2 & Hne & Hh & Hp).
  rewrite token_text_app.
  apply label_match_at; assumption.
Qed.

Lemma token_text_length t :
  well_formed_exact t = true -> 3 <= length (token_text t).
Proof.
  intros Hwf. destruct (well_formed_exact_parts t Hwf) as (Hl & _).
  unfold token_text. rewrite length_app. destruct Hl as [-> | ->]; simpl; lia.
Qed.

(** The scan of the label pattern, from a position at or before a
    well-formed token that lies outside the matches found on the way,
    arrives at the token and adds its server. *)
Lemma label_scan_finds t post :
  well_formed_exact t = true -> ends_before t post = true ->
  isLikelyKmsServer (token_server t) = true ->
  forall fuel bef p2 servers,
    length (p2 ++ token_text t ++ post) < fuel ->
    existsb (fun span => (fst span <? length bef + length p2) &&
                         (length bef + length p2 <? snd span))
      (scan_spans fuel (program label_pattern)
         {| before := bef; after := p2 ++ token_text t ++ post |}) = false ->
    exists out,
      exec_loop fuel label_pattern
        {| before := bef; after := p2 ++ token_text t ++ post |} servers = Some out /\
      In (token_server t) out.
Proof.
  intros Hwf He Hlikely.
  pose proof (well_formed_exact_parts t Hwf) as (Hl & Hw1 & Hw2 & Hne & Hh & Hp).
  pose proof (token_text_length t Hwf) as Hlen.
  set (tail := token_text t ++ post).
  assert (Htail : length post + 3 <= length tail)
    by (unfold tail; rewrite length_app; lia).
  assert (Hmin : 1 <= minlen (program label_pattern))
    by (apply regexPatterns_minlen; left; reflexivity).
  induction fuel as [|fuel IH]; intros bef p2 servers Hfuel Hspans; [lia|].
  rewrite exec_loop_S. cbn [scan_spans] in Hspans.
  unfold regex_exec in *. cbn [before after] in *.
  destruct (search (program label_pattern) bef (p2 ++ tail)) as [mt|] eqn:Es.
  - destruct (search_found _ _ _ _ Es) as (a & b & Hab & Hstart & Hm & Hearlier).
    rewrite Hstart in Hspans. cbn [existsb fst snd] in Hspans.
    apply orb_false_iff in Hspans. destruct Hspans as [Hfirst Hrest].
    assert (Token : match_at (program label_pattern)
                      {| before := rev p2 ++ bef; after := tail |} = Some mt ->
                    exists out,
                      (let server := server_of_match label_pattern mt in
                       let servers' :=
                         if isLikelyKmsServer server then set_add server servers
                         else servers in
                       if length (after (m_end mt)) <? length (p2 ++ tail)
                       then exec_loop fuel label_pattern (m_end mt) servers'
                       else None) = Some out /\ In (token_server t) out).
    { intros Hm'.
      destruct (token_label_match t post (rev p2 ++ bef) Hwf He) as (b' & Ht).
      fold tail in Ht. rewrite Ht in Hm'. injection Hm' as <-.
      cbv zeta. rewrite server_of_label_match by assumption.
      change (t_host t ++ lit ":" ++
              match t_port t with Some p => p | None => lit "1688" end)
        with (token_server t).
      rewrite Hlikely. cbn [m_end after].
      assert (L : length post < length (p2 ++ tail)) by (rewrite length_app; lia).
      apply Nat.ltb_lt in L as L'. rewrite L'.
      destruct (exec_loop_total label_pattern Hmin fuel
                  {| before := b'; after := post |}
                  (set_add (token_server t) servers)) as (out & E);
        [cbn [after]; lia|].
      exists out. split; [exact E|].
      apply (exec_loop_incl _ _ _ _ _ E). apply set_add_In. left. reflexivity. }
    apply app_eq_app in Hab. destruct Hab as (l & [[E1 E2] | [E1 E2]]).
    + destruct l as [|y l].
      * rewrite app_nil_r in E1. cbn [app] in E2. subst a b. apply Token. exact Hm.
      * (* the match begins before the token *)
        destruct (match_at_moved _ _ _ Hm) as (w & [Ha Hb] & Hw).
        cbn [before after] in Ha, Hb.
        pose proof (regex_exec_progress (program label_pattern)
                      {| before := bef; after := p2 ++ tail |} mt Hmin Es) as Hprog.
        cbn [after] in Hprog. apply Nat.ltb_lt in Hprog as Hprog'.
        rewrite Hprog' in Hrest. cbv zeta. rewrite Hprog'.
        assert (Le : length (before (m_end mt)) <= length bef + length p2).
        { apply andb_false_iff in Hfirst. destruct Hfirst as [F|F].
          - apply Nat.ltb_ge in F. subst p2. rewrite length_app in F.
            cbn [length] in F. lia.
          - apply Nat.ltb_ge in F. exact F. }
        assert (Lw : length w <= length (y :: l)).
        { rewrite Hb, length_app, length_rev, length_app, length_rev in Le.
          subst p2. rewrite length_app in Le. lia. }
        subst b.
        assert (Hsplit : exists l2, y :: l = w ++ l2 /\ after (m_end mt) = l2 ++ tail).
        { apply app_eq_app in Ha. destruct Ha as (l2 & [[A1 A2] | [A1 A2]]).
          - exists l2. auto.
          - destruct l2 as [|c l2].
            + exists []. rewrite app_nil_r in A1. cbn [app] in A2 |- *.
              rewrite app_nil_r. auto.
            + rewrite A1, length_app in Lw. cbn [length] in Lw. lia. }
        destruct Hsplit as (l2 & El & Eafter).
        destruct (m_end mt) as [bef' aft'] eqn:Eend. cbn [before after] in *.
        subst aft'.
        apply (IH bef' l2).
        -- lia.
        -- assert (Ei : length bef' + length l2 = length bef + length p2).
           { rewrite Hb, E1, El. rewrite !length_app, !length_rev. lia. }
           rewrite Ei. exact Hrest.
    + destruct l as [|y l].
      * rewrite app_nil_r in E1. cbn [app] in E2. subst a b. apply Token. exact Hm.
      * exfalso.
        destruct (token_label_match t post (rev p2 ++ bef) Hwf He) as (b' & Ht).
        fold tail in Ht. rewrite E2 in Ht.
        rewrite (Hearlier p2 (y :: l) E1 ltac:(discriminate)) in Ht. discriminate Ht.
  - exfalso.
    destruct (token_label_match t post (rev p2 ++ bef) Hwf He) as (b' & Ht).
    fold tail in Ht.
    rewrite (search_none _ _ _ Es p2 tail eq_refl) in Ht. discriminate Ht.
Qed.

Lemma search_start_found r aft : forall bef s,
  search_start r bef aft = Some s ->
  exists a b, aft = a ++ b /\ s = length bef + length a /\
    match_at r {| before := rev a ++ bef; after := b |} <> None.
Proof.
  induction aft as [|x rest IH]; intros bef s H; cbn [search_start] in H;
    destruct (match_at r {| before := bef; after := _ |}) as [res|] eqn:E;
    try discriminate H.
  - injection H as <-. exists [], []. cbn [app rev length]. rewrite E.
    split; [reflexivity|]. split; [lia | discriminate].
  - injection H as <-. exists [], (x :: rest). cbn [app rev length]. rewrite E.
    split; [reflexivity|]. split; [lia | discriminate].
  - destruct (IH _ _ H) as (a & b & -> & -> & Hm).
    exists (x :: a), b. split; [reflexivity|]. split; [cbn [length]; lia|].
    cbn [rev]. rewrite <- app_assoc. exact Hm.
Qed.

(** The matches of a scan begin at or after the place where its first
    search finds a match. *)
Lemma scan_spans_from r n : forall fuel z,
  (forall s, search_start r (before z) (after z) = Some s -> n <= s) ->
  Forall (fun span => n <= fst span) (scan_spans fuel r z).
Proof.
  induction fuel as [|fuel IH]; intros z H; cbn [scan_spans]; [constructor|].
  destruct (search_start r (before z) (after z)) as [s|] eqn:Es; [|constructor].
  destruct (regex_exec r z) as [mt|] eqn:Ex; [|constructor].
  constructor; [cbn [fst]; apply H; reflexivity|].
  destruct (length (after (m_end mt)) <? length (after z)); [|constructor].
  apply IH. intros s' Hs'.
  destruct (search_start_found _ _ _ _ Hs') as (a' & b' & _ & -> & _).
  unfold regex_exec in Ex.
  destruct (search_found _ _ _ _ Ex) as (a & b & _ & Hstart & Hm & _).
  destruct (match_at_moved _ _ _ Hm) as (w & [_ Hb] & _).
  cbn [before] in Hb. rewrite Hb, !length_app, !length_rev.
  rewrite Es in Hstart. injection Hstart as Hs.
  specialize (H s eq_refl). lia.
Qed.

(** A token at the first label of the text is outside every earlier
    match. *)
Lemma first_label_outside pre post t :
  well_formed_exact t = true ->
  includes pre (lit "kms") = false ->
  includes pre (lit "KMS") = false ->
  inside_earlier_match (program label_pattern) (pre ++ token_text t ++ post)
    (length pre) = false.
Proof.
  intros Hwf Hk1 Hk2.
  destruct (well_formed_exact_parts t Hwf) as (Hl & _).
  unfold inside_earlier_match, matches_of.
  assert (F : Forall (fun span => length pre <= fst span)
                (scan_spans (S (length (pre ++ token_text t ++ post)))
                   (program label_pattern)
                   (start_of (pre ++ token_text t ++ post)))).
  { apply scan_spans_from. unfold start_of. cbn [before after]. intros s Hs.
    destruct (search_start_found _ _ _ _ Hs) as (a & b & Hab & -> & Hm).
    cbn [length Nat.add]. destruct (Nat.le_gt_cases (length pre) (length a)) as [L|L];
      [exact L|].
    exfalso. apply Hm.
    apply app_eq_app in Hab. destruct Hab as (l & [[E1 E2] | [E1 E2]]).
    - destruct l as [|y l]; [rewrite app_nil_r in E1; subst a; lia|].
      subst b. rewrite token_text_app.
      apply label_no_match; eapply no_label_straddles; eauto; discriminate.
    - rewrite E1, length_app in L. lia. }
  rewrite Forall_forall in F.
  destruct (existsb _ _) eqn:E; [|reflexivity].
  apply existsb_exists in E. destruct E as (span & Hin & Hspan).
  specialize (F span Hin). apply andb_true_iff in Hspan. destruct Hspan as [S1 _].
  apply Nat.ltb_lt in S1. lia.
Qed.

(** C3 (amended). When a well-formed token (label kms or KMS, optional
    white space, colon, optional white space, host or host and port) does
    not begin inside an earlier match of the label pattern, ends before
    the rest of the text, and the server string of the token passes
    [isLikelyKmsServer], the output of extraction includes exactly that
    host and port, with port 1688 when the token gives none. *)
Theorem C3_token_outside_earlier_match_is_extracted (pre post : jsstr) (t : Token) :
  well_formed_exact t = true ->
  inside_earlier_match (program label_pattern) (pre ++ token_text t ++ post)
    (length pre) = false ->
  ends_before t post = true ->
  isLikelyKmsServer (token_server t) = true ->
  exists out,
    extractKmsServers (pre ++ token_text t ++ post) = Some out /\
    In (token_server t) out.
Proof.
  intros Hwf Hout He Hlikely.
  set (text := pre ++ token_text t ++ post).
  destruct (label_scan_finds t post Hwf He Hlikely (S (length text)) [] pre [])
    as (out1 & E1 & Hin).
  { fold text. lia. }
  { exact Hout. }
  unfold extractKmsServers, run_patterns, regexPatterns.
  rewrite fold_patterns_cons. fold text. unfold start_of.
  fold text in E1. rewrite E1.
  destruct (fold_patterns_total text [domain_pattern; ip_pattern; server_pattern])
    with (servers := out1) as (out2 & E2).
  { intros pat Hpat. apply regexPatterns_minlen. right. exact Hpat. }
  rewrite E2. eexists. split; [reflexivity|].
  apply fold_specific_keeps.
  apply (fold_patterns_incl _ _ _ _ E2). exact Hin.
Qed.

Lemma C3_witness :
  exists out,
    extractKmsServers (lit "KMS servers: kms: b.kms.x:2") = Some out /\
    In (lit "b.kms.x:2") out.
Proof.
  apply (C3_token_outside_earlier_match_is_extracted (lit "KMS servers: ") []
    {| Spec.t_label := lit "kms"; Spec.t_ws1 := []; Spec.t_ws2 := lit " ";
       Spec.t_host := lit "b.kms.x"; Spec.t_port := Some (lit "2") |});
    vm_compute; reflexivity.
Defined.

(** A well-formed token whose host is on the denylist is not extracted,
    and the fallback list that replaces the empty result does not hold its
    endpoint either. *)
Lemma C3_counterexample :
  Spec.well_formed
    {| Spec.t_label := lit "kms"; Spec.t_ws1 := []; Spec.t_ws2 := [];
       Spec.t_host := lit "github.com"; Spec.t_port := Some (lit "1688") |} = true /\
  Spec.token_text
    {| Spec.t_label := lit "kms"; Spec.t_ws1 := []; Spec.t_ws2 := [];
       Spec.t_host := lit "github.com"; Spec.t_port := Some (lit "1688") |} =
    lit "kms:github.com:1688" /\
  (exists out,
     extractKmsServers (lit "kms:github.com:1688") = Some out /\
     ~ In (lit "github.com:1688") out) /\
  ~ In (lit "github.com:1688") useFallbackKmsServers.
Proof.
  split; [vm_compute; reflexivity|]. split; [reflexivity|]. split.
  - exists []. split; [vm_compute; reflexivity | intros []].
  - intros H. repeat (destruct H as [H|H]; [discriminate H|]). destruct H.
Qed.

(** The label is matched in two spellings only, and a host that is not
    shaped like a domain is not found by the other patterns. *)
Example mixed_case_label_not_matched :
  Spec.well_formed
    {| Spec.t_label := lit "Kms"; Spec.t_ws1 := []; Spec.t_ws2 := [];
       Spec.t_host := lit "kms-x"; Spec.t_port := Some (lit "5") |} = true /\
  isLikelyKmsServer (lit "kms-x:5") = true /\
  extractKmsServers (lit "Kms:kms-x:5") = Some [].
Proof. repeat split; vm_compute; reflexivity. Qed.

(** A label inside the host of an earlier match is passed over: the token
    kms:kms-:5 begins at offset 5, inside the match that begins the text. *)
Example later_label_not_matched :
  Spec.token_text
    {| Spec.t_label := lit "kms"; Spec.t_ws1 := []; Spec.t_ws2 := [];
       Spec.t_host := lit "kms-"; Spec.t_port := Some (lit "5") |} =
    lit "kms:kms-:5" /\
  Spec.inside_earlier_match (program label_pattern) (lit "kms:xkms:kms-:5") 5 =
    true /\
  isLikelyKmsServer (lit "kms-:5") = true /\
  extractKmsServers (lit "kms:xkms:kms-:5") = Some [lit "xkms:1688"].
Proof. repeat split; vm_compute; reflexivity. Qed.

(** A token after an earlier match, outside it, is extracted as well. *)
Example later_token_matched :
  Spec.inside_earlier_match (program label_pattern)
    (lit "kms:a.kms.x:1 kms:b.kms.x:2") 14 = false /\
  extractKmsServers (lit "kms:a.kms.x:1 kms:b.kms.x:2") =
    Some [lit "a.kms.x:1"; lit "b.kms.x:2"].
Proof. split; vm_compute; reflexivity. Qed.

(** C4. The host app.js matches the denylist pattern for the .js
    extension, but the pattern is tried on the server string with its port,
    which never ends with the extension: the endpoint is extracted. *)
Theorem C4_static_asset_host_is_extracted :
  test (stri (lit ".js") >> Eos) (lit "app.js") = true /\
  In (stri (lit ".js") >> Eos) notKmsPatterns /\
  test (stri (lit ".js") >> Eos) (lit "app.js:1688") = false /\
  extractKmsServers (lit "app.js") = Some [lit "app.js:1688"].
Proof.
  split; [vm_compute; reflexivity|].
  split; [do 5 right; left; reflexivity|].
  split; vm_compute; reflexivity.
Qed.

(** The five patterns of the denylist that are not anchored do keep their
    hosts out. *)
Lemma unanchored_denylist_holds text out server pattern :
  In pattern (firstn 5 notKmsPatterns) ->
  extractKmsServers text = Some out -> In server out ->
  test pattern server = false.
Proof.
  intros Hp He Hs. destruct (extracted_from _ _ _ He Hs) as [L|[Hspec _]].
  - unfold isLikelyKmsServer in L.
    destruct (existsb (fun p => test p server) notKmsPatterns) eqn:E; [discriminate|].
    apply (existsb_false_In _ _ pattern E).
    cbn [firstn notKmsPatterns] in Hp. unfold notKmsPatterns.
    cbn [In] in Hp |- *. tauto.
  - destruct Hspec as [<-|[<-|[<-|[]]]];
      destruct Hp as [<-|[<-|[<-|[<-|[<-|[]]]]]]; vm_compute; reflexivity.
Qed.

(** A pattern that ends a literal extension at the end of the string
    matches no server string: these end with the digits of the port. *)
Lemma anchored_extension_never_matches ext server :
  ext <> [] -> is_digit (canon (last ext 0%N)) = false ->
  endpoint_shape server ->
  test (stri ext >> Eos) server = false.
Proof.
  intros Hne Hlast (host & port & -> & _ & _ & Hp & Fp).
  unfold test. destruct (search _ _ _) as [res|] eqn:E; [|reflexivity].
  exfalso. apply search_sound in E.
  destruct E as (pre & rest & Et & HM).
  apply Match_Seq_inv in HM. destruct HM as (z1 & c1 & H1 & H2).
  apply Match_Eos_inv in H2. destruct H2 as (_ & _ & Hend).
  apply Match_stri in H1. destruct H1 as (w & [Mw _] & Fw).
  cbn [after] in Mw. rewrite Hend, app_nil_r in Mw. subst rest.
  destruct (Forall2_last _ _ _ 0%N 0%N Fw Hne) as (Hw & Hc).
  assert (L : last (host ++ lit ":" ++ port) 0%N = last w 0%N).
  { rewrite Et. apply last_app_nonempty. exact Hw. }
  rewrite app_assoc, last_app_nonempty in L by exact Hp.
  pose proof (Forall_last _ _ 0%N Fp Hp) as Hd. unfold digitP in Hd.
  rewrite L in Hd. rewrite <- Hc, (digit_canon _ Hd), Hd in Hlast. discriminate.
Qed.

(** The six patterns of the denylist for file extensions reject no server
    string. *)
Lemma extension_patterns_never_reject pattern server :
  In pattern (skipn 5 notKmsPatterns) -> endpoint_shape server ->
  test pattern server = false.
Proof.
  intros Hp Hs. cbn [skipn notKmsPatterns In] in Hp.
  destruct Hp as [<-|[<-|[<-|[<-|[<-|[<-|[]]]]]]];
    apply anchored_extension_never_matches;
    try discriminate; try reflexivity; exact Hs.
Qed.

(** So none of them rejects a server string that the loop of
    [extractKmsServers] builds from a match. *)
Lemma extension_patterns_dead pat z mt pattern :
  In pat regexPatterns ->
  regex_exec (program pat) z = Some mt ->
  In pattern (skipn 5 notKmsPatterns) ->
  test pattern (server_of_match pat mt) = false.
Proof.
  intros Hpat He Hp. apply extension_patterns_never_reject; [exact Hp|].
  eapply regexPatterns_shape; eauto.
Qed.

Lemma shape_of_extracted text out server :
  extractKmsServers text = Some out -> In server out ->
  endpoint_shape server.
Proof.
  intros H Hs. apply extractKmsServers_Some in H. destruct H as (servers & E & ->).
  apply fold_specific_from in Hs. destruct Hs as [Hs|[Hs _]];
    [|apply specificServers_shape; exact Hs].
  unfold run_patterns in E.
  eapply (fold_patterns_inv endpoint_shape) in E.
  - rewrite Forall_forall in E. apply E. exact Hs.
  - intros pat z mt Hpat Hex _. eapply regexPatterns_shape; eauto.
  - constructor.
Qed.

(** C7 (amended). Every server string in the output of extraction is a
    host, a colon and a port, where the host is a non-empty run of letters,
    digits, dots and hyphens and the port a non-empty run of decimal
    digits. Neither the value of the port nor the labels of the host are
    checked. *)
Theorem C7_extracted_endpoint_shape text out server :
  extractKmsServers text = Some out -> In server out ->
  endpoint_shape server.
Proof. apply shape_of_extracted. Qed.

Lemma C7_witness : endpoint_shape (lit "kms.a.b:99999").
Proof.
  apply (C7_extracted_endpoint_shape (lit "kms.a.b:99999") [lit "kms.a.b:99999"]).
  - vm_compute. reflexivity.
  - simpl. left. reflexivity.
Defined.

(** The port 99999 is extracted, outside the range 1 to 65535. *)
Lemma C7_counterexample :
  exists out,
    extractKmsServers (lit "kms.a.b:99999") = Some out /\
    In (lit "kms.a.b:99999") out /\
    Spec.endpoint_invariant (lit "kms.a.b:99999") = false.
Proof.
  exists [lit "kms.a.b:99999"]. split; [vm_compute; reflexivity|].
  split; [left; reflexivity | vm_compute; reflexivity].
Qed.

(** The servers of the fallback list have that shape too, so every
    candidate list of a run has it. *)
Lemma candidates_shape w servers server :
  getKmsServersFromIssue w = Some servers -> In server servers ->
  endpoint_shape server.
Proof.
  pose proof useFallbackKmsServers_shape as F.
  unfold getKmsServersFromIssue.
  destruct (issue w) as [|[|] [|body]];
    try (intros H; inversion H; subst; apply F).
  destruct (extractKmsServers _) as [[|s0 out]|] eqn:E; intros H Hs;
    inversion H; subst; [apply F; exact Hs|].
  eapply shape_of_extracted; eauto.
Qed.

(** C10. When the text contains the host of one of the three specific
    servers anywhere, extraction returns and its output includes that
    server; [add_specific] does not consult [isLikelyKmsServer]. *)
Theorem C10_specific_servers_added text server :
  In server specificServers ->
  includes text (hd [] (split (ch ":") server)) = true ->
  exists out, extractKmsServers text = Some out /\ In server out.
Proof.
  intros Hs Hi. unfold extractKmsServers.
  destruct (run_patterns_total text) as (out & ->).
  eexists. split; [reflexivity|]. apply fold_specific_adds; assumption.
Qed.

Lemma C10_witness :
  exists out,
    extractKmsServers (lit "_kms.hmg.pw_") = Some out /\
    In (lit "kms.hmg.pw:1688") out.
Proof.
  apply (C10_specific_servers_added (lit "_kms.hmg.pw_") (lit "kms.hmg.pw:1688")).
  - simpl. left. reflexivity.
  - vm_compute. reflexivity.
Defined.

(** In that text no pattern finds the host as a token of its own. *)
Example specific_server_without_token :
  extractKmsServers (lit "_kms.hmg.pw_") = Some [lit "kms.hmg.pw:1688"].
Proof. vm_compute. reflexivity. Qed.

(* ------------------------------------------------------------------ *)
(** *** The fallback list *)
(* ------------------------------------------------------------------ *)

(** C5 (amended). Whenever the run falls back, the candidate list is the
    literal list of the script: 13 entries, equal to the documented list
    entry for entry but for the eleventh, spelled kms8.MSGuides.com:1688,
    which equals the documented entry up to letter case. The revision of
    the script falls back to the same list. *)
Theorem C5_fallback_list_used w :
  falls_back w ->
  getKmsServersFromIssue w = Some useFallbackKmsServers /\
  KmsSyncRev.candidates [] = useFallbackKmsServers /\
  length useFallbackKmsServers = 13 /\
  (forall i, i <> 10 ->
     nth_error useFallbackKmsServers i = nth_error Spec.documented_fallback i) /\
  nth_error useFallbackKmsServers 10 = Some (lit "kms8.MSGuides.com:1688") /\
  map (map canon) useFallbackKmsServers = map (map canon) Spec.documented_fallback.
Proof.
  intros Hf. split.
  - unfold falls_back in Hf. unfold getKmsServersFromIssue.
    destruct (issue w) as [|[|] [|body]]; try reflexivity.
    rewrite Hf. reflexivity.
  - split; [reflexivity|]. split; [reflexivity|]. split.
    + intros i Hi. do 14 (destruct i as [|i]; [try reflexivity; congruence|]).
      reflexivity.
    + split; vm_compute; reflexivity.
Qed.

Lemma C5_witness :
  getKmsServersFromIssue dead_world = Some useFallbackKmsServers.
Proof.
  apply (C5_fallback_list_used dead_world). simpl. exact I.
Defined.

(** The list of the script is not the documented list: the eleventh entry
    differs in letter case. *)
Lemma C5_counterexample : useFallbackKmsServers <> Spec.documented_fallback.
Proof.
  intros H. apply (f_equal (fun l => nth 10 l [])) in H.
  vm_compute in H. discriminate H.
Qed.

(* ------------------------------------------------------------------ *)
(** *** Probing and selection *)
(* ------------------------------------------------------------------ *)

Lemma validate_loop_results exec servers : forall i acc,
  validate_loop exec i servers acc =
  acc ++ map fst (filter snd (probe_results_from exec i servers)).
Proof.
  induction servers as [|s rest IH]; intros i acc; cbn [validate_loop probe_results_from].
  - cbn. rewrite app_nil_r. reflexivity.
  - rewrite IH. cbn [filter snd]. destruct (probe exec i s); cbn [map fst].
    + rewrite <- app_assoc. reflexivity.
    + reflexivity.
Qed.

Lemma validateKmsServers_results exec servers :
  validateKmsServers exec servers =
  map fst (filter snd (probe_results exec servers)).
Proof. unfold validateKmsServers. rewrite validate_loop_results. reflexivity. Qed.

Lemma select_filter (results : list Spec.ProbeResult) :
  nth_error (map fst (filter snd results)) 0 = Spec.select results.
Proof.
  induction results as [|[e r] rest IH]; [reflexivity|].
  cbn [filter snd Spec.select]. destruct r; [reflexivity | exact IH].
Qed.

Lemma probe_results_fst exec servers : forall i,
  map fst (probe_results_from exec i servers) = servers.
Proof.
  induction servers as [|s rest IH]; intros i; cbn; [reflexivity|].
  rewrite IH. reflexivity.
Qed.

Lemma probe_exec_of_flags flags i s :
  probe (exec_of_flags flags) i s = nth i flags false.
Proof.
  unfold probe, exec_of_flags. destruct (nth i flags false); reflexivity.
Qed.

Lemma probe_results_of_flags (results : list Spec.ProbeResult) : forall pre,
  probe_results_from (exec_of_flags (pre ++ map snd results)) (length pre)
    (map fst results) = results.
Proof.
  induction results as [|[e r] rest IH]; intros pre; [reflexivity|].
  cbn [map fst snd probe_results_from]. rewrite probe_exec_of_flags.
  rewrite app_nth2, Nat.sub_diag by lia. cbn [nth].
  specialize (IH (pre ++ [r])). rewrite <- app_assoc, length_app in IH.
  cbn [app length] in IH. rewrite Nat.add_1_r in IH. rewrite IH. reflexivity.
Qed.

Lemma mocked_probe accept exec servers :
  mocked accept exec servers ->
  forall i s, In s servers -> probe exec i s = accept s.
Proof.
  intros Hm i s Hs. specialize (Hm i s Hs). unfold probe.
  destruct (exec i (nc_command s)) as [out err|msg].
  - destruct Hm as [-> ->]. rewrite andb_false_r. reflexivity.
  - rewrite Hm. reflexivity.
Qed.

Lemma mocked_results accept exec servers : forall i,
  (forall j s, In s servers -> probe exec j s = accept s) ->
  probe_results_from exec i servers = map (fun s => (s, accept s)) servers.
Proof.
  induction servers as [|s rest IH]; intros i H; cbn [probe_results_from map];
    [reflexivity|].
  rewrite (H i s (or_introl eq_refl)), IH; [reflexivity|].
  intros j s' Hs'. apply H. right. exact Hs'.
Qed.

Lemma filter_pairs (accept : jsstr -> bool) servers :
  map fst (filter snd (map (fun s => (s, accept s)) servers)) = filter accept servers.
Proof.
  induction servers as [|s rest IH]; [reflexivity|].
  cbn [map filter snd]. destruct (accept s); cbn [map fst]; rewrite IH; reflexivity.
Qed.

Lemma probe_fails_false exec i s :
  probe_fails (exec i (nc_command s)) -> probe exec i s = false.
Proof.
  unfold probe, probe_fails. destruct (exec i (nc_command s)) as [out err|msg];
    [|reflexivity].
  intros H. rewrite H. destruct err; [discriminate H | reflexivity].
Qed.

Lemma probe_results_app exec pre : forall i post,
  probe_results_from exec i (pre ++ post) =
  probe_results_from exec i pre ++ probe_results_from exec (length pre + i) post.
Proof.
  induction pre as [|s pre IH]; intros i post; cbn [app probe_results_from length];
    [reflexivity|].
  rewrite IH. replace (length pre + S i) with (S (length pre) + i) by lia.
  reflexivity.
Qed.

Lemma validate_loop_app exec pre : forall i post acc,
  validate_loop exec i (pre ++ post) acc =
  validate_loop exec (length pre + i) post (validate_loop exec i pre acc).
Proof.
  induction pre as [|s pre IH]; intros i post acc; cbn [app validate_loop length];
    [reflexivity|].
  rewrite IH. replace (length pre + S i) with (S (length pre) + i) by lia.
  reflexivity.
Qed.

Lemma probe_sockets_app net pre : forall i post acc,
  KmsSyncRev.probe_sockets net i (pre ++ post) acc =
  match KmsSyncRev.probe_sockets net i pre acc with
  | Some valid => KmsSyncRev.probe_sockets net (length pre + i) post valid
  | None => None
  end.
Proof.
  induction pre as [|s pre IH]; intros i post acc;
    cbn [app KmsSyncRev.probe_sockets length]; [reflexivity|].
  destruct (KmsSyncRev.testKmsServer (net i s)) as [isValid|]; [|reflexivity].
  rewrite IH. replace (length pre + S i) with (S (length pre) + i) by lia.
  reflexivity.
Qed.

(** C6. The selector returns the first server, in the order of the input,
    whose probe succeeded, and nothing when no probe succeeded: for every
    transport and every list of servers, for every sequence of probe
    results, and for the results (A, false), (B, true), (C, true), where
    it returns B. *)
Theorem C6_selector_first_reachable :
  (forall exec servers,
     selectKmsServer (validateKmsServers exec servers) =
     Spec.select (probe_results exec servers)) /\
  (forall results : list Spec.ProbeResult,
     probe_results (exec_of_flags (map snd results)) (map fst results) = results /\
     selectKmsServer
       (validateKmsServers (exec_of_flags (map snd results)) (map fst results)) =
     Spec.select results) /\
  (forall A B C,
     selectKmsServer
       (validateKmsServers (exec_of_flags [false; true; true]) [A; B; C]) =
     Some B) /\
  (forall exec servers,
     selectKmsServer (validateKmsServers exec servers) = None <->
     Forall (fun r => snd r = false) (probe_results exec servers)).
Proof.
  assert (S : forall exec servers,
             selectKmsServer (validateKmsServers exec servers) =
             Spec.select (probe_results exec servers)).
  { intros exec servers. unfold selectKmsServer.
    rewrite validateKmsServers_results. apply select_filter. }
  split; [exact S|]. split; [|split].
  - intros results.
    assert (E : probe_results (exec_of_flags (map snd results)) (map fst results) =
                results) by apply (probe_results_of_flags results []).
    split; [exact E|]. rewrite S, E. reflexivity.
  - intros A B C. reflexivity.
  - intros exec servers. rewrite S.
    induction (probe_results exec servers) as [|[e r] rest IH]; cbn [Spec.select].
    + split; [constructor | reflexivity].
    + destruct r.
      * split; [discriminate|]. intros H. inversion H; subst. discriminate.
      * rewrite IH. split; [constructor; auto | intros H; inversion H; auto].
Qed.

(** C8. Under a mocked transport with a fixed accept set, the probe
    results of the batch are the servers in the order of the input, each
    with the flag that tells whether it is in the accept set, and the list
    of valid servers is the input filtered by the accept set. *)
Theorem C8_batch_probe_keeps_order accept exec servers :
  mocked accept exec servers ->
  probe_results exec servers = map (fun s => (s, accept s)) servers /\
  validateKmsServers exec servers = filter accept servers.
Proof.
  intros Hm.
  assert (E : probe_results exec servers = map (fun s => (s, accept s)) servers).
  { apply mocked_results. apply (mocked_probe accept exec servers Hm). }
  split; [exact E|].
  rewrite validateKmsServers_results, E. apply filter_pairs.
Qed.

Lemma C8_witness :
  probe_results only_ip_exec useFallbackKmsServers =
    map (fun s => (s, str_eqb s (lit "140.246.142.164:1688"))) useFallbackKmsServers /\
  validateKmsServers only_ip_exec useFallbackKmsServers =
    filter (fun s => str_eqb s (lit "140.246.142.164:1688")) useFallbackKmsServers.
Proof.
  apply (C8_batch_probe_keeps_order
           (fun s => str_eqb s (lit "140.246.142.164:1688")) only_ip_exec
           useFallbackKmsServers).
  intros i server Hs. simpl in Hs.
  repeat (destruct Hs as [<-|Hs]; [vm_compute; auto|]). destruct Hs.
Defined.

Lemma probe_sockets_none net servers : forall i acc,
  KmsSyncRev.probe_sockets net i servers acc = None <->
  exists j s, nth_error servers j = Some s /\
              net (i + j) s = KmsSyncRev.ConnectThrows.
Proof.
  induction servers as [|x rest IH]; intros i acc; cbn [KmsSyncRev.probe_sockets].
  - split; [discriminate | intros ([|j] & s & H & _); discriminate].
  - destruct (net i x) as [|e] eqn:En.
    + cbn [KmsSyncRev.testKmsServer]. split; [|reflexivity]. intros _. exists 0, x.
      rewrite Nat.add_0_r. auto.
    + assert (T : exists b, KmsSyncRev.testKmsServer (KmsSyncRev.ConnectEvent e) = Some b)
        by (destruct e; cbn; eauto).
      destruct T as (b & ->). rewrite IH. split.
      * intros (j & s & Hj & Hn). exists (S j), s.
        rewrite Nat.add_succ_r. auto.
      * intros ([|j] & s & Hj & Hn).
        -- cbn in Hj. inversion Hj; subst. rewrite Nat.add_0_r in Hn. congruence.
        -- exists j, s. rewrite Nat.add_succ_r in Hn. auto.
Qed.

Lemma probe_results_length exec servers i :
  length (probe_results_from exec i servers) = length servers.
Proof.
  rewrite <- (probe_results_fst exec servers i) at 2.
  rewrite length_map. reflexivity.
Qed.

Lemma probe_nc_answers exec i s :
  probe exec i s = nc_answers (exec i (nc_command s)).
Proof.
  unfold probe, nc_answers. destruct (exec i (nc_command s)) as [out err|msg];
    [|reflexivity].
  destruct err as [|c err]; [reflexivity|].
  cbn [truthy andb]. destruct (includes (c :: err) (lit "Connection refused"));
    reflexivity.
Qed.

Lemma answered_app answers pre : forall i post,
  answered answers i (pre ++ post) =
  answered answers i pre ++ answered answers (length pre + i) post.
Proof.
  induction pre as [|s pre IH]; intros i post; cbn [app answered length];
    [reflexivity|].
  rewrite IH. replace (length pre + S i) with (S (length pre) + i) by lia.
  destruct (answers i s); reflexivity.
Qed.

Lemma validate_loop_answered exec servers : forall i acc,
  validate_loop exec i servers acc = acc ++ nc_answered exec i servers.
Proof.
  unfold nc_answered.
  induction servers as [|s rest IH]; intros i acc; cbn [validate_loop answered].
  - rewrite app_nil_r. reflexivity.
  - rewrite IH, probe_nc_answers.
    destruct (nc_answers (exec i (nc_command s))); [|reflexivity].
    rewrite <- app_assoc. reflexivity.
Qed.

Lemma probe_sockets_answered net servers : forall i acc,
  (forall j s, nth_error servers j = Some s ->
               net (i + j) s <> KmsSyncRev.ConnectThrows) ->
  KmsSyncRev.probe_sockets net i servers acc =
    Some (acc ++ socket_answered net i servers).
Proof.
  unfold socket_answered.
  induction servers as [|x rest IH]; intros i acc H;
    cbn [KmsSyncRev.probe_sockets answered].
  - rewrite app_nil_r. reflexivity.
  - pose proof (H 0 x eq_refl) as H0. rewrite Nat.add_0_r in H0.
    assert (Hr : forall j s, nth_error rest j = Some s ->
                             net (S i + j) s <> KmsSyncRev.ConnectThrows).
    { intros j s Hj. specialize (H (S j) s Hj).
      rewrite Nat.add_succ_r in H. exact H. }
    destruct (net i x) as [|[|msg|]]; [congruence | | |];
      cbn [KmsSyncRev.testKmsServer socket_answers]; rewrite (IH _ _ Hr).
    + rewrite <- app_assoc. reflexivity.
    + reflexivity.
    + reflexivity.
Qed.

Lemma answered_skip answers pre server post :
  answers (length pre) server = false ->
  answered answers 0 (pre ++ server :: post) =
  answered answers 0 pre ++ answered answers (S (length pre)) post.
Proof.
  intros H. rewrite answered_app. cbn [answered].
  rewrite Nat.add_0_r, H. reflexivity.
Qed.

(** C9. When the probe of a candidate fails (the promise of nc is rejected
    or nc reports a refused connection; for the socket probe, an error
    event or the time limit), the candidate is recorded as not reachable
    and nothing is thrown. The candidates around it are probed all the
    same: the list of valid servers is made of the servers before it and
    of the servers after it that answer their own probe, in the order of
    the batch. The loop of main.js returns that list whatever the other
    probes do; the loop of the socket revisions returns it unless a call
    of connect throws, which an error event or the time limit never
    does. *)
Theorem C9_probe_failure_does_not_abort exec net pre server post :
  probe_fails (exec (length pre) (nc_command server)) ->
  socket_fails (net (length pre) server) ->
  nth_error (probe_results exec (pre ++ server :: post)) (length pre) =
    Some (server, false) /\
  length (probe_results exec (pre ++ server :: post)) =
    length (pre ++ server :: post) /\
  validateKmsServers exec (pre ++ server :: post) =
    nc_answered exec 0 pre ++ nc_answered exec (S (length pre)) post /\
  KmsSyncRev.testKmsServer (net (length pre) server) = Some false /\
  ((forall j s, nth_error (pre ++ server :: post) j = Some s ->
                net j s <> KmsSyncRev.ConnectThrows) ->
   KmsSyncRev.probe_sockets net 0 (pre ++ server :: post) [] =
     Some (socket_answered net 0 pre ++
           socket_answered net (S (length pre)) post)) /\
  (KmsSyncRev.probe_sockets net 0 (pre ++ server :: post) [] = None <->
   exists j s, nth_error (pre ++ server :: post) j = Some s /\
               j <> length pre /\ net j s = KmsSyncRev.ConnectThrows).
Proof.
  intros Hf Hs.
  assert (Hn : nc_answers (exec (length pre) (nc_command server)) = false).
  { rewrite <- probe_nc_answers. apply probe_fails_false. exact Hf. }
  assert (Hk : socket_answers (net (length pre) server) = false).
  { destruct (net (length pre) server) as [|[| |]]; simpl in Hs;
      try contradiction; reflexivity. }
  assert (Ht : KmsSyncRev.testKmsServer (net (length pre) server) = Some false).
  { destruct (net (length pre) server) as [|[| |]]; simpl in Hs;
      try contradiction; reflexivity. }
  split; [|split; [|split; [|split; [|split]]]].
  - unfold probe_results. rewrite probe_results_app.
    rewrite nth_error_app2 by (rewrite probe_results_length; lia).
    rewrite probe_results_length, Nat.sub_diag. cbn [probe_results_from nth_error].
    rewrite Nat.add_0_r, probe_nc_answers, Hn. reflexivity.
  - apply probe_results_length.
  - unfold validateKmsServers. rewrite validate_loop_answered. cbn [app].
    unfold nc_answered. apply answered_skip. exact Hn.
  - exact Ht.
  - intros H. rewrite probe_sockets_answered by exact H. cbn [app].
    unfold socket_answered. f_equal.
    apply (answered_skip (fun i s => socket_answers (net i s))). exact Hk.
  - rewrite probe_sockets_none. cbn [Nat.add]. split.
    + intros (j & s & Hj & Hthrow). exists j, s.
      split; [exact Hj|]. split; [|exact Hthrow].
      intros ->. rewrite nth_error_app2 in Hj by lia.
      rewrite Nat.sub_diag in Hj. cbn [nth_error] in Hj.
      inversion Hj; subst s. rewrite Hthrow in Hs. exact Hs.
    + intros (j & s & Hj & _ & Hthrow). exists j, s. auto.
Qed.

Lemma C9_witness :
  validateKmsServers only_ip_exec
      [lit "kms.hmg.pw:1688"; lit "140.246.142.164:1688"] =
    [lit "140.246.142.164:1688"] /\
  KmsSyncRev.probe_sockets only_ip_net 0
      [lit "kms.hmg.pw:1688"; lit "140.246.142.164:1688"] [] =
    Some [lit "140.246.142.164:1688"].
Proof.
  destruct (C9_probe_failure_does_not_abort only_ip_exec only_ip_net []
              (lit "kms.hmg.pw:1688") [lit "140.246.142.164:1688"])
    as (_ & _ & H3 & _ & H5 & _).
  - vm_compute. exact I.
  - vm_compute. exact I.
  - split; [exact H3|]. apply H5.
    intros [|[|j]] s Hj.
    + injection Hj as <-. vm_compute. discriminate.
    + injection Hj as <-. vm_compute. discriminate.
    + destruct j; discriminate Hj.
Defined.

(* ------------------------------------------------------------------ *)
(** *** The run *)
(* ------------------------------------------------------------------ *)

Theorem main_terminates w : exists run, main w = Some run.
Proof.
  unfold main.
  assert (T : exists l, getKmsServersFromIssue w = Some l).
  { unfold getKmsServersFromIssue.
    destruct (issue w) as [|[|] [|body]]; eauto.
    destruct (extractKmsServers_total (if truthy body then tmpl body else []))
      as (out & ->).
    destruct out; eauto. }
  destruct T as (l & ->).
  destruct (0 <? length (validateKmsServers (exec w) l)); [|eauto].
  destruct (selectKmsServer _); [|eauto].
  destruct (updateCloudflareRecord w j). eauto.
Qed.

Lemma main_without_valid_server w servers :
  getKmsServersFromIssue w = Some servers ->
  validateKmsServers (exec w) servers = [] ->
  main w = Some {| exit_code := 0; requests := [] |}.
Proof. intros H1 H2. unfold main. rewrite H1, H2. reflexivity. Qed.

Lemma rev_main_without_valid_server fetched exec cf :
  KmsSyncRev.validateKmsServers exec (KmsSyncRev.candidates fetched) = [] ->
  KmsSyncRev.main fetched exec cf = {| exit_code := 1; requests := [] |}.
Proof. intros H. unfold KmsSyncRev.main. rewrite H. reflexivity. Qed.

(** The run on the scenario of the specification: one candidate, found
    reachable, selected and published as a CNAME with a TTL of 120. *)
Example one_server_run :
  getKmsServersFromIssue one_server_world = Some [lit "example-kms.test:1689"] /\
  probe_results (exec one_server_world) [lit "example-kms.test:1689"] =
    [(lit "example-kms.test:1689", true)] /\
  main one_server_world =
    Some {| exit_code := 0;
            requests :=
              [ {| method := lit "POST"; target := None; rtype := lit "CNAME";
                   name := lit "kms.everyhub.top"; content := lit "example-kms.test";
                   ttl := 120; proxied := false |} ] |}.
Proof. repeat split; vm_compute; reflexivity. Qed.

(** C1. When the fetch fails and no server of the fallback list answers,
    [main] of main.js sends nothing to Cloudflare and the process ends with
    code 0; the [main] of the revision ends with code 1 there. *)
Theorem C1_no_reachable_endpoint_exits_zero :
  getKmsServersFromIssue dead_world = Some useFallbackKmsServers /\
  validateKmsServers (exec dead_world) useFallbackKmsServers = [] /\
  main dead_world = Some {| exit_code := 0; requests := [] |} /\
  KmsSyncRev.main [] (exec dead_world) only_ip_cloudflare =
    {| exit_code := 1; requests := [] |}.
Proof. repeat split; vm_compute; reflexivity. Qed.

(** Every record write of [main.js] is a CNAME whose content is the host
    of the selected server. *)
Lemma updateCloudflareRecord_always_cname w selectedServer req :
  In req (fst (updateCloudflareRecord w selectedServer)) ->
  rtype req = lit "CNAME" /\
  content req = hd [] (split (ch ":") selectedServer).
Proof.
  unfold updateCloudflareRecord.
  destruct (getCloudflareRecordId w) as [recordId|]; [|intros []].
  destruct (truthy recordId); cbn; intros [<-|[]]; split; reflexivity.
Qed.

(** The revision publishes the type that [isValidIpAddress] selects. *)
Lemma rev_main_record_type fetched exec cf req :
  In req (requests (KmsSyncRev.main fetched exec cf)) ->
  exists selectedServer rest,
    KmsSyncRev.validateKmsServers exec (KmsSyncRev.candidates fetched) =
      selectedServer :: rest /\
    content req = hd [] (split (ch ":") selectedServer) /\
    rtype req =
      if KmsSyncRev.isValidIpAddress (content req) then lit "A" else lit "CNAME".
Proof.
  unfold KmsSyncRev.main.
  destruct (KmsSyncRev.validateKmsServers exec (KmsSyncRev.candidates fetched))
    as [|s rest]; [intros []|].
  unfold KmsSyncRev.updateCloudflareRecord.
  destruct (KmsSyncRev.cf_check cf) as [|[|] existing]; cbn [requests In];
    [intros [] | | intros []].
  intros [<-|[]]. exists s, rest. cbn [content rtype]. auto.
Qed.

(** C2. When the server selected is 140.246.142.164:1688, main.js
    publishes a CNAME record whose content is the IPv4 address, where the
    revision of the script publishes an A record. *)
Theorem C2_ipv4_host_published_as_cname :
  validateKmsServers (exec only_ip_world) useFallbackKmsServers =
    [lit "140.246.142.164:1688"] /\
  KmsSyncRev.isValidIpAddress (lit "140.246.142.164") = true /\
  main only_ip_world =
    Some {| exit_code := 0;
            requests :=
              [ {| method := lit "POST"; target := None; rtype := lit "CNAME";
                   name := lit "kms.everyhub.top"; content := lit "140.246.142.164";
                   ttl := 120; proxied := false |} ] |} /\
  KmsSyncRev.main [] (exec only_ip_world) only_ip_cloudflare =
    {| exit_code := 0;
       requests :=
         [ {| method := lit "POST"; target := None; rtype := lit "A";
              name := lit "kms.everyhub.top"; content := lit "140.246.142.164";
              ttl := 120; proxied := false |} ] |}.
Proof. repeat split; vm_compute; reflexivity. Qed.

(* ================================================================== *)
(** ** Further properties *)
(* ================================================================== *)

Import Notions ClientScenario.

Lemma Match_Bos_inv z c z' c' :
  Match Bos z c z' c' -> z' = z /\ c' = c /\ before z = [].
Proof. intros H. inversion H; subst. auto. Qed.

Lemma Match_rep13_inv p z c z' c' :
  Match (Rep 1 3 (Cls p)) z c z' c' ->
  c' = c /\
  exists w, moved z w z' /\ Forall (fun x => p x = true) w /\
            1 <= length w <= 3.
Proof.
  intros H.
  assert (Hg : no_group (Rep 1 3 (Cls p))) by (simpl; tauto).
  assert (Hw : chars_within (fun x => p x = true) (Rep 1 3 (Cls p)))
    by (simpl; repeat split; auto).
  destruct (Match_plain _ _ _ _ _ _ Hg Hw H) as (Hc & w & Mw & Fw & Lw).
  split; [exact Hc|]. exists w. split; [exact Mw|]. split; [exact Fw|].
  split; [exact Lw|].
  unfold Rep in H. cbn [Nat.sub times upto] in H. unfold Opt in H.
  apply Match_Seq_inv in H. destruct H as (z1 & c1 & H1 & H).
  apply Match_Seq_inv in H1. destruct H1 as (z0 & c0 & H1 & He).
  apply Match_Eps_inv in He. destruct He as [-> ->].
  apply Match_Cls_inv in H1. destruct H1 as (x1 & _ & M1 & _).
  apply Match_Alt_inv in H. destruct H as [H|H].
  - apply Match_Seq_inv in H. destruct H as (z2 & c2 & H2 & H).
    apply Match_Cls_inv in H2. destruct H2 as (x2 & _ & M2 & _).
    apply Match_Alt_inv in H. destruct H as [H|H].
    + apply Match_Seq_inv in H. destruct H as (z3 & c3 & H3 & He).
      apply Match_Eps_inv in He. destruct He as [-> ->].
      apply Match_Cls_inv in H3. destruct H3 as (x3 & _ & M3 & _).
      rewrite (moved_inj _ _ _ _ Mw
                 (moved_trans _ _ _ _ _ M1 (moved_trans _ _ _ _ _ M2 M3))).
      simpl. lia.
    + apply Match_Eps_inv in H. destruct H as [-> _].
      rewrite (moved_inj _ _ _ _ Mw (moved_trans _ _ _ _ _ M1 M2)). simpl. lia.
  - apply Match_Eps_inv in H. destruct H as [-> _].
    rewrite (moved_inj _ _ _ _ Mw M1). simpl. lia.
Qed.

Lemma m_rep13 {R} p bef rest c (k : cursor -> caps -> option R) res :
  Forall (fun x => is_digit x = true) p -> 1 <= length p <= 3 ->
  stops is_digit rest ->
  k {| before := rev p ++ bef; after := rest |} c = Some res ->
  m (Rep 1 3 (Cls is_digit)) {| before := bef; after := p ++ rest |} c k = Some res.
Proof.
  intros Fp Lp Hs Hk.
  unfold Rep. cbn [Nat.sub times upto]. unfold Opt.
  destruct p as [|a [|b [|d [|e p]]]]; simpl in Lp; try lia;
    repeat match goal with
           | H : Forall _ (_ :: _) |- _ =>
               apply Forall_cons_iff in H; let Hd := fresh "Hd" in destruct H as [Hd H]
           end;
    cbn [app rev] in Hk |- *; rewrite <- ?app_assoc in Hk; cbn [app] in Hk;
    destruct rest as [|y rest]; cbn [stops] in Hs;
    repeat (first [ rewrite m_Seq | rewrite m_Alt | rewrite m_Eps
                  | rewrite m_Cls_cons | rewrite m_Cls_nil
                  | rewrite Hs | rewrite Hk
                  | match goal with
                    | Hd : is_digit ?a = true |- context [is_digit ?a] => rewrite Hd
                    end ]);
    reflexivity.
Qed.

Lemma digit_not_dot x : is_digit x = true -> N.eqb x (ch ".") = false.
Proof.
  intros H. apply N.eqb_neq. intros ->. discriminate H.
Qed.

Lemma digit_not_space x : is_digit x = true -> is_space x = false.
Proof. intros H. apply hostch_not_space. apply digit_hostch. exact H. Qed.

Lemma split_no_sep sep p :
  Forall (fun x => N.eqb x sep = false) p -> split sep p = [p].
Proof.
  induction 1 as [|x p Hx Hp IH]; [reflexivity|].
  cbn [split]. rewrite Hx, IH. reflexivity.
Qed.

Lemma split_app_sep sep p rest :
  Forall (fun x => N.eqb x sep = false) p ->
  split sep (p ++ sep :: rest) = p :: split sep rest.
Proof.
  induction 1 as [|x p Hx Hp IH]; cbn [app split].
  - rewrite N.eqb_refl. reflexivity.
  - rewrite Hx, IH. reflexivity.
Qed.

Lemma digits_value_nonneg s : forall acc, (0 <= acc)%Z -> (0 <= digits_value acc s)%Z.
Proof.
  induction s as [|c s IH]; intros acc H; cbn [digits_value]; [exact H|].
  destruct (is_digit c); [apply IH; lia | exact H].
Qed.

Lemma digits_value_bound s : forall acc,
  (0 <= acc)%Z -> Forall (fun x => is_digit x = true) s ->
  (digits_value acc s < (acc + 1) * 10 ^ Z.of_nat (length s))%Z.
Proof.
  induction s as [|c s IH]; intros acc Ha Fs.
  - cbn [digits_value length]. change (10 ^ Z.of_nat 0)%Z with 1%Z. lia.
  - apply Forall_cons_iff in Fs. destruct Fs as [Hc Fs].
    cbn [digits_value]. rewrite Hc.
    assert (Hd : (0 <= Z.of_N (c - ch "0") <= 9)%Z).
    { unfold is_digit, in_range in Hc. apply andb_true_iff in Hc.
      destruct Hc as [L U]. apply N.leb_le in L, U.
      change (ch "0") with 48%N in *. change (ch "9") with 57%N in U. lia. }
    specialize (IH (10 * acc + Z.of_N (c - ch "0"))%Z ltac:(lia) Fs).
    replace (Z.of_nat (length (c :: s))) with (Z.succ (Z.of_nat (length s)))
      by (cbn [length]; lia).
    rewrite Z.pow_succ_r by lia.
    assert (P : (0 < 10 ^ Z.of_nat (length s))%Z) by (apply Z.pow_pos_nonneg; lia).
    nia.
Qed.

Lemma round_double_small n : (n < 2 ^ 53)%Z -> round_double n = Some n.
Proof.
  intros H. unfold round_double. apply Z.ltb_lt in H. rewrite H. reflexivity.
Qed.

Lemma round_double_large n :
  (2 ^ 53 <= n)%Z ->
  match round_double n with Some v => (2 ^ 53 <= v)%Z | None => True end.
Proof.
  intros H. unfold round_double.
  assert (E : (n <? 2 ^ 53)%Z = false) by (apply Z.ltb_ge; exact H).
  rewrite E. cbv zeta.
  assert (L : (53 <= Z.log2 n)%Z) by (apply Z.log2_le_pow2; lia).
  set (e := (Z.log2 n - 52)%Z).
  assert (He : (1 <= e)%Z) by (unfold e; lia).
  assert (Hq : (2 ^ 52 <= Z.shiftr n e)%Z).
  { rewrite Z.shiftr_div_pow2 by lia.
    apply Z.div_le_lower_bound; [apply Z.pow_pos_nonneg; lia|].
    rewrite <- Z.pow_add_r by lia.
    replace (e + 52)%Z with (Z.log2 n) by (unfold e; lia).
    apply Z.log2_spec. lia. }
  match goal with |- context [if ?c then (_ + 1)%Z else _] => set (up := c) end.
  set (q' := if up then (Z.shiftr n e + 1)%Z else Z.shiftr n e).
  assert (Hq' : (2 ^ 52 <= q')%Z) by (unfold q'; destruct up; lia).
  destruct (1024 <=? Z.log2 (Z.shiftl q' e))%Z; [exact I|].
  rewrite Z.shiftl_mul_pow2 by lia.
  assert (P : (2 ^ 1 <= 2 ^ e)%Z) by (apply Z.pow_le_mono_r; lia).
  change (2 ^ 53)%Z with (2 ^ 52 * 2 ^ 1)%Z.
  apply Z.mul_le_mono_nonneg; lia.
Qed.

Lemma to_number_not_NaN neg n : to_number neg n <> NaN.
Proof. unfold to_number. destruct (round_double n); discriminate. Qed.

Lemma parseInt10_digits p :
  p <> [] -> Forall (fun x => is_digit x = true) p ->
  parseInt10 p = to_number false (digits_value 0 p).
Proof.
  intros Hne Fp. destruct p as [|x p]; [congruence|].
  apply Forall_cons_iff in Fp. destruct Fp as [Hx _].
  unfold parseInt10. cbn [skip_space]. rewrite (digit_not_space x Hx).
  assert (E1 : N.eqb x (ch "-") = false) by (apply N.eqb_neq; intros ->; discriminate Hx).
  assert (E2 : N.eqb x (ch "+") = false) by (apply N.eqb_neq; intros ->; discriminate Hx).
  rewrite E1, E2, Hx. reflexivity.
Qed.

(** On digits the check of [main] is a comparison of their value with 255,
    whatever their number: a value that the double cannot hold exactly is
    far above 255, and so is the double. *)
Lemma octet_check_digits p :
  p <> [] -> Forall (fun x => is_digit x = true) p ->
  octet_check p = (digits_value 0 p <=? 255)%Z.
Proof.
  intros Hne Fp. unfold octet_check. cbv zeta.
  rewrite parseInt10_digits by assumption.
  pose proof (digits_value_nonneg p 0%Z ltac:(lia)) as Hv.
  unfold to_number.
  destruct (Z.lt_ge_cases (digits_value 0 p) (2 ^ 53)) as [S|B].
  - rewrite round_double_small by exact S. cbn [number_geb number_leb].
    apply Z.leb_le in Hv. rewrite Hv. reflexivity.
  - pose proof (round_double_large _ B) as R.
    assert (F : (digits_value 0 p <=? 255)%Z = false).
    { apply Z.leb_gt. change (2 ^ 53)%Z with 9007199254740992%Z in B. lia. }
    rewrite F.
    destruct (round_double (digits_value 0 p)) as [v|]; cbn [number_geb number_leb].
    + change (2 ^ 53)%Z with 9007199254740992%Z in R.
      assert (F' : (v <=? 255)%Z = false) by (apply Z.leb_gt; lia).
      rewrite F'. apply andb_false_r.
    + reflexivity.
Qed.

Lemma part_shape_ne p : part_shape p -> p <> [].
Proof. intros [_ L]. destruct p; simpl in L; [lia | discriminate]. Qed.

Lemma part_no_dot p : part_shape p -> Forall (fun x => N.eqb x (ch ".") = false) p.
Proof.
  intros [F _]. eapply Forall_impl; [|exact F]. intros x. apply digit_not_dot.
Qed.

Lemma split_quad p1 p2 p3 p4 :
  part_shape p1 -> part_shape p2 -> part_shape p3 -> part_shape p4 ->
  split (ch ".") (quad p1 p2 p3 p4) = [p1; p2; p3; p4].
Proof.
  intros H1 H2 H3 H4. unfold quad. cbn [lit list_ascii_of_string map app].
  rewrite !split_app_sep, split_no_sep by (apply part_no_dot; assumption).
  reflexivity.
Qed.

Lemma m_Bos_start {R} aft c (k : cursor -> caps -> option R) :
  m Bos {| before := []; after := aft |} c k = k {| before := []; after := aft |} c.
Proof. reflexivity. Qed.

Lemma m_Eos_end {R} bef c (k : cursor -> caps -> option R) :
  m Eos {| before := bef; after := [] |} c k = k {| before := bef; after := [] |} c.
Proof. reflexivity. Qed.

Lemma ipv4Regex_matches p1 p2 p3 p4 :
  part_shape p1 -> part_shape p2 -> part_shape p3 -> part_shape p4 ->
  test KmsSyncRev.ipv4Regex (quad p1 p2 p3 p4) = true.
Proof.
  intros [F1 L1] [F2 L2] [F3 L3] [F4 L4].
  unfold test. rewrite search_unfold.
  assert (E : exists res,
            match_at KmsSyncRev.ipv4Regex
              {| before := []; after := quad p1 p2 p3 p4 |} = Some res).
  { unfold quad. rewrite <- (app_nil_r p4).
    eexists. unfold match_at, KmsSyncRev.ipv4Regex, chr.
    cbn [lit list_ascii_of_string map app].
    rewrite m_Seq, m_Bos_start.
    rewrite m_Seq, m_Grp. apply m_rep13; [exact F1 | exact L1 | reflexivity |].
    cbv beta. rewrite m_Seq, m_Cls_cons, N.eqb_refl.
    rewrite m_Seq, m_Grp. apply m_rep13; [exact F2 | exact L2 | reflexivity |].
    cbv beta. rewrite m_Seq, m_Cls_cons, N.eqb_refl.
    rewrite m_Seq, m_Grp. apply m_rep13; [exact F3 | exact L3 | reflexivity |].
    cbv beta. rewrite m_Seq, m_Cls_cons, N.eqb_refl.
    rewrite m_Seq, m_Grp.
    apply m_rep13; [exact F4 | exact L4 | exact I |].
    cbv beta. rewrite m_Eos_end. reflexivity. }
  destruct E as (res & ->). reflexivity.
Qed.

Lemma ipv4Regex_sound s :
  test KmsSyncRev.ipv4Regex s = true ->
  exists p1 p2 p3 p4,
    s = quad p1 p2 p3 p4 /\
    part_shape p1 /\ part_shape p2 /\ part_shape p3 /\ part_shape p4.
Proof.
  unfold test. destruct (search _ _ _) as [res|] eqn:E; [|discriminate].
  intros _. apply search_sound in E. destruct E as (pre & rest & Es & HM).
  unfold KmsSyncRev.ipv4Regex in HM.
  apply Match_Seq_inv in HM. destruct HM as (z0 & c0 & Hb & HM).
  apply Match_Bos_inv in Hb. destruct Hb as (-> & -> & Hpre).
  cbn [before] in Hpre. rewrite app_nil_r in Hpre.
  assert (pre = []) by (destruct pre; [reflexivity|];
    cbn [rev] in Hpre; destruct (rev pre); discriminate Hpre).
  subst pre. cbn [app] in Es. subst rest.
  repeat match type of HM with
  | Match (Grp _ _ >> _) _ _ _ _ =>
      apply Match_Seq_inv in HM;
      let z := fresh "z" in let c := fresh "c" in
      let Hg := fresh "Hg" in let M := fresh "M" in let w := fresh "w" in
      let F := fresh "F" in let L := fresh "L" in
      destruct HM as (z & c & Hg & HM);
      apply Match_Grp_inv in Hg; destruct Hg as (? & Hg & ->);
      apply Match_rep13_inv in Hg; destruct Hg as (-> & w & M & F & L)
  | Match (chr _ >> _) _ _ _ _ =>
      apply Match_Seq_inv in HM;
      let z := fresh "z" in let c := fresh "c" in
      let Hd := fresh "Hd" in let x := fresh "x" in
      let Hx := fresh "Hx" in let Mx := fresh "Mx" in
      destruct HM as (z & c & Hd & HM);
      apply Match_Cls_inv in Hd; destruct Hd as (x & Hx & Mx & ->);
      apply N.eqb_eq in Hx; subst x
  end.
  apply Match_Eos_inv in HM. destruct HM as (_ & _ & Hend).
  exists w, w0, w1, w2.
  split; [|repeat split; first [assumption | lia]].
  destruct M as [A1 _], Mx as [A2 _], M0 as [A3 _], Mx0 as [A4 _],
    M1 as [A5 _], Mx1 as [A6 _], M2 as [A7 _].
  cbn [after] in A1. rewrite A1, A2, A3, A4, A5, A6, A7, Hend.
  unfold quad. cbn [lit list_ascii_of_string map app].
  rewrite app_nil_r. reflexivity.
Qed.

Lemma isValidIpAddress_quad s :
  KmsSyncRev.isValidIpAddress s = true <->
  exists p1 p2 p3 p4,
    s = p1 ++ lit "." ++ p2 ++ lit "." ++ p3 ++ lit "." ++ p4 /\
    octet p1 = true /\ octet p2 = true /\ octet p3 = true /\ octet p4 = true.
Proof.
  assert (O : forall p, octet p = true <->
                        part_shape p /\ (digits_value 0 p <=? 255)%Z = true).
  { intros p. unfold octet, part_shape.
    rewrite !andb_true_iff, !Nat.leb_le, forallb_forall, Forall_forall. tauto. }
  assert (V : forall p1 p2 p3 p4,
             part_shape p1 -> part_shape p2 -> part_shape p3 -> part_shape p4 ->
             KmsSyncRev.isValidIpAddress (quad p1 p2 p3 p4) =
             (digits_value 0 p1 <=? 255)%Z && (digits_value 0 p2 <=? 255)%Z &&
             (digits_value 0 p3 <=? 255)%Z && (digits_value 0 p4 <=? 255)%Z).
  { intros p1 p2 p3 p4 H1 H2 H3 H4. unfold KmsSyncRev.isValidIpAddress.
    rewrite ipv4Regex_matches by assumption. cbn [negb].
    rewrite split_quad by assumption.
    change (forallb _ [p1; p2; p3; p4]) with
      (octet_check p1 && (octet_check p2 && (octet_check p3 && (octet_check p4 && true)))).
    rewrite !octet_check_digits by
      (first [apply part_shape_ne; assumption | match goal with H : part_shape ?p |- Forall _ ?p => exact (proj1 H) end]).
    rewrite andb_true_r, !andb_assoc. reflexivity. }
  split.
  - intros H.
    assert (T : test KmsSyncRev.ipv4Regex s = true).
    { unfold KmsSyncRev.isValidIpAddress in H.
      destruct (test KmsSyncRev.ipv4Regex s); [reflexivity | discriminate H]. }
    destruct (ipv4Regex_sound s T) as (p1 & p2 & p3 & p4 & -> & H1 & H2 & H3 & H4).
    rewrite V in H by assumption. rewrite !andb_true_iff in H.
    exists p1, p2, p3, p4. split; [reflexivity|]. rewrite !O. tauto.
  - intros (p1 & p2 & p3 & p4 & -> & H1 & H2 & H3 & H4).
    apply O in H1, H2, H3, H4.
    change (p1 ++ lit "." ++ p2 ++ lit "." ++ p3 ++ lit "." ++ p4) with (quad p1 p2 p3 p4).
    rewrite V by tauto. rewrite !andb_true_iff. tauto.
Qed.

(** X1. [isValidIpAddress] accepts exactly the strings made of four parts
    separated by dots, each of one to three decimal digits with a value of
    at most 255. *)
Theorem X1_isValidIpAddress_dotted_quad s :
  KmsSyncRev.isValidIpAddress s = true <->
  exists p1 p2 p3 p4,
    s = p1 ++ lit "." ++ p2 ++ lit "." ++ p3 ++ lit "." ++ p4 /\
    octet p1 = true /\ octet p2 = true /\ octet p3 = true /\ octet p4 = true.
Proof. apply isValidIpAddress_quad. Qed.

(* ---------- no duplicates ---------- *)
Lemma set_add_NoDup s set : NoDup set -> NoDup (set_add s set).
Proof.
  intros H. unfold set_add. destruct (existsb (str_eqb s) set) eqn:E; [exact H|].
  apply NoDup_app; [exact H | repeat constructor; intros [] |].
  intros x Hx [<-|[]].
  assert (T : existsb (str_eqb s) set = true).
  { apply existsb_exists. exists s. split; [exact Hx | apply str_eqb_eq; reflexivity]. }
  congruence.
Qed.

Lemma exec_loop_NoDup pat : forall fuel z servers out,
  exec_loop fuel pat z servers = Some out -> NoDup servers -> NoDup out.
Proof.
  induction fuel as [|fuel IH]; intros z servers out H Hn; [discriminate|].
  rewrite exec_loop_S in H.
  destruct (regex_exec (program pat) z) as [mt|]; [|inversion H; subst; exact Hn].
  cbv zeta in H.
  destruct (length (after (m_end mt)) <? length (after z)); [|discriminate].
  apply IH in H; [exact H|].
  destruct (isLikelyKmsServer _); [apply set_add_NoDup|]; exact Hn.
Qed.

Lemma fold_patterns_NoDup text pats : forall servers out,
  fold_left (pattern_step text) pats (Some servers) = Some out ->
  NoDup servers -> NoDup out.
Proof.
  induction pats as [|pat pats IH]; intros servers out H Hn.
  - inversion H; subst. exact Hn.
  - rewrite fold_patterns_cons in H.
    destruct (exec_loop (S (length text)) pat (start_of text) servers) as [s1|] eqn:E.
    + apply (IH _ _ H). eapply exec_loop_NoDup; eauto.
    + rewrite fold_patterns_none in H. discriminate.
Qed.

Lemma fold_specific_NoDup text l : forall servers,
  NoDup servers -> NoDup (fold_left (add_specific text) l servers).
Proof.
  induction l as [|s l IH]; intros servers Hn; [exact Hn|].
  cbn [fold_left]. apply IH. unfold add_specific.
  destruct (includes text _); [apply set_add_NoDup|]; exact Hn.
Qed.

(** X2. [extractKmsServers] returns no server twice. *)
Theorem X2_extract_no_duplicates text out :
  extractKmsServers text = Some out -> NoDup out.
Proof.
  intros H. apply extractKmsServers_Some in H. destruct H as (servers & E & ->).
  apply fold_specific_NoDup. unfold run_patterns in E.
  eapply fold_patterns_NoDup; [exact E | constructor].
Qed.

Lemma X2_extract_no_duplicates_witness : NoDup [lit "kms.a.b:1688"; lit "c.d:1688"].
Proof.
  apply (X2_extract_no_duplicates (lit "kms.a.b c.d kms.a.b")).
  vm_compute. reflexivity.
Defined.

(* ---------- candidates ---------- *)
(** X3. [getKmsServersFromIssue] always returns, and never the empty
    list: it returns the fallback list, or what extraction found in the
    body of the issue. *)
Theorem X3_candidates_never_empty w :
  exists servers,
    getKmsServersFromIssue w = Some servers /\ servers <> [] /\
    (servers = useFallbackKmsServers \/
     exists body, issue w = FetchResponse true (JsonIssue (Some body)) /\
                  extractKmsServers body = Some servers).
Proof.
  unfold getKmsServersFromIssue.
  destruct (issue w) as [|[|] [|body]];
    try (exists useFallbackKmsServers; split; [reflexivity|];
         split; [discriminate | left; reflexivity]).
  destruct (extractKmsServers_total (if truthy body then tmpl body else []))
    as (out & E). rewrite E.
  destruct out as [|s out].
  - exists useFallbackKmsServers. split; [reflexivity|].
    split; [discriminate | left; reflexivity].
  - exists (s :: out). split; [reflexivity|]. split; [discriminate|].
    destruct body as [[|c body]|]; cbn [truthy tmpl] in E.
    + vm_compute in E. discriminate.
    + right. exists (c :: body). split; [reflexivity | exact E].
    + vm_compute in E. discriminate.
Qed.

(* ---------- validate membership ---------- *)
Lemma probe_results_In exec servers : forall i s,
  In (s, true) (probe_results_from exec i servers) <->
  exists j, nth_error servers j = Some s /\ probe exec (i + j) s = true.
Proof.
  induction servers as [|x rest IH]; intros i s; cbn [probe_results_from In].
  - split; [intros [] | intros (j & H & _); destruct j; discriminate].
  - rewrite IH. split.
    + intros [H|(j & Hj & Hp)].
      * inversion H; subst. exists 0. rewrite Nat.add_0_r. split; [reflexivity | auto].
      * exists (S j). split; [exact Hj|]. rewrite Nat.add_succ_r. exact Hp.
    + intros ([|j] & Hj & Hp).
      * cbn in Hj. inversion Hj; subst. rewrite Nat.add_0_r in Hp. left.
        rewrite Hp. reflexivity.
      * right. exists j. split; [exact Hj|]. rewrite Nat.add_succ_r in Hp. exact Hp.
Qed.

(** X8. [validateKmsServers] returns a server exactly when the probe of
    one of its occurrences in the input succeeded. *)
Theorem X8_validate_membership exec servers s :
  In s (validateKmsServers exec servers) <->
  exists i, nth_error servers i = Some s /\ probe exec i s = true.
Proof.
  rewrite validateKmsServers_results, in_map_iff.
  unfold probe_results. split.
  - intros ([s' r] & E & H). cbn in E. subst s'. apply filter_In in H.
    destruct H as [H Hr]. cbn in Hr. subst r.
    apply probe_results_In in H. exact H.
  - intros H. exists (s, true). split; [reflexivity|].
    apply filter_In. split; [|reflexivity]. apply probe_results_In. exact H.
Qed.

Lemma startsWith_split sub : forall s,
  startsWith sub s = true -> exists b, s = sub ++ b.
Proof.
  induction sub as [|x sub IH]; intros s H; [exists s; reflexivity|].
  destruct s as [|y s]; [discriminate|]. cbn [startsWith] in H.
  apply andb_true_iff in H. destruct H as [E H]. apply N.eqb_eq in E. subst y.
  destruct (IH s H) as (b & ->). exists b. reflexivity.
Qed.

Lemma includes_split s : forall sub,
  includes s sub = true -> exists a b, s = a ++ sub ++ b.
Proof.
  induction s as [|c s IH]; intros sub H; cbn [includes] in H;
    apply orb_true_iff in H; destruct H as [H|H].
  - apply startsWith_split in H. destruct H as (b & E). exists [], b. exact E.
  - discriminate.
  - apply startsWith_split in H. destruct H as (b & E). exists [], b. exact E.
  - destruct (IH sub H) as (a & b & ->). exists (c :: a), b. reflexivity.
Qed.

Lemma startsWith_app sub b : startsWith sub (sub ++ b) = true.
Proof.
  induction sub as [|x sub IH]; [reflexivity|].
  cbn [app startsWith]. rewrite N.eqb_refl, IH. reflexivity.
Qed.

Lemma includes_app a : forall sub b, includes (a ++ sub ++ b) sub = true.
Proof.
  induction a as [|c a IH]; intros sub b.
  - cbn [app]. destruct (sub ++ b) eqn:E; cbn [includes]; rewrite <- ?E;
      rewrite startsWith_app; reflexivity.
  - cbn [app includes]. rewrite IH. apply orb_true_r.
Qed.

Lemma m_stri_forward {R} l : forall w bef rest c (k : cursor -> caps -> option R),
  map canon w = map canon l ->
  m (stri l) {| before := bef; after := w ++ rest |} c k =
  k {| before := rev w ++ bef; after := rest |} c.
Proof.
  induction l as [|e l IH]; intros w bef rest c k E.
  - destruct w; [reflexivity | discriminate].
  - destruct w as [|x w]; [discriminate|]. cbn [map] in E.
    injection E as Ex Ew.
    change (stri (e :: l)) with (chri e >> stri l).
    rewrite m_Seq. cbn [app]. unfold chri at 1. rewrite m_Cls_cons.
    rewrite Ex, N.eqb_refl. rewrite IH by exact Ew.
    cbn [rev]. rewrite <- app_assoc. reflexivity.
Qed.

Lemma search_finds r a : forall bef rest res,
  match_at r {| before := rev a ++ bef; after := rest |} = Some res ->
  exists res', search r bef (a ++ rest) = Some res'.
Proof.
  induction a as [|x a IH]; intros bef rest res H; rewrite search_unfold.
  - cbn [rev app] in H |- *. rewrite H. eauto.
  - cbn [app].
    destruct (match_at r {| before := bef; after := x :: a ++ rest |}) as [r0|];
      [eauto|].
    apply (IH (x :: bef) rest res).
    cbn [rev] in H. rewrite <- app_assoc in H. exact H.
Qed.

Lemma stri_occurs l s : includes_ci s l = true -> test (stri l) s = true.
Proof.
  unfold includes_ci. intros H. apply includes_split in H.
  destruct H as (a' & b' & E).
  apply map_eq_app in E. destruct E as (a & r & -> & _ & E).
  apply map_eq_app in E. destruct E as (w & b & -> & Ew & _).
  unfold test.
  destruct (search_finds (stri l) a [] (w ++ b)
              {| m_end := {| before := rev w ++ rev a ++ []; after := b |};
                 m_groups := no_caps |}) as (res & ->); [|reflexivity].
  unfold match_at. rewrite m_stri_forward by exact Ew. reflexivity.
Qed.

Lemma str_occurs l s : includes s l = true -> test (str l) s = true.
Proof.
  intros H. apply includes_split in H. destruct H as (a & b & ->).
  unfold test.
  destruct (search_finds (str l) a [] (l ++ b)
              {| m_end := {| before := rev l ++ rev a ++ []; after := b |};
                 m_groups := no_caps |}) as (res & ->); [|reflexivity].
  unfold match_at. rewrite m_str. reflexivity.
Qed.

Lemma likely_not_denied server pattern :
  isLikelyKmsServer server = true -> In pattern notKmsPatterns ->
  test pattern server = false.
Proof.
  unfold isLikelyKmsServer. intros L Hp.
  destruct (existsb (fun p => test p server) notKmsPatterns) eqn:E; [discriminate|].
  apply (existsb_false_In _ _ pattern E Hp).
Qed.

(** X4. No server that [extractKmsServers] returns contains github.com,
    example.com, localhost or test. in any letter case, nor 127.0.0.1. *)
Theorem X4_denied_substrings_never_extracted text out server :
  extractKmsServers text = Some out -> In server out ->
  includes_ci server (lit "github.com") = false /\
  includes_ci server (lit "example.com") = false /\
  includes_ci server (lit "localhost") = false /\
  includes server (lit "127.0.0.1") = false /\
  includes_ci server (lit "test.") = false.
Proof.
  intros He Hs. destruct (extracted_from _ _ _ He Hs) as [L|[Hspec _]].
  - repeat split; apply not_true_is_false; intros H;
      [ apply stri_occurs in H | apply stri_occurs in H | apply stri_occurs in H
      | apply str_occurs in H | apply stri_occurs in H ];
      rewrite likely_not_denied in H; try discriminate H; try exact L;
      unfold notKmsPatterns; cbn [In]; tauto.
  - destruct Hspec as [<-|[<-|[<-|[]]]]; repeat split; vm_compute; reflexivity.
Qed.

Lemma X4_denied_substrings_never_extracted_witness :
  includes_ci (lit "kms.a.b:1688") (lit "github.com") = false.
Proof.
  apply (X4_denied_substrings_never_extracted
           (lit "GitHub.com/x kms.a.b") [lit "kms.a.b:1688"] (lit "kms.a.b:1688")).
  - vm_compute. reflexivity.
  - simpl. left. reflexivity.
Defined.

Lemma occurs_shift s a text : occurs s text -> occurs s (a ++ text).
Proof.
  intros (a' & b & ->). exists (a ++ a'), b. rewrite <- app_assoc. reflexivity.
Qed.

Lemma occurs_prefix s b : occurs s (s ++ b).
Proof. exists [], b. reflexivity. Qed.

Lemma taken_from_shift text server a :
  taken_from text server -> taken_from (a ++ text) server.
Proof.
  intros [H|(h & E & Hne & H)]; [left | right; exists h; repeat split; auto];
    apply occurs_shift; exact H.
Qed.

Lemma Match_peel_moved a b z c z' c' :
  no_group a -> Match (a >> b) z c z' c' ->
  exists z1 w, moved z w z1 /\ Match b z1 c z' c'.
Proof.
  intros Hg H. apply Match_Seq_inv in H. destruct H as (z1 & c1 & Ha & Hb).
  destruct (Match_moved _ _ _ _ _ Ha) as (w & Mw & _).
  apply Match_no_group in Ha; [|exact Hg]. subst c1. eauto.
Qed.

Lemma taken_peel a b z c z' c' server :
  no_group a -> Match (a >> b) z c z' c' ->
  (forall z1, Match b z1 c z' c' -> taken_from (after z1) server) ->
  taken_from (after z) server.
Proof.
  intros Hg H K. apply Match_peel_moved in H; [|exact Hg].
  destruct H as (z1 & w & [Aw _] & H). rewrite Aw.
  apply taken_from_shift. apply K. exact H.
Qed.

Lemma group2_taken pat hostre z z' c' :
  no_group hostre -> chars_within hostP hostre -> 1 <= minlen hostre ->
  Match (WordB >> Grp 1 hostre >> port_group2 >> WordB) z no_caps z' c' ->
  taken_from (after z)
    (server_of_match pat {| m_end := z'; m_groups := c' |}).
Proof.
  intros Hg Hc Hmin H.
  apply Match_Seq_inv in H. destruct H as (z1 & c1 & Hb & H).
  apply Match_WordB_inv in Hb. destruct Hb as [-> ->].
  apply Match_Seq_inv in H. destruct H as (z2 & c2 & H1 & H).
  apply Match_Grp_inv in H1. destruct H1 as (c1 & H1 & ->).
  destruct (Match_plain hostP _ _ _ _ _ Hg Hc H1) as (-> & h & Mh & Fh & Lh).
  rewrite (moved_between _ _ _ Mh) in H.
  apply Match_Seq_inv in H. destruct H as (z3 & c3 & H2 & Hb).
  apply Match_WordB_inv in Hb. destruct Hb as [Ez Ec]. subst z3 c3.
  assert (Hne : h <> []) by (apply nonempty_length; lia).
  destruct Mh as [Ah _].
  unfold port_group2, Opt in H2.
  apply Match_Alt_inv in H2. destruct H2 as [H2|H2].
  - apply Match_Seq_inv in H2. destruct H2 as (z4 & c4 & Hcolon & H2).
    apply Match_Cls_inv in Hcolon. destruct Hcolon as (x & Hx & [Ax _] & ->).
    apply N.eqb_eq in Hx. subst x.
    apply Match_Grp_inv in H2. destruct H2 as (c5 & H2 & ->).
    destruct (Match_plain digitP (Plus (Cls is_digit)) _ _ _ _ (conj I I)
                chars_plus_digit H2) as (-> & d & Md & Fd & Ld).
    rewrite (moved_between _ _ _ Md). destruct Md as [Ad _].
    assert (Hd : d <> []) by (apply nonempty_length; exact Ld).
    left. unfold server_of_match; cbv zeta.
    cbn [m_groups set_cap Nat.eqb tmpl].
    replace (truthy (Some d)) with true by (destruct d; [congruence | reflexivity]).
    assert (O : occurs (h ++ lit ":" ++ d) (after z)).
    { exists [], (after z'). rewrite Ah, Ax, Ad. cbn [app lit list_ascii_of_string map].
      rewrite <- app_assoc. reflexivity. }
    destruct (includes (source pat) _); exact O.
  - apply Match_Eps_inv in H2. destruct H2 as [Ez Ec]. subst z2 c'.
    right. exists h. unfold server_of_match; cbv zeta.
    cbn [m_groups set_cap Nat.eqb no_caps tmpl truthy].
    rewrite (includes_colon_false h Fh).
    split; [destruct (includes (source pat) _); reflexivity|].
    split; [exact Hne|]. exists [], (after z'). exact Ah.
Qed.

Lemma inline_taken pat hostre z z' c' :
  includes (source pat) (lit "\d{1,3}\.\d{1,3}") = false ->
  no_group hostre -> chars_within hostP hostre -> 1 <= minlen hostre ->
  Match (Grp 1 (hostre >> port_inline)) z no_caps z' c' ->
  taken_from (after z)
    (server_of_match pat {| m_end := z'; m_groups := c' |}).
Proof.
  intros Es Hg Hc Hmin H.
  pose proof (groups_port_inline hostre z z' c' Hg Hc Hmin H)
    as (E2 & h & Hne & Fh & E1).
  apply Match_Grp_inv in H. destruct H as (c1 & H & Ec).
  destruct (Match_moved _ _ _ _ _ H) as (w & Mw & _).
  rewrite (moved_between _ _ _ Mw) in Ec. subst c'.
  cbv [set_cap Nat.eqb] in E1. destruct Mw as [Aw _].
  unfold server_of_match; cbv zeta. rewrite Es.
  cbn [m_groups]. rewrite E2. cbn [truthy set_cap Nat.eqb tmpl].
  destruct E1 as [E1|(d & E1 & Hd & Fd)]; injection E1 as ->.
  - rewrite (includes_colon_false h Fh). right. exists h.
    split; [reflexivity|]. split; [exact Hne|]. exists [], (after z'). exact Aw.
  - change (h ++ 58%N :: d) with (h ++ lit ":" ++ d) in *.
    rewrite includes_colon_true. left. exists [], (after z'). exact Aw.
Qed.

Lemma marker_server :
  includes (source server_pattern) (lit "\d{1,3}\.\d{1,3}") = false.
Proof. vm_compute. reflexivity. Qed.

Lemma regexPatterns_taken pat z mt :
  In pat regexPatterns ->
  regex_exec (program pat) z = Some mt ->
  taken_from (after z) (server_of_match pat mt) /\
  exists a, after z = a ++ after (m_end mt).
Proof.
  intros Hin H. apply regex_exec_sound in H.
  destruct H as (pre & rest & w & Ez & HM & [Aw _] & _).
  cbn [after] in Aw. split.
  2:{ exists (pre ++ w). rewrite Ez, Aw, <- app_assoc. reflexivity. }
  rewrite Ez. apply taken_from_shift.
  destruct mt as [zend cend]. cbn [m_end m_groups] in HM.
  change rest with (after {| before := rev pre ++ before z; after := rest |}).
  destruct Hin as [<-|[<-|[<-|[<-|[]]]]]; cbn [program label_pattern domain_pattern
    ip_pattern server_pattern] in HM.
  - do 4 (eapply taken_peel; [| exact HM |]; [simpl; tauto|]; clear HM; intros ? HM).
    apply (inline_taken label_pattern (Plus (Cls is_hostch)));
      [exact marker_label | simpl; tauto | exact chars_plus_hostch | simpl; lia
      | exact HM].
  - apply (group2_taken domain_pattern domain_re);
      [simpl; tauto | exact chars_domain_re | simpl; lia | exact HM].
  - apply (group2_taken ip_pattern ipv4_re);
      [simpl; tauto | exact chars_ipv4_re | simpl; lia | exact HM].
  - do 2 (eapply taken_peel; [| exact HM |]; [simpl; tauto|]; clear HM; intros ? HM).
    apply (inline_taken server_pattern domain_re);
      [exact marker_server | simpl; tauto | exact chars_domain_re | simpl; lia
      | exact HM].
Qed.

Lemma exec_loop_taken text pat : In pat regexPatterns ->
  forall fuel z servers out,
    (exists a, text = a ++ after z) ->
    exec_loop fuel pat z servers = Some out ->
    Forall (taken_from text) servers -> Forall (taken_from text) out.
Proof.
  intros Hpat. induction fuel as [|fuel IH]; intros z servers out (a & Ea) H HF;
    [discriminate|].
  rewrite exec_loop_S in H.
  destruct (regex_exec (program pat) z) as [mt|] eqn:E; [|inversion H; subst; exact HF].
  cbv zeta in H.
  destruct (length (after (m_end mt)) <? length (after z)); [|discriminate].
  destruct (regexPatterns_taken pat z mt Hpat E) as (T & a' & Ea').
  apply IH in H; [exact H | |].
  - exists (a ++ a'). rewrite Ea, Ea', <- app_assoc. reflexivity.
  - destruct (isLikelyKmsServer _); [|exact HF].
    apply Forall_forall. intros x Hx. apply set_add_In in Hx.
    destruct Hx as [->|Hx]; [|rewrite Forall_forall in HF; auto].
    rewrite Ea. apply taken_from_shift. exact T.
Qed.

Lemma fold_patterns_taken text pats :
  (forall pat, In pat pats -> In pat regexPatterns) ->
  forall servers out,
    fold_left (pattern_step text) pats (Some servers) = Some out ->
    Forall (taken_from text) servers -> Forall (taken_from text) out.
Proof.
  induction pats as [|pat pats IH]; intros Hp servers out H HF.
  - inversion H; subst. exact HF.
  - rewrite fold_patterns_cons in H.
    destruct (exec_loop (S (length text)) pat (start_of text) servers) as [s1|] eqn:E.
    + eapply IH in H; [exact H | intros p Hin; apply Hp; right; exact Hin |].
      eapply (exec_loop_taken text pat); [apply Hp; left; reflexivity | | exact E | exact HF].
      exists []. reflexivity.
    + rewrite fold_patterns_none in H. discriminate.
Qed.

Lemma occurs_includes s text : occurs s text <-> includes text s = true.
Proof.
  split.
  - intros (a & b & ->). apply includes_app.
  - intros H. apply includes_split in H. exact H.
Qed.

(** X5. Every server that [extractKmsServers] returns is in the text as
    it stands, or is a host of the text with :1688 appended. *)
Theorem X5_extracted_taken_from_text text out server :
  extractKmsServers text = Some out -> In server out ->
  includes text server = true \/
  exists host,
    server = host ++ lit ":1688" /\ host <> [] /\ includes text host = true.
Proof.
  intros He Hs.
  assert (T : taken_from text server).
  { apply extractKmsServers_Some in He. destruct He as (servers & E & ->).
    apply fold_specific_from in Hs. destruct Hs as [Hs|[Hs Hi]].
    - unfold run_patterns in E. apply fold_patterns_taken in E; [| auto | constructor].
      rewrite Forall_forall in E. auto.
    - right. destruct Hs as [<-|[<-|[<-|[]]]];
        [exists (lit "kms.hmg.pw") | exists (lit "kms.xingez.me")
        | exists (lit "140.246.142.164")];
        (split; [reflexivity|]); (split; [discriminate|]);
        apply occurs_includes; exact Hi. }
  destruct T as [H|(h & E & Hne & H)].
  - left. apply occurs_includes. exact H.
  - right. exists h. repeat split; auto. apply occurs_includes. exact H.
Qed.

Lemma X5_extracted_taken_from_text_witness :
  includes (lit "try kms.a.b:77 or c.d") (lit "c.d:1688") = true \/
  exists host,
    lit "c.d:1688" = host ++ lit ":1688" /\ host <> [] /\
    includes (lit "try kms.a.b:77 or c.d") host = true.
Proof.
  apply (X5_extracted_taken_from_text (lit "try kms.a.b:77 or c.d")
           [lit "kms.a.b:77"; lit "c.d:1688"]).
  - vm_compute. reflexivity.
  - simpl. right. left. reflexivity.
Defined.

Lemma Match_str l : forall z c z' c',
  Match (str l) z c z' c' -> moved z l z' /\ c' = c.
Proof.
  induction l as [|e l IH]; intros z c z' c' H.
  - apply Match_Eps_inv in H. destruct H as [-> ->]. split; [apply moved_refl | reflexivity].
  - change (str (e :: l)) with (Cls (N.eqb e) >> str l) in H.
    apply Match_Seq_inv in H. destruct H as (z1 & c1 & H1 & H2).
    apply Match_Cls_inv in H1. destruct H1 as (x & Hx & Mx & ->).
    apply N.eqb_eq in Hx. subst x.
    apply IH in H2. destruct H2 as (Ml & ->).
    split; [apply (moved_trans _ [e] z1); assumption | reflexivity].
Qed.

Lemma chars_plus_nonspace : chars_within nonspaceP (Plus (Cls KmsSyncRevFetch.is_nonspace)).
Proof. unfold nonspaceP. simpl. auto. Qed.

Lemma chars_star_nonspace : chars_within nonspaceP (Star (Cls KmsSyncRevFetch.is_nonspace)).
Proof. unfold nonspaceP. simpl. auto. Qed.

Lemma hostport_groups z z' c' :
  Match (Grp 0 KmsSyncRevFetch.hostport_re) z no_caps z' c' ->
  exists s, c' 0 = Some s /\ entry_shape s.
Proof.
  intros H. apply Match_Grp_inv in H. destruct H as (c1 & H & ->).
  destruct (Match_moved _ _ _ _ _ H) as (w0 & Mw & _).
  rewrite (moved_between _ _ _ Mw). exists w0. split; [reflexivity|].
  unfold KmsSyncRevFetch.hostport_re in H.
  apply Match_Grp_inv in H. destruct H as (c2 & H & _).
  apply Match_Seq_inv in H. destruct H as (z1 & c3 & H1 & H).
  destruct (Match_plain nonspaceP (Plus (Cls KmsSyncRevFetch.is_nonspace)) _ _ _ _ (conj I I)
              chars_plus_nonspace H1) as (_ & w & Mh & Fw & Lw).
  apply Match_Seq_inv in H. destruct H as (z2 & c4 & Hc & H2).
  apply Match_Cls_inv in Hc. destruct Hc as (colon & Hx & Mx & _).
  apply N.eqb_eq in Hx. subst colon.
  destruct (Match_plain digitP (Plus (Cls is_digit)) _ _ _ _ (conj I I)
              chars_plus_digit H2) as (_ & d & Md & Fd & Ld).
  left. exists w, d. split.
  - eapply moved_inj; [exact Mw|].
    eapply moved_trans; [exact Mh|]. eapply (moved_trans _ [ch ":"]); eauto.
  - repeat split; auto; apply nonempty_length; assumption.
Qed.

Lemma kmsname_groups z z' c' :
  Match (Grp 0 KmsSyncRevFetch.kmsname_re) z no_caps z' c' ->
  exists s, c' 0 = Some s /\ entry_shape s.
Proof.
  intros H. apply Match_Grp_inv in H. destruct H as (c1 & H & ->).
  destruct (Match_moved _ _ _ _ _ H) as (w0 & Mw & _).
  rewrite (moved_between _ _ _ Mw). exists w0. split; [reflexivity|].
  unfold KmsSyncRevFetch.kmsname_re in H.
  apply Match_Seq_inv in H. destruct H as (z1 & c2 & H1 & H).
  apply Match_str in H1. destruct H1 as (Mk & ->).
  apply Match_Seq_inv in H. destruct H as (z2 & c3 & H2 & H).
  destruct (Match_plain nonspaceP (Star (Cls KmsSyncRevFetch.is_nonspace)) _ _ _ _ I
              chars_star_nonspace H2) as (_ & a & Ma & Fa & _).
  apply Match_Seq_inv in H. destruct H as (z3 & c4 & Hc & H3).
  apply Match_Cls_inv in Hc. destruct Hc as (dot & Hx & Mx & _).
  apply N.eqb_eq in Hx. subst dot.
  destruct (Match_plain nonspaceP (Plus (Cls KmsSyncRevFetch.is_nonspace)) _ _ _ _ (conj I I)
              chars_plus_nonspace H3) as (_ & b & Mb & Fb & Lb).
  right. exists a, b. split.
  - eapply moved_inj; [exact Mw|].
    eapply moved_trans; [exact Mk|]. eapply moved_trans; [exact Ma|].
    eapply (moved_trans _ [ch "."]); eauto.
  - repeat split; auto. apply nonempty_length. exact Lb.
Qed.

Lemma match_loop_S fuel r z found :
  KmsSyncRevFetch.match_loop (S fuel) r z found =
  match regex_exec (Grp 0 r) z with
  | None => Some found
  | Some mt =>
      if length (after (m_end mt)) <? length (after z)
      then KmsSyncRevFetch.match_loop fuel r (m_end mt) (found ++ [tmpl (m_groups mt 0)])
      else None
  end.
Proof. reflexivity. Qed.

Lemma match_loop_total r : 1 <= minlen r ->
  forall fuel z found, length (after z) < fuel ->
    exists out, KmsSyncRevFetch.match_loop fuel r z found = Some out.
Proof.
  intros Hmin. induction fuel as [|fuel IH]; intros z found Hf; [lia|].
  rewrite match_loop_S.
  destruct (regex_exec (Grp 0 r) z) as [mt|] eqn:E; [|eauto].
  assert (Hp : length (after (m_end mt)) < length (after z))
    by (apply (regex_exec_progress (Grp 0 r)); [exact Hmin | exact E]).
  apply Nat.ltb_lt in Hp as Hp'. rewrite Hp'. apply IH. lia.
Qed.

Lemma match_loop_shape r :
  (forall z z' c', Match (Grp 0 r) z no_caps z' c' ->
                   exists s, c' 0 = Some s /\ entry_shape s) ->
  forall fuel z found out,
    KmsSyncRevFetch.match_loop fuel r z found = Some out ->
    Forall entry_shape found -> Forall entry_shape out.
Proof.
  intros Hr. induction fuel as [|fuel IH]; intros z found out H HF; [discriminate|].
  rewrite match_loop_S in H.
  destruct (regex_exec (Grp 0 r) z) as [mt|] eqn:E; [|inversion H; subst; exact HF].
  destruct (length (after (m_end mt)) <? length (after z)); [|discriminate].
  apply IH in H; [exact H|]. apply Forall_app. split; [exact HF|].
  constructor; [|constructor].
  apply regex_exec_sound in E. destruct E as (pre & rest & w & _ & HM & _ & _).
  apply Hr in HM. destruct HM as (s & -> & Hs). exact Hs.
Qed.

Lemma nonspace_not_space s :
  entry_shape s -> s <> [] /\ forallb KmsSyncRevFetch.is_nonspace s = true.
Proof.
  assert (D : forall d, Forall digitP d -> Forall nonspaceP d).
  { intros d. apply Forall_impl. intros x Hx. unfold nonspaceP, KmsSyncRevFetch.is_nonspace.
    rewrite (digit_not_space x Hx). reflexivity. }
  assert (B : forall l, Forall nonspaceP l -> forallb KmsSyncRevFetch.is_nonspace l = true).
  { intros l Hl. apply forallb_forall. rewrite Forall_forall in Hl. exact Hl. }
  intros [(w & d & -> & Hw & Fw & Hd & Fd)|(a & b & -> & Fa & Hb & Fb)].
  - split; [destruct w; [congruence | discriminate]|].
    rewrite !forallb_app, (B w Fw), (B d (D d Fd)). reflexivity.
  - split; [discriminate|].
    rewrite !forallb_app, (B a Fa), (B b Fb). reflexivity.
Qed.

(** X13. [fetchKmsServersFromGithub] always returns; each entry is not
    empty, holds no white space, and is something, a colon and digits, or
    begins with kms and holds a dot followed by something. *)
Theorem X13_rev_fetch_entries issue exec cf :
  exists fetched,
    KmsSyncRevFetch.fetchKmsServersFromGithub issue = Some fetched /\
    KmsSyncRevFetch.run issue exec cf = Some (KmsSyncRev.main fetched exec cf) /\
    forall s, In s fetched ->
      s <> [] /\ forallb KmsSyncRevFetch.is_nonspace s = true /\
      ((exists w d, s = w ++ lit ":" ++ d /\ w <> [] /\ d <> [] /\
                    forallb is_digit d = true) \/
       (exists a b, s = lit "kms" ++ a ++ lit "." ++ b /\ b <> [])).
Proof.
  assert (T : exists fetched,
            KmsSyncRevFetch.fetchKmsServersFromGithub issue = Some fetched /\
            Forall entry_shape fetched).
  { unfold KmsSyncRevFetch.fetchKmsServersFromGithub.
    destruct issue as [|[|] [|[body|]]]; try (exists []; split; [reflexivity | constructor]).
    unfold KmsSyncRevFetch.patterns. cbn [fold_left]. unfold KmsSyncRevFetch.push_matches, KmsSyncRevFetch.match_all.
    destruct (match_loop_total KmsSyncRevFetch.hostport_re ltac:(vm_compute; lia)
                (S (length body)) (start_of body) []) as (m1 & E1); [simpl; lia|].
    destruct (match_loop_total KmsSyncRevFetch.kmsname_re ltac:(vm_compute; lia)
                (S (length body)) (start_of body) []) as (m2 & E2); [simpl; lia|].
    rewrite E1, E2. eexists. split; [reflexivity|].
    apply Forall_app. split.
    - apply (match_loop_shape _ hostport_groups _ _ _ _ E1). constructor.
    - apply (match_loop_shape _ kmsname_groups _ _ _ _ E2). constructor. }
  destruct T as (fetched & E & HF). exists fetched. split; [exact E|].
  split; [unfold KmsSyncRevFetch.run; rewrite E; reflexivity|].
  intros s Hs. rewrite Forall_forall in HF. specialize (HF s Hs).
  destruct (nonspace_not_space s HF) as (Hne & Hns).
  split; [exact Hne|]. split; [exact Hns|].
  destruct HF as [(w & d & -> & Hw & Fw & Hd & Fd)|(a & b & -> & Fa & Hb & Fb)].
  - left. exists w, d. repeat split; auto.
    apply forallb_forall. rewrite Forall_forall in Fd. exact Fd.
  - right. exists a, b. auto.
Qed.

Lemma Forall2_canon_map w l :
  Forall2 (fun x e => canon x = canon e) w l -> map canon w = map canon l.
Proof. induction 1; cbn [map]; congruence. Qed.

Lemma stri_found l s : test (stri l) s = true -> includes_ci s l = true.
Proof.
  unfold test. destruct (search _ _ _) as [res|] eqn:E; [|discriminate].
  intros _. apply search_sound in E. destruct E as (pre & rest & -> & HM).
  apply Match_stri in HM. destruct HM as (w & [Aw _] & Fw).
  cbn [after] in Aw. rewrite Aw. unfold includes_ci.
  rewrite !map_app, (Forall2_canon_map _ _ Fw). apply includes_app.
Qed.

Lemma str_found l s : test (str l) s = true -> includes s l = true.
Proof.
  unfold test. destruct (search _ _ _) as [res|] eqn:E; [|discriminate].
  intros _. apply search_sound in E. destruct E as (pre & rest & -> & HM).
  apply Match_str in HM. destruct HM as ([Aw _] & _).
  cbn [after] in Aw. rewrite Aw. apply includes_app.
Qed.

(** X6. A server string of the form host:port that contains kms, vlmcs
    or activate in any letter case and none of the five substrings of the
    denylist passes [isLikelyKmsServer]. *)
Theorem X6_keyword_server_is_likely server :
  endpoint_shape server ->
  includes_ci server (lit "github.com") = false ->
  includes_ci server (lit "example.com") = false ->
  includes_ci server (lit "localhost") = false ->
  includes server (lit "127.0.0.1") = false ->
  includes_ci server (lit "test.") = false ->
  includes_ci server (lit "kms") = true \/
  includes_ci server (lit "vlmcs") = true \/
  includes_ci server (lit "activate") = true ->
  isLikelyKmsServer server = true.
Proof.
  intros Hs D1 D2 D3 D4 D5 K. unfold isLikelyKmsServer.
  assert (N : existsb (fun pattern => test pattern server) notKmsPatterns = false).
  { apply not_true_is_false. intros H. apply existsb_exists in H.
    destruct H as (p & Hp & Ht). unfold notKmsPatterns in Hp. cbn [In] in Hp.
    destruct Hp as [<-|[<-|[<-|[<-|[<-|Hp]]]]].
    - apply stri_found in Ht. congruence.
    - apply stri_found in Ht. congruence.
    - apply stri_found in Ht. congruence.
    - apply str_found in Ht. congruence.
    - apply stri_found in Ht. congruence.
    - rewrite (extension_patterns_never_reject p server) in Ht; [discriminate | | exact Hs].
      cbn [skipn notKmsPatterns In]. exact Hp. }
  rewrite N.
  assert (Y : existsb (fun pattern => test pattern server) kmsPatterns = true).
  { apply existsb_exists. unfold kmsPatterns.
    destruct K as [K|[K|K]]; apply stri_occurs in K;
      eexists; (split; [|exact K]); cbn [In]; auto. }
  rewrite Y. reflexivity.
Qed.

Lemma X6_keyword_server_is_likely_witness :
  isLikelyKmsServer (lit "KMS.Example.org:1688") = true.
Proof.
  apply X6_keyword_server_is_likely; try (vm_compute; reflexivity).
  - apply has_shape_sound. vm_compute. reflexivity.
  - left. vm_compute. reflexivity.
Defined.

Lemma hostch_not_colon x : is_hostch x = true -> N.eqb x (ch ":") = false.
Proof. intros H. apply N.eqb_neq. intros ->. discriminate H. Qed.

Lemma digit_not_colon x : is_digit x = true -> N.eqb x (ch ":") = false.
Proof. intros H. apply hostch_not_colon, digit_hostch, H. Qed.

Lemma split_endpoint host port :
  Forall hostP host -> Forall digitP port ->
  split (ch ":") (host ++ lit ":" ++ port) = [host; port].
Proof.
  intros Fh Fp. cbn [lit list_ascii_of_string map app].
  rewrite split_app_sep, split_no_sep; [reflexivity | |].
  - eapply Forall_impl; [|exact Fp]. intros x. apply digit_not_colon.
  - eapply Forall_impl; [|exact Fh]. intros x. apply hostch_not_colon.
Qed.

Lemma forallb_app_true {A} (f : A -> bool) a b :
  forallb f a = true -> forallb f b = true -> forallb f (a ++ b) = true.
Proof. intros Ha Hb. rewrite forallb_app, Ha, Hb. reflexivity. Qed.

Lemma Forall_forallb {A} (P : A -> Prop) (f : A -> bool) l :
  (forall x, P x -> f x = true) -> Forall P l -> forallb f l = true.
Proof.
  intros H F. apply forallb_forall. rewrite Forall_forall in F. auto.
Qed.

Lemma nc_command_of_endpoint host port :
  Forall hostP host -> Forall digitP port ->
  nc_command (host ++ lit ":" ++ port) =
    lit "nc -zv -w 3 " ++ host ++ lit " " ++ port /\
  forallb plain_char (nc_command (host ++ lit ":" ++ port)) = true /\
  hd [] (split (ch ":") (host ++ lit ":" ++ port)) = host.
Proof.
  intros Fh Fp. unfold nc_command. rewrite split_endpoint by assumption.
  cbn [nth_error tmpl hd]. split; [reflexivity|]. split; [|reflexivity].
  apply forallb_app_true; [reflexivity|].
  apply forallb_app_true.
  - apply (Forall_forallb hostP); [|exact Fh]. intros x Hx. unfold plain_char.
    unfold hostP in Hx. rewrite Hx. reflexivity.
  - apply forallb_app_true; [reflexivity|].
    apply (Forall_forallb digitP); [|exact Fp]. intros x Hx. unfold plain_char.
    rewrite (digit_hostch x Hx). reflexivity.
Qed.

(** X7. For every candidate of a run of main.js, the probe command is
    nc with the host and the port of the candidate, and consists of
    letters, digits, dots, hyphens and spaces only. *)
Theorem X7_probe_command_plain w servers server :
  getKmsServersFromIssue w = Some servers -> In server servers ->
  exists host port,
    server = host ++ lit ":" ++ port /\
    nc_command server = lit "nc -zv -w 3 " ++ host ++ lit " " ++ port /\
    forallb plain_char (nc_command server) = true.
Proof.
  intros Hg Hs. destruct (candidates_shape w servers server Hg Hs)
    as (host & port & -> & _ & Fh & _ & Fp).
  exists host, port. split; [reflexivity|].
  destruct (nc_command_of_endpoint host port Fh Fp) as (E & F & _). auto.
Qed.

Lemma X7_probe_command_plain_witness :
  exists host port,
    lit "kms.hmg.pw:1688" = host ++ lit ":" ++ port /\
    nc_command (lit "kms.hmg.pw:1688") =
      lit "nc -zv -w 3 " ++ host ++ lit " " ++ port /\
    forallb plain_char (nc_command (lit "kms.hmg.pw:1688")) = true.
Proof.
  apply (X7_probe_command_plain dead_world useFallbackKmsServers).
  - reflexivity.
  - simpl. left. reflexivity.
Defined.

(* ---------- main ---------- *)
Lemma validate_select exec servers :
  match validateKmsServers exec servers with
  | [] => Spec.select (probe_results exec servers) = None
  | s :: _ => Spec.select (probe_results exec servers) = Some s
  end.
Proof.
  rewrite <- select_filter, <- validateKmsServers_results.
  destruct (validateKmsServers exec servers); reflexivity.
Qed.

(** X9. A run of main.js sends at most one record write. It is for
    kms.everyhub.top, a CNAME with TTL 120 and not proxied, its content is
    the host of the first candidate whose probe succeeded; it is a PUT on
    the id that the lookup returned, or a POST when the lookup returned no
    id. *)
Theorem X9_main_single_write w run req :
  main w = Some run -> In req (requests run) ->
  exists servers selected,
    getKmsServersFromIssue w = Some servers /\
    Spec.select (probe_results (exec w) servers) = Some selected /\
    requests run = [req] /\
    name req = lit "kms.everyhub.top" /\ rtype req = lit "CNAME" /\
    content req = hd [] (split (ch ":") selected) /\
    ttl req = 120%N /\ proxied req = false /\
    ((method req = lit "POST" /\ target req = None /\
      (cf_lookup w = LookupResponse true None \/
       cf_lookup w = LookupResponse true (Some []))) \/
     (exists id, id <> [] /\ method req = lit "PUT" /\ target req = Some id /\
                 cf_lookup w = LookupResponse true (Some id))).
Proof.
  unfold main. destruct (getKmsServersFromIssue w) as [servers|]; [|discriminate].
  pose proof (validate_select (exec w) servers) as Hsel.
  destruct (validateKmsServers (exec w) servers) as [|s rest].
  - cbn. intros H. inversion H; subst. intros [].
  - cbn [length Nat.ltb Nat.leb selectKmsServer nth_error].
    unfold updateCloudflareRecord, getCloudflareRecordId.
    destruct (cf_lookup w) as [|[|] id].
    + intros H. inversion H; subst. intros [].
    + destruct id as [[|c id]|]; cbn [truthy tmpl];
        unfold updateCloudflareRecordById, createCloudflareRecord;
        intros H; inversion H; subst; cbn [requests In]; intros [<-|[]];
        exists servers, s; repeat split; try reflexivity; try exact Hsel.
      * left. repeat split; auto.
      * right. exists (c :: id). repeat split; try reflexivity. discriminate.
      * left. repeat split; auto.
    + intros H. inversion H; subst. intros [].
Qed.

Lemma X9_main_single_write_witness :
  exists servers selected,
    getKmsServersFromIssue only_ip_world = Some servers /\
    Spec.select (probe_results (exec only_ip_world) servers) = Some selected /\
    content only_ip_request = hd [] (split (ch ":") selected).
Proof.
  destruct (X9_main_single_write only_ip_world
              {| exit_code := 0; requests := [only_ip_request] |} only_ip_request)
    as (servers & selected & H1 & H2 & _ & _ & _ & H3 & _).
  - vm_compute. reflexivity.
  - simpl. left. reflexivity.
  - exists servers, selected. auto.
Defined.

(** X10. A run of main.js ends with code 0 or 1, and with code 1 exactly
    when a probe succeeded and then the lookup of the record or the write
    failed. *)
Theorem X10_main_exit_code w run :
  main w = Some run ->
  (exit_code run = 0%N \/ exit_code run = 1%N) /\
  (exit_code run = 1%N <->
   exists servers selected,
     getKmsServersFromIssue w = Some servers /\
     Spec.select (probe_results (exec w) servers) = Some selected /\
     ((requests run = [] /\ getCloudflareRecordId w = None) \/
      exists req, requests run = [req] /\ cf_write w req = WriteFails)).
Proof.
  unfold main. destruct (getKmsServersFromIssue w) as [servers|]; [|discriminate].
  pose proof (validate_select (exec w) servers) as Hsel.
  destruct (validateKmsServers (exec w) servers) as [|s rest].
  - cbn. intros H. inversion H; subst; cbn. split; [auto|].
    split; [discriminate|]. intros (sv & sel & E & Hs & _).
    inversion E; subst. congruence.
  - cbn [length Nat.ltb Nat.leb selectKmsServer nth_error].
    unfold updateCloudflareRecord.
    destruct (getCloudflareRecordId w) as [recordId|] eqn:Eid.
    + destruct (truthy recordId);
        unfold updateCloudflareRecordById, createCloudflareRecord;
        match goal with |- context [cf_write w ?r] => destruct (cf_write w r) eqn:Ew end;
        intros H; inversion H; subst; cbn [exit_code requests]; (split; [auto|]);
        split; try discriminate;
        try (intros _; exists servers, s; repeat split; auto; right; eexists;
             split; [reflexivity | exact Ew]);
        intros (sv & sel & _ & _ & [[Hr _]|(req & Hr & Hw)]);
        try discriminate Hr; inversion Hr; subst; congruence.
    + intros H. inversion H; subst; cbn [exit_code requests]. split; [auto|].
      split; [|reflexivity]. intros _. exists servers, s. repeat split; auto.
Qed.

Lemma X10_main_exit_code_witness :
  exit_code {| exit_code := 0; requests := [] |} = 0%N \/
  exit_code {| exit_code := 0; requests := [] |} = 1%N.
Proof.
  exact (proj1 (X10_main_exit_code dead_world {| exit_code := 0; requests := [] |}
                  ltac:(vm_compute; reflexivity))).
Defined.

(* ---------- the revision ---------- *)
(** X12. The revision ends with code 0 exactly when a server was valid,
    the check of the existing records succeeded, the write succeeded and
    the verification request did not throw. *)
Theorem X12_rev_exit_code fetched exec cf :
  exit_code (KmsSyncRev.main fetched exec cf) = 0%N <->
  exists selected rest existing req,
    KmsSyncRev.validateKmsServers exec (KmsSyncRev.candidates fetched) =
      selected :: rest /\
    KmsSyncRev.cf_check cf = KmsSyncRev.CheckData true existing /\
    requests (KmsSyncRev.main fetched exec cf) = [req] /\
    KmsSyncRev.cf_put cf req = true /\
    KmsSyncRev.cf_verify_throws cf = false.
Proof.
  unfold KmsSyncRev.main.
  destruct (KmsSyncRev.validateKmsServers exec (KmsSyncRev.candidates fetched))
    as [|s rest].
  - cbn. split; [discriminate|]. intros (? & ? & ? & ? & H & _). discriminate H.
  - unfold KmsSyncRev.updateCloudflareRecord.
    destruct (KmsSyncRev.cf_check cf) as [|[|] existing]; cbn [exit_code requests].
    + split; [discriminate|]. intros (? & ? & ? & ? & _ & H & _). discriminate H.
    + match goal with |- context [KmsSyncRev.cf_put cf ?r] =>
        set (req := r); destruct (KmsSyncRev.cf_put cf req) eqn:Ep end.
      * destruct (KmsSyncRev.cf_verify_throws cf) eqn:Ev; cbn [negb].
        -- split; [discriminate|]. intros (? & ? & ? & ? & _ & _ & _ & _ & H).
           discriminate H.
        -- split; [|reflexivity]. intros _. exists s, rest, existing, req.
           repeat split; auto.
      * split; [discriminate|].
        intros (? & ? & ? & r & _ & _ & Hr & Hp & _).
        inversion Hr; subst. congruence.
    + split; [discriminate|]. intros (? & ? & ? & ? & _ & H & _). discriminate H.
Qed.

(** X11. In the revision that chooses the record type, a record write
    has type A exactly when its content is a dotted quad of parts of one to
    three digits with values up to 255, and type CNAME otherwise. *)
Theorem X11_rev_record_type fetched exec cf req :
  In req (requests (KmsSyncRev.main fetched exec cf)) ->
  (rtype req = lit "A" \/ rtype req = lit "CNAME") /\
  (rtype req = lit "A" <->
   exists p1 p2 p3 p4,
     content req = p1 ++ lit "." ++ p2 ++ lit "." ++ p3 ++ lit "." ++ p4 /\
     octet p1 = true /\ octet p2 = true /\ octet p3 = true /\ octet p4 = true).
Proof.
  intros H. apply rev_main_record_type in H.
  destruct H as (s & rest & _ & _ & Ht).
  rewrite <- isValidIpAddress_quad.
  destruct (KmsSyncRev.isValidIpAddress (content req)); rewrite Ht.
  - split; [auto|]. split; auto.
  - split; [auto|]. split; [discriminate | discriminate].
Qed.

Lemma X11_rev_record_type_witness :
  rtype only_ip_request_a = lit "A" \/ rtype only_ip_request_a = lit "CNAME".
Proof.
  exact (proj1 (X11_rev_record_type [] (exec only_ip_world) only_ip_cloudflare
                  only_ip_request_a
                  ltac:(vm_compute; left; reflexivity))).
Defined.

Lemma labelled_groups z z' c' :
  Match KmsSyncSocket.labelled z no_caps z' c' ->
  exists h d,
    c' 1 = Some (h ++ lit ":" ++ d) /\
    h <> [] /\ Forall hostP h /\ d <> [] /\ Forall digitP d.
Proof.
  intros HM. unfold KmsSyncSocket.labelled in HM.
  do 4 (apply Match_peel in HM; [destruct HM as (? & HM) | simpl; tauto]).
  apply Match_Grp_inv in HM. destruct HM as (c1 & HM & ->).
  destruct (Match_moved _ _ _ _ _ HM) as (w & Mw & _).
  rewrite (moved_between _ _ _ Mw).
  apply Match_Seq_inv in HM. destruct HM as (z1 & c2 & H1 & HM).
  destruct (Match_plain hostP (Plus (Cls is_hostch)) _ _ _ _ (conj I I)
              chars_plus_hostch H1) as (-> & h & Mh & Fh & Lh).
  apply Match_Seq_inv in HM. destruct HM as (z2 & c3 & Hc & H2).
  apply Match_Cls_inv in Hc. destruct Hc as (colon & Hx & Mx & ->).
  apply N.eqb_eq in Hx. subst colon.
  destruct (Match_plain digitP (Plus (Cls is_digit)) _ _ _ _ (conj I I)
              chars_plus_digit H2) as (_ & d & Md & Fd & Ld).
  exists h, d. split.
  - cbv [set_cap Nat.eqb]. f_equal. eapply moved_inj; [exact Mw|].
    eapply moved_trans; [exact Mh|]. eapply (moved_trans _ [ch ":"]); eauto.
  - repeat split; auto; apply nonempty_length; assumption.
Qed.

Lemma push_loop_S fuel z servers :
  KmsSyncSocket.push_loop (S fuel) z servers =
  match regex_exec KmsSyncSocket.labelled z with
  | None => Some servers
  | Some mt =>
      if length (after (m_end mt)) <? length (after z)
      then KmsSyncSocket.push_loop fuel (m_end mt) (servers ++ [tmpl (m_groups mt 1)])
      else None
  end.
Proof. reflexivity. Qed.

Lemma push_loop_total : forall fuel z servers,
  length (after z) < fuel -> exists out, KmsSyncSocket.push_loop fuel z servers = Some out.
Proof.
  induction fuel as [|fuel IH]; intros z servers Hf; [lia|].
  rewrite push_loop_S.
  destruct (regex_exec KmsSyncSocket.labelled z) as [mt|] eqn:E; [|eauto].
  assert (Hp : length (after (m_end mt)) < length (after z)).
  { apply (regex_exec_progress KmsSyncSocket.labelled); [vm_compute; lia | exact E]. }
  apply Nat.ltb_lt in Hp as Hp'. rewrite Hp'. apply IH. lia.
Qed.

Lemma push_loop_shape : forall fuel z servers out,
  KmsSyncSocket.push_loop fuel z servers = Some out ->
  Forall endpoint_shape servers -> Forall endpoint_shape out.
Proof.
  induction fuel as [|fuel IH]; intros z servers out H HF; [discriminate|].
  rewrite push_loop_S in H.
  destruct (regex_exec KmsSyncSocket.labelled z) as [mt|] eqn:E; [|inversion H; subst; exact HF].
  destruct (length (after (m_end mt)) <? length (after z)); [|discriminate].
  apply IH in H; [exact H|]. apply Forall_app. split; [exact HF|].
  constructor; [|constructor].
  apply regex_exec_sound in E. destruct E as (pre & rest & w & _ & HM & _ & _).
  apply labelled_groups in HM. destruct HM as (h & d & -> & Hh & Fh & Hd & Fd).
  exists h, d. cbn [tmpl]. auto.
Qed.

Lemma connect_args_of_endpoint host port :
  Forall hostP host -> port <> [] -> Forall digitP port ->
  KmsSyncSocket.connect_args (host ++ lit ":" ++ port) =
    (to_number false (digits_value 0 port), Some host) /\
  to_number false (digits_value 0 port) <> NaN /\
  ((digits_value 0 port < 2 ^ 53)%Z ->
   to_number false (digits_value 0 port) = Finite false (digits_value 0 port)).
Proof.
  intros Fh Hp Fp. unfold KmsSyncSocket.connect_args. rewrite split_endpoint by assumption.
  cbn [nth_error tmpl]. rewrite parseInt10_digits by assumption.
  split; [reflexivity|]. split; [apply to_number_not_NaN|].
  intros S. unfold to_number. rewrite round_double_small by exact S. reflexivity.
Qed.

Lemma socket_extraction page :
  exists servers,
    KmsSyncSocket.getKmsServersFromIssue page = Some servers /\
    (page = KmsSyncSocket.PageThrows -> servers = []) /\
    forall server, In server servers ->
      exists host port,
        server = host ++ lit ":" ++ port /\
        host <> [] /\ Forall hostP host /\ port <> [] /\ Forall digitP port /\
        KmsSyncSocket.connect_args server =
          (to_number false (digits_value 0 port), Some host) /\
        to_number false (digits_value 0 port) <> NaN /\
        ((digits_value 0 port < 2 ^ 53)%Z ->
         to_number false (digits_value 0 port) =
           Finite false (digits_value 0 port)).
Proof.
  destruct page as [|text]; cbn [KmsSyncSocket.getKmsServersFromIssue].
  - exists []. split; [reflexivity|]. split; [reflexivity | intros ? []].
  - destruct (push_loop_total (S (length text)) (start_of text) []) as (out & E);
      [simpl; lia|].
    exists out. split; [exact E|]. split; [discriminate|].
    intros server Hs. apply push_loop_shape in E; [|constructor].
    rewrite Forall_forall in E. destruct (E server Hs) as (h & d & -> & Hh & Fh & Hd & Fd).
    exists h, d.
    destruct (connect_args_of_endpoint h d Fh Hd Fd) as (C1 & C2 & C3).
    repeat split; auto.
Qed.

(** X14. [getKmsServersFromIssue] of the socket revisions always returns,
    the empty list when the page cannot be read; each entry is host:port
    with a port of digits, so [testKmsServer] connects to that host and to
    a port that is a number: the double nearest to the value of the
    digits, which is that value when it is below 2^53, and never NaN. *)
Theorem X14_socket_extraction page :
  exists servers,
    KmsSyncSocket.getKmsServersFromIssue page = Some servers /\
    (page = KmsSyncSocket.PageThrows -> servers = []) /\
    forall server, In server servers ->
      exists host port,
        server = host ++ lit ":" ++ port /\
        host <> [] /\ Forall hostP host /\ port <> [] /\ Forall digitP port /\
        KmsSyncSocket.connect_args server =
          (to_number false (digits_value 0 port), Some host) /\
        to_number false (digits_value 0 port) <> NaN /\
        ((digits_value 0 port < 2 ^ 53)%Z ->
         to_number false (digits_value 0 port) =
           Finite false (digits_value 0 port)).
Proof. apply socket_extraction. Qed.

(* ---------- Cloudflare client ---------- *)
Lemma find_record_some records name r :
  KmsSyncSocket.find_record records name = Some r ->
  In r records /\ KmsSyncSocket.rec_name r = name /\ KmsSyncSocket.rec_type r = lit "A".
Proof.
  unfold KmsSyncSocket.find_record. intros H. apply find_some in H. destruct H as [Hin H].
  apply andb_true_iff in H. destruct H as [H1 H2].
  apply str_eqb_eq in H1, H2. auto.
Qed.

Lemma find_record_none records name r :
  KmsSyncSocket.find_record records name = None -> In r records ->
  KmsSyncSocket.rec_type r = lit "A" -> KmsSyncSocket.rec_name r <> name.
Proof.
  unfold KmsSyncSocket.find_record. intros H Hin Ht En.
  pose proof (find_none _ _ H r Hin) as F. cbn beta in F.
  rewrite En, Ht in F.
  assert (T : forall a, str_eqb a a = true) by (intros a; apply str_eqb_eq; reflexivity).
  rewrite !T in F. discriminate.
Qed.

Lemma first_found_some records names r :
  KmsSyncSocket.first_found records names = Some r ->
  In r records /\ In (KmsSyncSocket.rec_name r) names /\ KmsSyncSocket.rec_type r = lit "A".
Proof.
  induction names as [|n names IH]; cbn [KmsSyncSocket.first_found]; [discriminate|].
  destruct (KmsSyncSocket.find_record records n) as [r0|] eqn:E.
  - intros H. inversion H; subst. apply find_record_some in E.
    destruct E as (Hin & <- & Ht). cbn [In]. auto.
  - intros H. destruct (IH H) as (Hin & Hn & Ht). cbn [In]. auto.
Qed.

Lemma first_found_none records names r :
  KmsSyncSocket.first_found records names = None -> In r records ->
  KmsSyncSocket.rec_type r = lit "A" -> ~ In (KmsSyncSocket.rec_name r) names.
Proof.
  induction names as [|n names IH]; cbn [KmsSyncSocket.first_found]; [intros _ _ _ []|].
  destruct (KmsSyncSocket.find_record records n) as [r0|] eqn:E; [discriminate|].
  intros H Hin Ht [Hn|Hn].
  - apply (find_record_none _ _ _ E Hin Ht). symmetry. exact Hn.
  - apply (IH H Hin Ht Hn).
Qed.

(** X16. [updateCloudflareDnsRecord] makes at most one call, after the
    credentials were read and the zone found. It edits an existing A
    record whose name is the record name, that name with the zone name
    appended, or that name without the zone suffix; when no such A record
    exists it adds an A record of the record name. The TTL is 3600. *)
Theorem X16_client_call cf zoneId recordName recordValue call :
  In call (KmsSyncSocket.updateCloudflareDnsRecord
             cf zoneId recordName recordValue) ->
  KmsSyncSocket.updateCloudflareDnsRecord cf zoneId recordName recordValue =
    [call] /\
  KmsSyncSocket.user_read cf = true /\
  exists zones zone records,
    KmsSyncSocket.zones_browse cf = Some zones /\ In zone zones /\
    KmsSyncSocket.zone_id zone = zoneId /\
    KmsSyncSocket.records_browse cf = Some records /\
    ((exists r,
        In r records /\ KmsSyncSocket.rec_type r = lit "A" /\
        In (KmsSyncSocket.rec_name r)
           (KmsSyncSocket.possibleNames recordName
              (KmsSyncSocket.zone_name zone)) /\
        call = KmsSyncSocket.CfEdit zoneId (KmsSyncSocket.rec_id r) (lit "A")
                 (KmsSyncSocket.rec_name r) recordValue 3600) \/
     (call = KmsSyncSocket.CfAdd zoneId (lit "A") recordName recordValue 3600 /\
      forall r, In r records -> KmsSyncSocket.rec_type r = lit "A" ->
                ~ In (KmsSyncSocket.rec_name r)
                     (KmsSyncSocket.possibleNames recordName
                        (KmsSyncSocket.zone_name zone)))).
Proof.
  unfold KmsSyncSocket.updateCloudflareDnsRecord.
  destruct (KmsSyncSocket.user_read cf); cbn [negb]; [|intros []].
  destruct (KmsSyncSocket.zones_browse cf) as [zones|]; [|intros []].
  destruct (find _ zones) as [zone|] eqn:Ez; [|intros []].
  apply find_some in Ez. destruct Ez as [Hz Hid]. apply str_eqb_eq in Hid.
  destruct (KmsSyncSocket.records_browse cf) as [records|]; [|intros []].
  destruct (KmsSyncSocket.find_record records recordName) as [r|] eqn:E1.
  - intros [<-|[]]. split; [reflexivity|]. split; [reflexivity|].
    exists zones, zone, records. repeat split; auto. left.
    apply find_record_some in E1. destruct E1 as (Hin & Hn & Ht).
    exists r. repeat split; auto. rewrite Hn. left. reflexivity.
  - destruct (KmsSyncSocket.first_found records _) as [r|] eqn:E2.
    + intros [<-|[]]. split; [reflexivity|]. split; [reflexivity|].
      exists zones, zone, records. repeat split; auto. left.
      apply first_found_some in E2. destruct E2 as (Hin & Hn & Ht).
      exists r. repeat split; auto.
    + intros [<-|[]]. split; [reflexivity|]. split; [reflexivity|].
      exists zones, zone, records. repeat split; auto. right.
      split; [reflexivity|]. intros r Hin Ht.
      apply (first_found_none _ _ _ E2 Hin Ht).
Qed.

Lemma X16_client_call_witness :
  KmsSyncSocket.updateCloudflareDnsRecord ClientScenario.two_records (lit "z1")
    (lit "kms.everyhub.top") (lit "10.0.0.7") =
  [ KmsSyncSocket.CfEdit (lit "z1") (lit "r7") (lit "A") (lit "kms.everyhub.top")
      (lit "10.0.0.7") 3600 ].
Proof.
  apply (X16_client_call ClientScenario.two_records).
  vm_compute. left. reflexivity.
Defined.

(* ---------- socket main ---------- *)
(** X17. The [main] of the socket revisions always ends, with code 1
    exactly when one of the three environment variables is not set or a
    call of [connect] throws, and then without any call to Cloudflare;
    otherwise with code 0. The constructor of the Cloudflare client is
    taken not to throw. *)
Theorem X17_socket_main_exit env w :
  exists run,
    KmsSyncSocket.main env w = Some run /\
    (KmsSyncSocket.exit_code run = 0%N \/ KmsSyncSocket.exit_code run = 1%N) /\
    (KmsSyncSocket.exit_code run = 1%N -> KmsSyncSocket.calls run = []) /\
    (KmsSyncSocket.exit_code run = 1%N <->
     truthy (KmsSyncSocket.apiToken env) = false \/ truthy (KmsSyncSocket.zoneId env) = false \/
     truthy (KmsSyncSocket.recordName env) = false \/
     exists servers j s,
       KmsSyncSocket.getKmsServersFromIssue (KmsSyncSocket.page w) = Some servers /\
       nth_error servers j = Some s /\
       KmsSyncSocket.net w j s = KmsSyncRev.ConnectThrows).
Proof.
  unfold KmsSyncSocket.main.
  destruct (truthy (KmsSyncSocket.apiToken env)); cbn [negb];
    [|eexists; split; [reflexivity|]; cbn; repeat split; auto].
  destruct (truthy (KmsSyncSocket.zoneId env)); cbn [negb];
    [|eexists; split; [reflexivity|]; cbn; repeat split; auto].
  destruct (truthy (KmsSyncSocket.recordName env)); cbn [negb];
    [|eexists; split; [reflexivity|]; cbn; repeat split; auto 6].
  destruct (socket_extraction (KmsSyncSocket.page w)) as (servers & E & _). rewrite E.
  destruct (KmsSyncRev.probe_sockets (KmsSyncSocket.net w) 0 servers []) as [valid|] eqn:Ep.
  - assert (N : ~ exists j s, nth_error servers j = Some s /\
                  KmsSyncSocket.net w j s = KmsSyncRev.ConnectThrows).
    { intros H. apply (probe_sockets_none _ _ 0 []) in H. congruence. }
    destruct valid as [|first rest]; eexists; (split; [reflexivity|]);
      cbn [KmsSyncSocket.exit_code KmsSyncSocket.calls]; (split; [auto|]); (split; [discriminate|]);
      (split; [discriminate|]);
      intros [H|[H|[H|(sv & j & s & Es & Hj & Hn)]]]; try discriminate H;
      exfalso; apply N; exists j, s; split; congruence.
  - apply probe_sockets_none in Ep. destruct Ep as (j & s & Hj & Hn).
    cbn [Nat.add] in Hn. eexists. split; [reflexivity|]. cbn [KmsSyncSocket.exit_code KmsSyncSocket.calls].
    split; [auto|]. split; [reflexivity|]. split; [|reflexivity].
    intros _. right. right. right. exists servers, j, s. auto.
Qed.

Lemma labelled_no_match bef aft :
  startsWith (lit "kms") aft = false -> startsWith (lit "KMS") aft = false ->
  match_at KmsSyncSocket.labelled {| before := bef; after := aft |} = None.
Proof.
  intros H1 H2. unfold match_at, KmsSyncSocket.labelled.
  rewrite m_Seq, m_Alt, (m_str_fail _ _ _ _ _ H1), (m_str_fail _ _ _ _ _ H2).
  reflexivity.
Qed.

Lemma labelled_tail_match ws1 ws2 host p post bef :
  forallb is_space ws1 = true -> forallb is_space ws2 = true ->
  host <> [] -> forallb is_hostch host = true ->
  p <> [] -> forallb is_digit p = true -> stops is_digit post ->
  exists b',
    m (Star (Cls is_space) >> chr ":" >> Star (Cls is_space) >>
       Grp 1 (Plus (Cls is_hostch) >> chr ":" >> Plus (Cls is_digit)))
      {| before := bef;
         after := ws1 ++ lit ":" ++ ws2 ++ host ++ lit ":" ++ p ++ post |}
      no_caps (fun z' c' => Some {| m_end := z'; m_groups := c' |}) =
    Some {| m_end := {| before := b'; after := post |};
            m_groups := set_cap 1 (host ++ lit ":" ++ p) no_caps |}.
Proof.
  intros Hw1 Hw2 Hne Hh Hpne Hpd Hstop.
  assert (Hsp : stops is_space (host ++ lit ":" ++ p ++ post)).
  { destruct host as [|x host]; [congruence|]. cbn [app stops].
    apply hostch_not_space. cbn [forallb] in Hh.
    apply andb_true_iff in Hh. tauto. }
  eexists.
  rewrite m_Seq. apply m_star_cls; [apply forallb_Forall; exact Hw1 | reflexivity |].
  cbv beta. rewrite m_Seq. unfold chr at 1.
  cbn [lit list_ascii_of_string map app].
  rewrite m_Cls_cons, N.eqb_refl, m_Seq.
  apply m_star_cls; [apply forallb_Forall; exact Hw2 | exact Hsp |].
  cbv beta. rewrite m_Grp, m_Seq.
  apply m_plus_cls; [exact Hne | apply forallb_Forall; exact Hh | reflexivity |].
  cbv beta. rewrite m_Seq. unfold chr at 1. rewrite m_Cls_cons, N.eqb_refl.
  apply m_plus_cls; [exact Hpne | apply forallb_Forall; exact Hpd | exact Hstop |].
  rewrite (between_eq _ _ (host ++ N_of_ascii ":" :: p));
    [reflexivity | cbn [after]; rewrite <- app_assoc; reflexivity].
Qed.

Lemma push_loop_prefix : forall fuel z servers out,
  KmsSyncSocket.push_loop fuel z servers = Some out -> exists rest, out = servers ++ rest.
Proof.
  induction fuel as [|fuel IH]; intros z servers out H; [discriminate|].
  rewrite push_loop_S in H.
  destruct (regex_exec KmsSyncSocket.labelled z) as [mt|].
  - destruct (length (after (m_end mt)) <? length (after z)); [|discriminate].
    apply IH in H. destruct H as (rest & ->).
    eexists. rewrite <- app_assoc. reflexivity.
  - inversion H; subst. exists []. rewrite app_nil_r. reflexivity.
Qed.

(** X15. In the socket revisions, when the first label kms or KMS of the
    page begins a well-formed token with a port, not continued by a digit,
    the first server returned is the host and port of that token. *)
Theorem X15_socket_first_token pre post t p :
  well_formed_exact t = true -> t_port t = Some p ->
  includes pre (lit "kms") = false -> includes pre (lit "KMS") = false ->
  ends_before t post = true ->
  exists rest,
    KmsSyncSocket.getKmsServersFromIssue (KmsSyncSocket.PageText (pre ++ token_text t ++ post)) =
    Some (token_server t :: rest).
Proof.
  intros Hwf Hport Hk1 Hk2 He.
  destruct (well_formed_exact_parts t Hwf) as (Hl & Hw1 & Hw2 & Hne & Hh & Hp).
  unfold ends_before in He. rewrite Hport in Hp, He. destruct Hp as [Hpne Hpd].
  assert (Hstop : stops is_digit post).
  { destruct post as [|y post]; [exact I|]. cbn [stops].
    apply negb_true_iff. exact He. }
  rewrite token_text_app, Hport. cbn [port_suffix]. rewrite <- app_assoc.
  set (tail := t_label t ++ t_ws1 t ++ lit ":" ++ t_ws2 t ++ t_host t ++
               lit ":" ++ p ++ post).
  set (text := pre ++ tail).
  assert (Hexec : exists b',
            regex_exec KmsSyncSocket.labelled (start_of text) =
            Some {| m_end := {| before := b'; after := post |};
                    m_groups := set_cap 1 (t_host t ++ lit ":" ++ p) no_caps |}).
  { unfold regex_exec, start_of, text. cbn [before after].
    rewrite search_skip.
    - rewrite search_unfold. unfold match_at, KmsSyncSocket.labelled, tail.
      destruct Hl as [-> | ->].
      + destruct (labelled_tail_match (t_ws1 t) (t_ws2 t) (t_host t) p post
                    (rev (lit "kms") ++ rev pre ++ []) Hw1 Hw2 Hne Hh Hpne Hpd Hstop)
          as (b' & E).
        exists b'. rewrite m_Seq, m_Alt, m_str. rewrite E. reflexivity.
      + destruct (labelled_tail_match (t_ws1 t) (t_ws2 t) (t_host t) p post
                    (rev (lit "KMS") ++ rev pre ++ []) Hw1 Hw2 Hne Hh Hpne Hpd Hstop)
          as (b' & E).
        exists b'. rewrite m_Seq, m_Alt.
        rewrite m_str_fail by reflexivity. rewrite m_str. rewrite E. reflexivity.
    - intros p1 p2 E Hp2. apply labelled_no_match; unfold tail.
      + eapply no_label_straddles; eauto.
      + eapply no_label_straddles; eauto. }
  destruct Hexec as (b' & Hexec).
  assert (Hlen : length post < length text).
  { unfold text, tail. rewrite !length_app.
    destruct Hl as [-> | ->]; simpl; lia. }
  cbn [KmsSyncSocket.getKmsServersFromIssue]. fold text.
  rewrite push_loop_S, Hexec. cbn [m_end after start_of m_groups set_cap Nat.eqb tmpl].
  apply Nat.ltb_lt in Hlen as Hlen'. rewrite Hlen'.
  match goal with
  | |- context [KmsSyncSocket.push_loop ?f ?z ?s] =>
      destruct (push_loop_total f z s) as (out & E); [exact Hlen|]
  end.
  rewrite E. apply push_loop_prefix in E. destruct E as (rest & ->).
  exists rest. unfold token_server. rewrite Hport. reflexivity.
Qed.

Lemma X15_socket_first_token_witness :
  exists rest,
    KmsSyncSocket.getKmsServersFromIssue
      (KmsSyncSocket.PageText (lit "list: " ++
                   token_text {| t_label := lit "KMS"; t_ws1 := lit " "; t_ws2 := [];
                                 t_host := lit "kms.03k.org"; t_port := Some (lit "1688") |}
                   ++ lit ", more")) =
    Some (token_server {| t_label := lit "KMS"; t_ws1 := lit " "; t_ws2 := [];
                          t_host := lit "kms.03k.org"; t_port := Some (lit "1688") |}
          :: rest).
Proof.
  apply (X15_socket_first_token (lit "list: ") (lit ", more")
           {| t_label := lit "KMS"; t_ws1 := lit " "; t_ws2 := [];
              t_host := lit "kms.03k.org"; t_port := Some (lit "1688") |}
           (lit "1688")); vm_compute; reflexivity.
Defined.
